(** * SSVM: the AST type nodes, import descriptors and the module
      instantiation pipeline

    A shallow embedding of
      - [include/common/ast/type.h]        (Limit, FunctionType, ...),
      - [include/common/ast/description.h] (ImportDesc, ExportDesc),
      - [lib/interpreter/instantiate/module.cpp] (Interpreter::instantiate),
    and the properties of these that the design document states.

    [Interpreter::instantiate] is a sequence of calls on collaborators
    (the store manager, the stack manager, the instruction provider, the
    per-section instantiation routines, the main interpreter).  It is
    embedded as a program over these calls ([Prog]); a handler gives the
    calls a meaning on a machine state, and running a program records the
    calls made and their answers. *)

From stdpp Require Import base gmap strings list sorting.
From Stdlib Require Import ZArith Lia.

Set Default Proof Using "Type".

(* ===================================================================== *)
(** ** Machine integers and results *)
(* ===================================================================== *)

(** [uint32_t]: an integer in [0, 2^32).  A wider value converted to
    [uint32_t] wraps around. *)
Definition u32_max : Z := 2 ^ 32.
Definition u32 (x : Z) : Z := x mod u32_max.
Definition is_u32 (x : Z) : Prop := (0 <= x < u32_max)%Z.

(** Modelled from the spec: the error codes of [common/errcode.h], which
    is not among the sources; the enumerators are the error kinds of the
    design document's taxonomy (the two that the sources name,
    [ModuleNameConflict] and [IncompatibleImportType], are among them). *)
Inductive ErrCode : Type :=
| ModuleNameConflict
| UnknownImport
| IncompatibleImportType
| InvalidInitializer
| TableOutOfRange
| MemoryOutOfRange
| DuplicateExportName
| BadAddress
| StartTrap.

#[global] Instance ErrCode_eq_dec : EqDecision ErrCode.
Proof. solve_decision. Defined.

(** [Expect<T>]: a value, or [Unexpect(code)]. *)
Inductive Expect (T : Type) : Type :=
| Value (v : T)
| Unexpect (e : ErrCode).
Arguments Value {T} v.
Arguments Unexpect {T} e.

(** The boolean conversion of an [Expect] ([if (auto Res = f())]). *)
Definition has_value {T} (r : Expect T) : bool :=
  match r with Value _ => true | Unexpect _ => false end.

(** [std::unique_ptr<T>]: owns a [T], or is null. *)
Definition unique_ptr (T : Type) : Type := option T.
(** [unique_ptr::get]: the raw pointer, null when nothing is owned. *)
Definition get {T} (p : unique_ptr T) : option T := p.

(* ===================================================================== *)
(** ** common/ast/type.h *)
(* ===================================================================== *)

(** Modelled from the spec: the enumerations of [common/types.h], which is
    not among the sources (value types, mutability, element type and the
    external kinds of the data model). *)
Inductive ValType : Type := I32 | I64 | F32 | F64.
Inductive ValMut : Type := Const | Var.
Inductive ElemType : Type := FuncRef.
Inductive ExternalType : Type :=
| ExtFunction | ExtTable | ExtMemory | ExtGlobal.

#[global] Instance ValType_eq_dec : EqDecision ValType.
Proof. solve_decision. Defined.
#[global] Instance ValMut_eq_dec : EqDecision ValMut.
Proof. solve_decision. Defined.
#[global] Instance ExternalType_eq_dec : EqDecision ExternalType.
Proof. solve_decision. Defined.

Module AST.

(** *** Limit *)

Inductive LimitType : Type := HasMin | HasMinMax.

#[global] Instance LimitType_eq_dec : EqDecision LimitType.
Proof. solve_decision. Defined.

(** The three private fields of the class. *)
Record Limit : Type := mkLimit {
  LimType : LimitType;
  Min : Z;
  Max : Z
}.

(** [Limit()] initialises no field; the node is then filled by
    [loadBinary], which is not among the sources.  It is not modelled.

    [Limit(const uint32_t MinVal)] initialises [Type] and [Min] only: the
    field [Max] keeps whatever the storage of the object held.  That
    indeterminate content is the argument [MaxIndet]. *)
Definition Limit_1 (MaxIndet : Z) (MinVal : Z) : Limit :=
  {| LimType := HasMin; Min := u32 MinVal; Max := u32 MaxIndet |}.

(** [Limit(const uint32_t MinVal, const uint32_t MaxVal)]. *)
Definition Limit_2 (MinVal MaxVal : Z) : Limit :=
  {| LimType := HasMinMax; Min := u32 MinVal; Max := u32 MaxVal |}.

Definition hasMax (L : Limit) : bool :=
  bool_decide (LimType L = HasMinMax).
Definition getMin (L : Limit) : Z := Min L.
Definition getMax (L : Limit) : Z := Max L.

(** *** FunctionType, MemoryType, TableType, GlobalType *)

Record FunctionType : Type := mkFunctionType {
  ParamTypes : list ValType;
  ReturnTypes : list ValType
}.
Definition getParamTypes (F : FunctionType) := ParamTypes F.
Definition getReturnTypes (F : FunctionType) := ReturnTypes F.

(** The compiled-symbol slot is a raw [void*]; it is kept as an opaque
    address, null being [None]. *)
Record MemoryType : Type := mkMemoryType {
  Memory : unique_ptr Limit;
  MemSymbol : option Z
}.
Definition MemoryType_getLimit (M : MemoryType) : option Limit :=
  get (Memory M).

Record TableType : Type := mkTableType {
  TabElemType : ElemType;
  Table : unique_ptr Limit
}.
Definition getElementType (T : TableType) : ElemType := TabElemType T.
Definition TableType_getLimit (T : TableType) : option Limit := get (Table T).

Record GlobalType : Type := mkGlobalType {
  GlobValType : ValType;
  Mut : ValMut
}.
Definition getValueType (G : GlobalType) : ValType := GlobValType G.
Definition getValueMutation (G : GlobalType) : ValMut := Mut G.

(* ===================================================================== *)
(** ** common/ast/description.h *)
(* ===================================================================== *)

(** [ImportDesc::ExtContentType]: a variant over four owning pointers. *)
Inductive ExtContentType : Type :=
| Content_uint32 (p : unique_ptr Z)
| Content_TableType (p : unique_ptr TableType)
| Content_MemoryType (p : unique_ptr MemoryType)
| Content_GlobalType (p : unique_ptr GlobalType).

(** The types [T] at which [getExternalContent<T>] is instantiated:
    [std::get_if<std::unique_ptr<T>>] only compiles when
    [unique_ptr<T>] is one of the alternatives. *)
Inductive ContentT : Type :=
| T_uint32 | T_TableType | T_MemoryType | T_GlobalType.

#[global] Instance ContentT_eq_dec : EqDecision ContentT.
Proof. solve_decision. Defined.

Definition content (T : ContentT) : Type :=
  match T with
  | T_uint32 => Z
  | T_TableType => TableType
  | T_MemoryType => MemoryType
  | T_GlobalType => GlobalType
  end.

(** The alternative that a variant value holds. *)
Definition alternative (V : ExtContentType) : ContentT :=
  match V with
  | Content_uint32 _ => T_uint32
  | Content_TableType _ => T_TableType
  | Content_MemoryType _ => T_MemoryType
  | Content_GlobalType _ => T_GlobalType
  end.

(** The variant value that holds the pointer [p] as alternative [T]. *)
Definition hold (T : ContentT) : unique_ptr (content T) -> ExtContentType :=
  match T with
  | T_uint32 => Content_uint32
  | T_TableType => Content_TableType
  | T_MemoryType => Content_MemoryType
  | T_GlobalType => Content_GlobalType
  end.

(** [std::get_if<std::unique_ptr<T>>(&V)]: the held pointer when [V]
    holds that alternative, null otherwise. *)
Definition get_if (T : ContentT) (V : ExtContentType)
  : option (unique_ptr (content T)) :=
  match T, V with
  | T_uint32, Content_uint32 p => Some p
  | T_TableType, Content_TableType p => Some p
  | T_MemoryType, Content_MemoryType p => Some p
  | T_GlobalType, Content_GlobalType p => Some p
  | _, _ => None
  end.

Record ImportDesc : Type := mkImportDesc {
  ImportDesc_ExtType : ExternalType;
  ModName : string;
  ImportDesc_ExtName : string;
  ExtContent : ExtContentType
}.
Definition getModuleName (D : ImportDesc) : string := ModName D.

(** [template <typename T> Expect<T *> getExternalContent() const]. *)
Definition getExternalContent (T : ContentT) (D : ImportDesc)
  : Expect (option (content T)) :=
  match get_if T (ExtContent D) with
  | Some Ptr => Value (get Ptr)
  | None => Unexpect IncompatibleImportType
  end.

Record ExportDesc : Type := mkExportDesc {
  ExportDesc_ExtType : ExternalType;
  ExportDesc_ExtName : string;
  ExtIdx : Z;
  ExportSymbol : option Z
}.
Definition getExternalIndex (D : ExportDesc) : Z := ExtIdx D.

(* ===================================================================== *)
(** ** common/ast/module.h, section.h, segment.h, instruction.h *)
(* ===================================================================== *)

(** Modelled from the spec: the instructions of an initializer
    expression.  The instruction classes are not among the sources; the
    design document fixes the dialect an initializer may use (the four
    constants and [global.get]); every other opcode is [other_op]. *)
Inductive Instr : Type :=
| i32_const (v : Z)
| i64_const (v : Z)
| f32_const (bits : Z)
| f64_const (bits : Z)
| global_get (idx : Z)
| other_op (opcode : Z).

Definition Expression : Type := list Instr.

(** Modelled from the spec: the section payloads.  The section and
    segment classes are not among the sources; each payload is the
    ordered content that the data model of the design document gives the
    section.  [Interpreter::instantiate] only passes them on. *)
Record CodeSegment : Type := mkCodeSegment {
  Locals : list (Z * ValType);
  Body : list Instr
}.
Record GlobalSegment : Type := mkGlobalSegment {
  Global : GlobalType;
  GlobalInit : Expression
}.
Record ElementSegment : Type := mkElementSegment {
  TableIdx : Z;
  ElemOffset : Expression;
  FuncIdxes : list Z
}.
Record DataSegment : Type := mkDataSegment {
  MemoryIdx : Z;
  DataOffset : Expression;
  Data : list Z
}.

Definition TypeSection : Type := list (unique_ptr FunctionType).
Definition ImportSection : Type := list ImportDesc.
Definition FunctionSection : Type := list Z.
Definition TableSection : Type := list TableType.
Definition MemorySection : Type := list MemoryType.
Definition GlobalSection : Type := list GlobalSegment.
Definition ExportSection : Type := list ExportDesc.
Definition StartSection : Type := Z.
Definition ElementSection : Type := list ElementSegment.
Definition CodeSection : Type := list CodeSegment.
Definition DataSection : Type := list DataSegment.

(** The constructor of an ahead-of-time compiled module: a C function
    pointer, kept as an opaque address. *)
Definition Ctor : Type := Z.

(** Modelled from the spec: [AST::Module] ([common/ast/module.h] is not
    among the sources): a bag of optional sections, read through the
    accessors that [Interpreter::instantiate] calls.  An accessor returns
    the section, or a null pointer ([None]). *)
Record Module : Type := mkModule {
  getTypeSection : option TypeSection;
  getImportSection : option ImportSection;
  getFunctionSection : option FunctionSection;
  getTableSection : option TableSection;
  getMemorySection : option MemorySection;
  getGlobalSection : option GlobalSection;
  getExportSection : option ExportSection;
  getStartSection : option StartSection;
  getElementSection : option ElementSection;
  getCodeSection : option CodeSection;
  getDataSection : option DataSection;
  getCtor : option Ctor
}.

End AST.

(* ===================================================================== *)
(** ** The runtime data model *)
(* ===================================================================== *)

Module Runtime.

(** Modelled from the spec: a typed scalar, the value of an initializer
    and the argument of a function ([common/value.h] is not among the
    sources).  Floats are kept as their bit patterns. *)
Inductive ValVariant : Type :=
| val_i32 (v : Z)
| val_i64 (v : Z)
| val_f32 (bits : Z)
| val_f64 (bits : Z).

(** Modelled from the spec: the module instance
    ([runtime/instance/module.h] is not among the sources): its name, its
    own address in the Store, the function-type table, one address space
    per kind, the export map and the optional start index. *)
Record ModuleInstance : Type := mkModuleInstance {
  ModName : string;
  Addr : Z;
  FuncTypes : list (list ValType * list ValType);
  FuncAddrs : list Z;
  TableAddrs : list Z;
  MemAddrs : list Z;
  GlobalAddrs : list Z;
  ExportMap : gmap string (ExternalType * Z);
  StartIdx : option Z
}.

(** [ModuleInstance(Name)]: a fresh instance that carries the name. *)
Definition ModuleInstance_new (Name : string) : ModuleInstance :=
  {| ModName := Name; Addr := 0; FuncTypes := []; FuncAddrs := [];
     TableAddrs := []; MemAddrs := []; GlobalAddrs := [];
     ExportMap := ∅; StartIdx := None |}.

(** The Store owns every instance; a [ModuleInstance *] or a
    [FunctionInstance *] obtained from the Store designates a slot of one
    of its arenas, and is kept as that slot's address.  Writes through the
    pointer are writes to the Store's slot. *)
Definition ModuleInstancePtr : Type := Z.
Definition FunctionInstancePtr : Type := Z.

End Runtime.

(* ===================================================================== *)
(** ** Programs over the collaborators' calls *)
(* ===================================================================== *)

Module Interpreter.
Import AST Runtime.

(** [Interpreter::InstantiateMode]. *)
Inductive InstantiateMode : Type := Instantiate | ImportWasm.

(** The calls that [Interpreter::instantiate] makes on code which is not
    part of the function itself, each with the type of its answer.  The
    callees are not among the sources; the answer types are those the
    source uses them at: an [Expect] where the source tests the result
    ([if (auto Res = ...; !Res)]) or dereferences it ([*Res]), and for
    [findModule], which the source only tests for success, the optional
    address of the design document's [find_module]. *)
Inductive Call : Type -> Type :=
(* Runtime::StoreManager *)
| StoreMgr_reset : Call unit
| StoreMgr_findModule (Name : string) : Call (option ModuleInstancePtr)
| StoreMgr_pushModule (Inst : ModuleInstance) : Call Z
| StoreMgr_importModule (Inst : ModuleInstance) : Call Z
| StoreMgr_getModule (ModAddr : Z) : Call (Expect ModuleInstancePtr)
| StoreMgr_getFunction (FuncAddr : Z) : Call (Expect FunctionInstancePtr)
(* Runtime::StackManager *)
| StackMgr_reset : Call unit
| StackMgr_pushFrame (ModAddr Arity Coarity : Z) : Call unit
| StackMgr_popFrame : Call unit
(* the instruction provider *)
| InstrPdr_reset : Call unit
(* Runtime::Instance::ModuleInstance, through the pointer *)
| ModInst_addFuncType (ModInst : ModuleInstancePtr)
    (Params Returns : list ValType) : Call unit
| ModInst_Addr (ModInst : ModuleInstancePtr) : Call Z
| ModInst_setStartIdx (ModInst : ModuleInstancePtr) (Idx : Z) : Call unit
| ModInst_getStartAddr (ModInst : ModuleInstancePtr) : Call (Expect Z)
(* the other overloads of Interpreter::instantiate *)
| instantiate_ImportSec (ModInst : ModuleInstancePtr)
    (ImportSec : ImportSection) : Call (Expect unit)
| instantiate_FuncSec (ModInst : ModuleInstancePtr)
    (FuncSec : FunctionSection) (CodeSec : CodeSection) : Call (Expect unit)
| instantiate_GlobalSec (ModInst : ModuleInstancePtr)
    (GlobSec : GlobalSection) : Call (Expect unit)
| instantiate_TableSec (ModInst : ModuleInstancePtr)
    (TabSec : TableSection) : Call (Expect unit)
| instantiate_MemorySec (ModInst : ModuleInstancePtr)
    (MemSec : MemorySection) : Call (Expect unit)
| instantiate_ElemSec (ModInst : ModuleInstancePtr)
    (ElemSec : ElementSection) (Offsets : list Z) : Call (Expect unit)
| instantiate_DataSec (ModInst : ModuleInstancePtr)
    (DataSec : DataSection) (Offsets : list Z) : Call (Expect unit)
| instantiate_ExportSec (ModInst : ModuleInstancePtr)
    (ExportSec : ExportSection) : Call (Expect unit)
(* Interpreter::resolveExpression, both overloads *)
| resolveExpression_ElemSec (ModInst : ModuleInstancePtr)
    (ElemSec : ElementSection) : Call (Expect (list Z))
| resolveExpression_DataSec (ModInst : ModuleInstancePtr)
    (DataSec : DataSection) : Call (Expect (list Z))
(* the constructor of a compiled module, called with the four proxies *)
| CtorFunc (F : Ctor) : Call unit
(* Interpreter::runFunction *)
| runFunction (FuncInst : FunctionInstancePtr)
    (Params : list ValVariant) : Call (Expect unit).

(** A program: it returns, or makes a call and goes on with the answer,
    or has undefined behaviour ([Undef]: the source dereferences an
    [Expect] or a pointer that holds nothing). *)
Inductive Prog (A : Type) : Type :=
| Ret (a : A)
| Undef
| Vis {X : Type} (c : Call X) (k : X -> Prog A).
Arguments Ret {A} a.
Arguments Undef {A}.
Arguments Vis {A X} c k.

Fixpoint bind {A B} (p : Prog A) (f : A -> Prog B) : Prog B :=
  match p with
  | Ret a => f a
  | Undef => Undef
  | Vis c k => Vis c (fun x => bind (k x) f)
  end.

Definition call {X} (c : Call X) : Prog X := Vis c Ret.

(** [*Res] on an [Expect]: the value; undefined when there is none. *)
Definition deref {A} (Res : Expect A) : Prog A :=
  match Res with
  | Value v => Ret v
  | Unexpect _ => Undef
  end.

(** [*Ptr] / [Ptr->] on an owning pointer: undefined on null. *)
Definition deref_ptr {A} (Ptr : unique_ptr A) : Prog A :=
  match Ptr with
  | Some v => Ret v
  | None => Undef
  end.

(** [if (auto Res = p; !Res) return Unexpect(Res);] and on with the
    value: the early return of the source. *)
Definition try {A B} (p : Prog (Expect A)) (f : A -> Prog (Expect B))
  : Prog (Expect B) :=
  bind p (fun Res =>
    match Res with
    | Value v => f v
    | Unexpect e => Ret (Unexpect e)
    end).

Declare Scope prog_scope.
Delimit Scope prog_scope with prog.
Notation "x <- p ;; q" := (bind p (fun x => q))
  (at level 100, p at next level, right associativity,
   format "'[v' x  <-  p  ;;  '/' q ']'") : prog_scope.
Notation "p ;; q" := (bind p (fun _ => q))
  (at level 100, right associativity,
   format "'[v' p  ;;  '/' q ']'") : prog_scope.
Notation "x <-? p ;; q" := (try p (fun x => q))
  (at level 100, p at next level, right associativity,
   format "'[v' x  <-?  p  ;;  '/' q ']'") : prog_scope.
Notation "'check' p ;; q" := (try p (fun _ => q))
  (at level 100, p at next level, right associativity,
   format "'[v' 'check'  p  ;;  '/' q ']'") : prog_scope.
Local Open Scope prog_scope.

(** The loop over the type section: each function type's parameter and
    return lists are copied to the module instance. *)
Fixpoint addFuncTypes (ModInst : ModuleInstancePtr) (FuncTypes : TypeSection)
  : Prog unit :=
  match FuncTypes with
  | [] => Ret tt
  | FuncType :: rest =>
      F <- deref_ptr FuncType ;;
      call (ModInst_addFuncType ModInst (getParamTypes F) (getReturnTypes F)) ;;
      addFuncTypes ModInst rest
  end.

(** [Expect<void> Interpreter::instantiate(Runtime::StoreManager &StoreMgr,
    const AST::Module &Mod, const std::string &Name)].
    [InsMode] is the interpreter's member of that name. *)
Definition instantiate (InsMode : InstantiateMode) (Mod : Module)
    (Name : string) : Prog (Expect unit) :=
  (* Reset store manager, stack manager, and instruction provider. *)
  call StoreMgr_reset ;;
  call StackMgr_reset ;;
  call InstrPdr_reset ;;
  (* Check is module name duplicated. *)
  Res <- call (StoreMgr_findModule Name) ;;
  if Res is Some _ then Ret (Unexpect ModuleNameConflict) else
  let NewModInst := ModuleInstance_new Name in
  (* Insert the module instance to store manager and retrieve instance. *)
  ModInstAddr <- match InsMode with
                 | Instantiate => call (StoreMgr_pushModule NewModInst)
                 | ImportWasm => call (StoreMgr_importModule NewModInst)
                 end ;;
  ModInst <- (Res <- call (StoreMgr_getModule ModInstAddr) ;; deref Res) ;;
  (* Instantiate Function Types in Module Instance. (TypeSec) *)
  match getTypeSection Mod with
  | Some TypeSec => addFuncTypes ModInst TypeSec
  | None => Ret tt
  end ;;
  (* Instantiate ImportSection and do import matching. (ImportSec) *)
  check match getImportSection Mod with
        | Some ImportSec => call (instantiate_ImportSec ModInst ImportSec)
        | None => Ret (Value tt)
        end ;;
  (* Instantiate Functions in module. (FuncionSec, CodeSec) *)
  check match getFunctionSection Mod, getCodeSection Mod with
        | Some FuncSec, Some CodeSec =>
            call (instantiate_FuncSec ModInst FuncSec CodeSec)
        | _, _ => Ret (Value tt)
        end ;;
  (* Instantiate GlobalSection (GlobalSec) *)
  check match getGlobalSection Mod with
        | Some GlobSec => call (instantiate_GlobalSec ModInst GlobSec)
        | None => Ret (Value tt)
        end ;;
  (* Instantiate TableSection (TableSec) *)
  check match getTableSection Mod with
        | Some TabSec => call (instantiate_TableSec ModInst TabSec)
        | None => Ret (Value tt)
        end ;;
  (* Instantiate MemorySection (MemorySec) *)
  check match getMemorySection Mod with
        | Some MemSec => call (instantiate_MemorySec ModInst MemSec)
        | None => Ret (Value tt)
        end ;;
  (* Initialize the tables and memories.
     Make a new frame {ModInst, locals:none} and push *)
  ModAddr <- call (ModInst_Addr ModInst) ;;
  call (StackMgr_pushFrame ModAddr 0 0) ;;
  (* Resolve offset list of element section. *)
  ElemOffsets <-? match getElementSection Mod with
                  | Some ElemSec =>
                      call (resolveExpression_ElemSec ModInst ElemSec)
                  | None => Ret (Value [])
                  end ;;
  (* Resolve offset list of data section. *)
  DataOffsets <-? match getDataSection Mod with
                  | Some DataSec =>
                      call (resolveExpression_DataSec ModInst DataSec)
                  | None => Ret (Value [])
                  end ;;
  (* Pop Frame. *)
  call StackMgr_popFrame ;;
  (* Instantiate initialization of table instances (ElemSec) *)
  check match getElementSection Mod with
        | Some ElemSec =>
            call (instantiate_ElemSec ModInst ElemSec ElemOffsets)
        | None => Ret (Value tt)
        end ;;
  (* Instantiate initialization of memory instances (DataSec) *)
  check match getDataSection Mod with
        | Some DataSec =>
            call (instantiate_DataSec ModInst DataSec DataOffsets)
        | None => Ret (Value tt)
        end ;;
  (* Instantiate ExportSection (ExportSec) *)
  check match getExportSection Mod with
        | Some ExportSec => call (instantiate_ExportSec ModInst ExportSec)
        | None => Ret (Value tt)
        end ;;
  (* Call Ctor for compiled module *)
  match getCtor Mod with
  | Some F => call (CtorFunc F)
  | None => Ret tt
  end ;;
  (* Instantiate StartSection (StartSec) *)
  match getStartSection Mod with
  | Some StartSec =>
      call (ModInst_setStartIdx ModInst StartSec) ;;
      (* Get function instance. *)
      StartAddr <- (Res <- call (ModInst_getStartAddr ModInst) ;; deref Res) ;;
      FuncInst <- (Res <- call (StoreMgr_getFunction StartAddr) ;; deref Res) ;;
      (* Call runFunction. *)
      call (runFunction FuncInst [])
  | None => Ret (Value tt)
  end.

Arguments instantiate : simpl never.

(** The module without its Function and Code sections. *)
Definition without_functions (Mod : Module) : Module :=
  mkModule (getTypeSection Mod) (getImportSection Mod) None
    (getTableSection Mod) (getMemorySection Mod) (getGlobalSection Mod)
    (getExportSection Mod) (getStartSection Mod) (getElementSection Mod)
    None (getDataSection Mod) (getCtor Mod).

(** *** Running a program *)

(** A handler answers a call on a machine state [St], or has no answer
    ([None]: the collaborator's behaviour is undefined or not modelled). *)
Definition Handler (St : Type) : Type :=
  forall X, Call X -> St -> option (X * St).

(** A call together with the answer it got. *)
Inductive Event : Type :=
| Ev {X : Type} (c : Call X) (x : X).

(** The outcome of a run: the calls made, in order, with their answers;
    the value returned, if the run came to a return; the final state. *)
Record Run (St A : Type) : Type := mkRun {
  trace : list Event;
  result : option A;
  final : St
}.
Arguments mkRun {St A} trace result final.
Arguments trace {St A} r.
Arguments result {St A} r.
Arguments final {St A} r.

Definition after {St A} (ev : Event) (r : Run St A) : Run St A :=
  mkRun (ev :: trace r) (result r) (final r).

Fixpoint run {St A} (h : Handler St) (p : Prog A) (s : St) : Run St A :=
  match p with
  | Ret a => mkRun [] (Some a) s
  | Undef => mkRun [] None s
  | Vis c k =>
      match h _ c s with
      | Some (x, s') => after (Ev c x) (run h (k x) s')
      | None => mkRun [] None s
      end
  end.

(** *** What a run may look like: the script of calls *)

(** The kinds of call, without their arguments. *)
Inductive CallTag : Type :=
| tStoreMgr_reset | tStoreMgr_findModule | tStoreMgr_pushModule
| tStoreMgr_importModule | tStoreMgr_getModule | tStoreMgr_getFunction
| tStackMgr_reset | tStackMgr_pushFrame | tStackMgr_popFrame
| tInstrPdr_reset
| tModInst_addFuncType | tModInst_Addr | tModInst_setStartIdx
| tModInst_getStartAddr
| tinstantiate_ImportSec | tinstantiate_FuncSec | tinstantiate_GlobalSec
| tinstantiate_TableSec | tinstantiate_MemorySec | tinstantiate_ElemSec
| tinstantiate_DataSec | tinstantiate_ExportSec
| tresolveExpression_ElemSec | tresolveExpression_DataSec
| tCtorFunc | trunFunction.

#[global] Instance CallTag_eq_dec : EqDecision CallTag.
Proof. solve_decision. Defined.

Definition tag {X} (c : Call X) : CallTag :=
  match c with
  | StoreMgr_reset => tStoreMgr_reset
  | StoreMgr_findModule _ => tStoreMgr_findModule
  | StoreMgr_pushModule _ => tStoreMgr_pushModule
  | StoreMgr_importModule _ => tStoreMgr_importModule
  | StoreMgr_getModule _ => tStoreMgr_getModule
  | StoreMgr_getFunction _ => tStoreMgr_getFunction
  | StackMgr_reset => tStackMgr_reset
  | StackMgr_pushFrame _ _ _ => tStackMgr_pushFrame
  | StackMgr_popFrame => tStackMgr_popFrame
  | InstrPdr_reset => tInstrPdr_reset
  | ModInst_addFuncType _ _ _ => tModInst_addFuncType
  | ModInst_Addr _ => tModInst_Addr
  | ModInst_setStartIdx _ _ => tModInst_setStartIdx
  | ModInst_getStartAddr _ => tModInst_getStartAddr
  | instantiate_ImportSec _ _ => tinstantiate_ImportSec
  | instantiate_FuncSec _ _ _ => tinstantiate_FuncSec
  | instantiate_GlobalSec _ _ => tinstantiate_GlobalSec
  | instantiate_TableSec _ _ => tinstantiate_TableSec
  | instantiate_MemorySec _ _ => tinstantiate_MemorySec
  | instantiate_ElemSec _ _ _ => tinstantiate_ElemSec
  | instantiate_DataSec _ _ _ => tinstantiate_DataSec
  | instantiate_ExportSec _ _ => tinstantiate_ExportSec
  | resolveExpression_ElemSec _ _ => tresolveExpression_ElemSec
  | resolveExpression_DataSec _ _ => tresolveExpression_DataSec
  | CtorFunc _ => tCtorFunc
  | runFunction _ _ => trunFunction
  end.

(** The error an answer carries, if it is a failed [Expect]. *)
Definition error {X} (c : Call X) : X -> option ErrCode :=
  match c in Call X return X -> option ErrCode with
  | StoreMgr_getModule _ | StoreMgr_getFunction _ | ModInst_getStartAddr _
  | instantiate_ImportSec _ _ | instantiate_FuncSec _ _ _
  | instantiate_GlobalSec _ _ | instantiate_TableSec _ _
  | instantiate_MemorySec _ _ | instantiate_ElemSec _ _ _
  | instantiate_DataSec _ _ _ | instantiate_ExportSec _ _
  | resolveExpression_ElemSec _ _ | resolveExpression_DataSec _ _
  | runFunction _ _ =>
      fun Res => match Res with Value _ => None | Unexpect e => Some e end
  | _ => fun _ => None
  end.

(** Whether [instantiate] goes on after the answer: a failed [Expect]
    stops it, and so does a module found by [findModule]. *)
Definition proceeds {X} (c : Call X) : X -> bool :=
  match c in Call X return X -> bool with
  | StoreMgr_findModule _ => fun Res => if Res is Some _ then false else true
  | StoreMgr_getModule _ | StoreMgr_getFunction _ | ModInst_getStartAddr _
  | instantiate_ImportSec _ _ | instantiate_FuncSec _ _ _
  | instantiate_GlobalSec _ _ | instantiate_TableSec _ _
  | instantiate_MemorySec _ _ | instantiate_ElemSec _ _ _
  | instantiate_DataSec _ _ _ | instantiate_ExportSec _ _
  | resolveExpression_ElemSec _ _ | resolveExpression_DataSec _ _
  | runFunction _ _ => has_value
  | _ => fun _ => true
  end.

(** What [instantiate] returns when it does not go on after an answer:
    the error of a checked call, [ModuleNameConflict] for a module that
    was found; nothing ([None]) for the three answers the source
    dereferences without a check. *)
Definition returned {X} (c : Call X) : X -> option ErrCode :=
  match c in Call X return X -> option ErrCode with
  | StoreMgr_findModule _ =>
      fun Res => if Res is Some _ then Some ModuleNameConflict else None
  | StoreMgr_getModule _ | StoreMgr_getFunction _ | ModInst_getStartAddr _ =>
      fun _ => None
  | c' => error c'
  end.

Definition ev_tag (ev : Event) : CallTag := let 'Ev c _ := ev in tag c.
Definition ev_error (ev : Event) : option ErrCode :=
  let 'Ev c x := ev in error c x.
Definition ev_proceeds (ev : Event) : bool := let 'Ev c x := ev in proceeds c x.
Definition ev_returned (ev : Event) : option ErrCode :=
  let 'Ev c x := ev in returned c x.

(** A resolved offset list: a call of [resolveExpression] that was
    answered with the offsets. *)
Definition resolved (ev : Event) : Prop :=
  ev_tag ev ∈ [tresolveExpression_ElemSec; tresolveExpression_DataSec] /\
  ev_proceeds ev = true.

(** The call that places the fresh instance in the Store. *)
Definition placement (InsMode : InstantiateMode) (Name : string) : Call Z :=
  match InsMode with
  | Instantiate => StoreMgr_pushModule (ModuleInstance_new Name)
  | ImportWasm => StoreMgr_importModule (ModuleInstance_new Name)
  end.

(** The three calls that lead to the start function: the start index
    [Idx] is set in the instance behind [ModInst], resolved through it
    to the Store address [StartAddr], and the function at that address
    is fetched. *)
Definition start_lookup (ModInst : ModuleInstancePtr) (Idx StartAddr : Z)
    (FuncInst : FunctionInstancePtr) : list Event :=
  [Ev (ModInst_setStartIdx ModInst Idx) tt;
   Ev (ModInst_getStartAddr ModInst) (Value StartAddr);
   Ev (StoreMgr_getFunction StartAddr) (Value FuncInst)].

(** [start_preceded ModInst Idx tr]: every call of [runFunction] in [tr]
    runs, on an empty argument vector, the function that the three calls
    just before it looked up. *)
Definition start_preceded (ModInst : ModuleInstancePtr) (Idx : Z)
    (tr : list Event) : Prop :=
  forall pre ev post,
    tr = pre ++ ev :: post -> ev_tag ev = trunFunction ->
    exists pre' StartAddr FuncInst x,
      pre = pre' ++ start_lookup ModInst Idx StartAddr FuncInst /\
      ev = Ev (runFunction FuncInst []) x.

(** An event other than a call of [runFunction]. *)
Definition not_run (ev : Event) : Prop := ev_tag ev <> trunFunction.

(** A property of the traces of all runs of a program. *)
Definition always {A} (L : list Event -> Prop) (p : Prog A) : Prop :=
  forall St (h : Handler St) (s : St), L (trace (run h p s)).

(** A handler that answers every call, always so that the program goes
    on: no collaborator fails or misbehaves. *)
Definition answers_all {St} (h : Handler St) : Prop :=
  forall X (c : Call X) (s : St),
    exists x s', h X c s = Some (x, s') /\ proceeds c x = true.

(** A program that returns under every such handler; one that returns
    success. *)
Definition returns {A} (p : Prog A) : Prop :=
  forall St (h : Handler St), answers_all h ->
    forall s, exists a, result (run h p s) = Some a.

Definition succeeds {A} (p : Prog (Expect A)) : Prop :=
  forall St (h : Handler St), answers_all h ->
    forall s, exists v, result (run h p s) = Some (Value v).

(** How a run ends: it returned success, it returned an error, or it did
    not return (a call had no answer, or the behaviour was undefined). *)
Inductive Outcome : Type :=
| Finished
| Failed (e : ErrCode)
| Stuck.

Definition outcome {A} (r : option (Expect A)) : Outcome :=
  match r with
  | Some (Value _) => Finished
  | Some (Unexpect e) => Failed e
  | None => Stuck
  end.

Definition outcome_plain {A} (r : option A) : Outcome :=
  match r with
  | Some _ => Finished
  | None => Stuck
  end.

(** [Follows script tr o]: the trace [tr] makes the calls of [script], in
    order, each answered so that the program goes on, up to the point
    where the run ends: at the end of the script ([Finished]), at the
    first answer that stops the program, or where a call has no answer. *)
Inductive Follows : list CallTag -> list Event -> Outcome -> Prop :=
| Follows_done :
    Follows [] [] Finished
| Follows_step ev script tr o :
    ev_proceeds ev = true ->
    Follows script tr o ->
    Follows (ev_tag ev :: script) (ev :: tr) o
| Follows_fail ev script e :
    ev_proceeds ev = false ->
    ev_returned ev = Some e ->
    Follows (ev_tag ev :: script) [ev] (Failed e)
| Follows_undef ev script :
    ev_proceeds ev = false ->
    ev_returned ev = None ->
    Follows (ev_tag ev :: script) [ev] Stuck
| Follows_stuck script :
    Follows script [] Stuck.

(** The script of [instantiate]: the calls it makes on a module, in
    order.  An absent section contributes no call. *)
Definition when_present {S T} (Sec : option S) (t : T) : list T :=
  if Sec is Some _ then [t] else [].

(** One [addFuncType] per function type, up to the first null pointer
    (where the behaviour is undefined). *)
Fixpoint script_types (FuncTypes : TypeSection) : list CallTag :=
  match FuncTypes with
  | Some _ :: rest => tModInst_addFuncType :: script_types rest
  | _ => []
  end.

(** Entry: the three resets, the name check, the placement of the fresh
    instance and its retrieval. *)
Definition script_entry (InsMode : InstantiateMode) : list CallTag :=
  [tStoreMgr_reset; tStackMgr_reset; tInstrPdr_reset; tStoreMgr_findModule;
   match InsMode with
   | Instantiate => tStoreMgr_pushModule
   | ImportWasm => tStoreMgr_importModule
   end;
   tStoreMgr_getModule].

(** Function types, imports and the allocation of the module's own
    functions, globals, tables and memories. *)
Definition script_allocate (Mod : Module) : list CallTag :=
  (if getTypeSection Mod is Some TypeSec then script_types TypeSec else [])
  ++ when_present (getImportSection Mod) tinstantiate_ImportSec
  ++ (if getFunctionSection Mod is Some _
      then when_present (getCodeSection Mod) tinstantiate_FuncSec else [])
  ++ when_present (getGlobalSection Mod) tinstantiate_GlobalSec
  ++ when_present (getTableSection Mod) tinstantiate_TableSec
  ++ when_present (getMemorySection Mod) tinstantiate_MemorySec.

(** The offsets of the element and data segments, within a frame. *)
Definition script_offsets (Mod : Module) : list CallTag :=
  [tModInst_Addr; tStackMgr_pushFrame]
  ++ when_present (getElementSection Mod) tresolveExpression_ElemSec
  ++ when_present (getDataSection Mod) tresolveExpression_DataSec
  ++ [tStackMgr_popFrame].

(** Segment writes, exports and the constructor of a compiled module. *)
Definition script_initialize (Mod : Module) : list CallTag :=
  when_present (getElementSection Mod) tinstantiate_ElemSec
  ++ when_present (getDataSection Mod) tinstantiate_DataSec
  ++ when_present (getExportSection Mod) tinstantiate_ExportSec
  ++ when_present (getCtor Mod) tCtorFunc.

(** The start function. *)
Definition script_start (Mod : Module) : list CallTag :=
  if getStartSection Mod is Some _
  then [tModInst_setStartIdx; tModInst_getStartAddr;
        tStoreMgr_getFunction; trunFunction]
  else [].

Definition script (InsMode : InstantiateMode) (Mod : Module) : list CallTag :=
  script_entry InsMode ++ script_allocate Mod ++ script_offsets Mod
  ++ script_initialize Mod ++ script_start Mod.

(** A program follows a script when each of its runs does, whatever the
    handler and the state: [runsE] for a program that returns an
    [Expect], [runsP] for one that returns a plain value. *)
Definition runsE {A} (p : Prog (Expect A)) (sc : list CallTag) : Prop :=
  forall St (h : Handler St) (s : St),
    Follows sc (trace (run h p s)) (outcome (result (run h p s))).

Definition runsP {A} (p : Prog A) (sc : list CallTag) : Prop :=
  forall St (h : Handler St) (s : St),
    Follows sc (trace (run h p s)) (outcome_plain (result (run h p s))).

(** *** The steps of the pipeline *)

(** The steps of the design document's pipeline from import resolution
    on, in its order: resolve imports (5), allocate local functions (6),
    globals (7), tables (8), memories (9), resolve the element and the
    data offsets (10), apply element segments (11), apply data segments
    (12), publish exports (13), constructor hook (14), start function
    (15). *)
Inductive Step : Type :=
| ResolveImports | AllocateFunctions | AllocateGlobals | AllocateTables
| AllocateMemories | ResolveElemOffsets | ResolveDataOffsets
| ApplyElemSegments | ApplyDataSegments | PublishExports | CtorHook
| RunStart.

#[global] Instance Step_eq_dec : EqDecision Step.
Proof. solve_decision. Defined.

(** The place of a step in the pipeline. *)
Definition rank (st : Step) : nat :=
  match st with
  | ResolveImports => 0 | AllocateFunctions => 1 | AllocateGlobals => 2
  | AllocateTables => 3 | AllocateMemories => 4 | ResolveElemOffsets => 5
  | ResolveDataOffsets => 6 | ApplyElemSegments => 7
  | ApplyDataSegments => 8 | PublishExports => 9 | CtorHook => 10
  | RunStart => 11
  end.

(** [before a b]: step [a] comes before step [b] in the pipeline. *)
Definition before (a b : Step) : Prop := rank a < rank b.

(** The call that carries out a step. *)
Definition step_of_tag (t : CallTag) : option Step :=
  match t with
  | tinstantiate_ImportSec => Some ResolveImports
  | tinstantiate_FuncSec => Some AllocateFunctions
  | tinstantiate_GlobalSec => Some AllocateGlobals
  | tinstantiate_TableSec => Some AllocateTables
  | tinstantiate_MemorySec => Some AllocateMemories
  | tresolveExpression_ElemSec => Some ResolveElemOffsets
  | tresolveExpression_DataSec => Some ResolveDataOffsets
  | tinstantiate_ElemSec => Some ApplyElemSegments
  | tinstantiate_DataSec => Some ApplyDataSegments
  | tinstantiate_ExportSec => Some PublishExports
  | tCtorFunc => Some CtorHook
  | trunFunction => Some RunStart
  | _ => None
  end.

Definition ev_step (ev : Event) : option Step := step_of_tag (ev_tag ev).

(** The whole pipeline, in order. *)
Definition pipeline : list Step :=
  [ResolveImports; AllocateFunctions; AllocateGlobals; AllocateTables;
   AllocateMemories; ResolveElemOffsets; ResolveDataOffsets;
   ApplyElemSegments; ApplyDataSegments; PublishExports; CtorHook; RunStart].

(** The steps carried out in a trace, in order. *)
Definition steps (tr : list Event) : list Step := omap ev_step tr.

(** The steps the design document's pipeline has for a module: a step is
    planned when its section is present (local functions need both the
    Function and the Code section). *)
Definition planned_steps (Mod : Module) : list Step :=
  when_present (getImportSection Mod) ResolveImports
  ++ (if getFunctionSection Mod is Some _
      then when_present (getCodeSection Mod) AllocateFunctions else [])
  ++ when_present (getGlobalSection Mod) AllocateGlobals
  ++ when_present (getTableSection Mod) AllocateTables
  ++ when_present (getMemorySection Mod) AllocateMemories
  ++ when_present (getElementSection Mod) ResolveElemOffsets
  ++ when_present (getDataSection Mod) ResolveDataOffsets
  ++ when_present (getElementSection Mod) ApplyElemSegments
  ++ when_present (getDataSection Mod) ApplyDataSegments
  ++ when_present (getExportSection Mod) PublishExports
  ++ when_present (getCtor Mod) CtorHook
  ++ when_present (getStartSection Mod) RunStart.

(** *** What the calls are given *)

(** The module instance that a call works on, if it takes one. *)
Definition instance_of {X} (c : Call X) : option ModuleInstancePtr :=
  match c with
  | ModInst_addFuncType M _ _ | ModInst_Addr M | ModInst_setStartIdx M _
  | ModInst_getStartAddr M | instantiate_ImportSec M _
  | instantiate_FuncSec M _ _ | instantiate_GlobalSec M _
  | instantiate_TableSec M _ | instantiate_MemorySec M _
  | instantiate_ElemSec M _ _ | instantiate_DataSec M _ _
  | instantiate_ExportSec M _ | resolveExpression_ElemSec M _
  | resolveExpression_DataSec M _ => Some M
  | _ => None
  end.

Definition ev_instance (ev : Event) : option ModuleInstancePtr :=
  let 'Ev c _ := ev in instance_of c.

(** [instance_retrieved InsMode Name pre ev]: the instance that the call
    of [ev] works on was retrieved, in [pre], from the Store, at the
    address that the placement of the fresh instance answered. *)
Definition instance_retrieved (InsMode : InstantiateMode) (Name : string)
    (pre : list Event) (ev : Event) : Prop :=
  forall M, ev_instance ev = Some M ->
    exists ModInstAddr,
      Ev (placement InsMode Name) ModInstAddr ∈ pre /\
      Ev (StoreMgr_getModule ModInstAddr) (Value M) ∈ pre.

(** The function type that a call of [addFuncType] records. *)
Definition installed_type {X} (c : Call X) : option FunctionType :=
  match c with
  | ModInst_addFuncType _ Params Returns =>
      Some (mkFunctionType Params Returns)
  | _ => None
  end.

(** The function types recorded in a trace, in order. *)
Definition installed (tr : list Event) : list FunctionType :=
  omap (fun ev => let 'Ev c _ := ev in installed_type c) tr.

(** The function types of a module, as the type section holds them. *)
Definition type_entries (Mod : Module) : TypeSection :=
  default [] (getTypeSection Mod).

(** The resolution that a call applying element or data segments relies
    on: the call of [resolveExpression] on the same instance and section
    that was answered with the offsets the call is given. *)
Definition segment_source (ev : Event) : option Event :=
  let 'Ev c _ := ev in
  match c with
  | instantiate_ElemSec M Sec Offsets =>
      Some (Ev (resolveExpression_ElemSec M Sec) (Value Offsets))
  | instantiate_DataSec M Sec Offsets =>
      Some (Ev (resolveExpression_DataSec M Sec) (Value Offsets))
  | _ => None
  end.

Definition offsets_resolved (pre : list Event) (ev : Event) : Prop :=
  forall src, segment_source ev = Some src -> src ∈ pre.

(** [frame_for_instance pre ev]: a frame is pushed for the address just
    read from a module instance, with no locals and no results. *)
Definition frame_for_instance (pre : list Event) (ev : Event) : Prop :=
  ev_tag ev = tStackMgr_pushFrame ->
  exists pre' M ModAddr,
    pre = pre' ++ [Ev (ModInst_Addr M) ModAddr] /\
    ev = Ev (StackMgr_pushFrame ModAddr 0 0) tt.

(** [from_module Mod c]: what the call [c] is given of a module is that
    module's own: a section routine gets the section the module has, the
    constructor called is the module's, the start index set is the
    module's. *)
Definition from_module (Mod : Module) {X} (c : Call X) : Prop :=
  match c with
  | ModInst_addFuncType _ Params Returns =>
      Some (mkFunctionType Params Returns) ∈ type_entries Mod
  | instantiate_ImportSec _ Sec => getImportSection Mod = Some Sec
  | instantiate_FuncSec _ FuncSec CodeSec =>
      getFunctionSection Mod = Some FuncSec /\
      getCodeSection Mod = Some CodeSec
  | instantiate_GlobalSec _ Sec => getGlobalSection Mod = Some Sec
  | instantiate_TableSec _ Sec => getTableSection Mod = Some Sec
  | instantiate_MemorySec _ Sec => getMemorySection Mod = Some Sec
  | instantiate_ElemSec _ Sec _ | resolveExpression_ElemSec _ Sec =>
      getElementSection Mod = Some Sec
  | instantiate_DataSec _ Sec _ | resolveExpression_DataSec _ Sec =>
      getDataSection Mod = Some Sec
  | instantiate_ExportSec _ Sec => getExportSection Mod = Some Sec
  | CtorFunc F => getCtor Mod = Some F
  | ModInst_setStartIdx _ Idx => getStartSection Mod = Some Idx
  | _ => True
  end.

Definition ev_from_module (Mod : Module) (ev : Event) : Prop :=
  let 'Ev c _ := ev in from_module Mod c.

(** What a call of a run relies on, of the calls before it: resolved
    offsets, the retrieved instance, the address read for the frame. *)
Definition call_justified (InsMode : InstantiateMode) (Name : string)
    (pre : list Event) (ev : Event) : Prop :=
  offsets_resolved pre ev /\
  instance_retrieved InsMode Name pre ev /\
  frame_for_instance pre ev.

(** *** Judgements on the calls of a program *)

(** [each_call P p]: whatever the answers, every call that [p] makes,
    with its answer, satisfies [P]. *)
Fixpoint each_call {A} (P : Event -> Prop) (p : Prog A) : Prop :=
  match p with
  | Vis c k => forall x, P (Ev c x) /\ each_call P (k x)
  | _ => True
  end.

(** [justified R tr]: each event of [tr] stands in [R] to the events
    before it. *)
Definition justified (R : list Event -> Event -> Prop) (tr : list Event)
  : Prop :=
  forall pre ev post, tr = pre ++ ev :: post -> R pre ev.

(** [safe T Inv p]: from a history that satisfies [Inv], every run of [p]
    extends the history to one that satisfies [T]. *)
Definition safe {A} (T Inv : list Event -> Prop) (p : Prog A) : Prop :=
  forall St (h : Handler St) (s : St) hist,
    Inv hist -> T (hist ++ trace (run h p s)).

(** *** Runs in which nothing fails before the start function *)

(** A handler that answers every call, and every call but that of the
    start function so that the program goes on. *)
Definition answers_until_start {St} (h : Handler St) : Prop :=
  forall X (c : Call X) (s : St),
    exists x s', h X c s = Some (x, s') /\
                 (tag c <> trunFunction -> proceeds c x = true).

(** [ends Q p]: under such a handler [p] returns, and the calls it has
    made and the value it returns satisfy [Q]. *)
Definition ends {A} (Q : list Event -> A -> Prop) (p : Prog A) : Prop :=
  forall St (h : Handler St), answers_until_start h ->
    forall s, exists a,
      result (run h p s) = Some a /\ Q (trace (run h p s)) a.

(** How [instantiate] ends then: with a Start section its last call runs
    the start function, on an empty argument vector, and it returns the
    answer of that call; without one it returns success. *)
Definition start_run (Mod : Module) (tr : list Event) (v : Expect unit)
  : Prop :=
  match getStartSection Mod with
  | Some _ => exists tr0 FuncInst, tr = tr0 ++ [Ev (runFunction FuncInst []) v]
  | None => v = Value tt
  end.

(** The calls of the script that are made at most once: all but
    [addFuncType]. *)
Definition single_calls : list CallTag :=
  [tStoreMgr_reset; tStackMgr_reset; tInstrPdr_reset; tStoreMgr_findModule;
   tStoreMgr_pushModule; tStoreMgr_importModule; tStoreMgr_getModule;
   tinstantiate_ImportSec; tinstantiate_FuncSec; tinstantiate_GlobalSec;
   tinstantiate_TableSec; tinstantiate_MemorySec;
   tModInst_Addr; tStackMgr_pushFrame; tresolveExpression_ElemSec;
   tresolveExpression_DataSec; tStackMgr_popFrame;
   tinstantiate_ElemSec; tinstantiate_DataSec; tinstantiate_ExportSec;
   tCtorFunc;
   tModInst_setStartIdx; tModInst_getStartAddr; tStoreMgr_getFunction;
   trunFunction].

End Interpreter.

(* ===================================================================== *)
(** ** The Store and the Stack of the design document *)
(* ===================================================================== *)

Module Machine.
Import AST Runtime Interpreter.

(** Modelled from the spec: the entities of the four arenas (the
    instance classes are not among the sources).  A function is bound to
    a type index, its module's address and a body; a table has the
    capacity of its limit's minimum and holes as contents; a memory has
    as many pages as its limit's minimum; a global has a type and a
    value. *)
Record FunctionInstance : Type := mkFunctionInstance {
  FuncTypeIdx : Z;
  FuncModAddr : Z;
  FuncBody : CodeSegment
}.
Record TableInstance : Type := mkTableInstance {
  TabType : ElemType;
  TabLimit : Limit;
  TabSlots : list (option Z)
}.
Record MemoryInstance : Type := mkMemoryInstance {
  MemLimit : Limit;
  MemPages : Z;
  MemBytes : gmap Z Z
}.
Record GlobalInstance : Type := mkGlobalInstance {
  GlobType : GlobalType;
  GlobValue : ValVariant
}.

(** Modelled from the spec: the Store ([runtime/storemgr.h] is not among
    the sources): four arenas, a module arena, and the map from a name to
    a module address, which records the bucket (the entry point) that
    published the name.  An address is an index into an arena. *)
Record StoreManager : Type := mkStoreManager {
  ModInsts : list ModuleInstance;
  FuncInsts : list FunctionInstance;
  TabInsts : list TableInstance;
  MemInsts : list MemoryInstance;
  GlobInsts : list GlobalInstance;
  ModMap : gmap string (InstantiateMode * Z)
}.

(** Modelled from the spec: the Stack ([runtime/stackmgr.h] is not among
    the sources): a sequence of entries, values or frames, the top
    first.  A frame records the module address, arity and co-arity. *)
Inductive StackEntry : Type :=
| SValue (v : ValVariant)
| SFrame (ModAddr Arity Coarity : Z).

Definition StackManager : Type := list StackEntry.

(** The state the interpreter works on: the Store it is given, its own
    Stack, and the scratch of its instruction provider (the instruction
    sequences still to be run). *)
Record State : Type := mkState {
  StoreMgr : StoreManager;
  StackMgr : StackManager;
  InstrPdr : list (list Instr)
}.

Definition empty_store : StoreManager :=
  mkStoreManager [] [] [] [] [] ∅.

Definition initial : State := mkState empty_store [] [].

Definition with_store (s : State) (Sto : StoreManager) : State :=
  mkState Sto (StackMgr s) (InstrPdr s).
Definition with_stack (s : State) (K : StackManager) : State :=
  mkState (StoreMgr s) K (InstrPdr s).

(** [l[i]] for an address [i]. *)
Definition at_addr {A} (l : list A) (i : Z) : option A :=
  if (0 <=? i)%Z then l !! Z.to_nat i else None.

(** *** Store operations *)

(** Modelled from the spec: [StoreManager::reset], "purge all arenas".
    The name map only holds addresses of the module arena; it is emptied
    with it. *)
Definition reset (Sto : StoreManager) : StoreManager := empty_store.

(** Modelled from the spec: [StoreManager::findModule], the lookup by
    name. *)
Definition findModule (Sto : StoreManager) (Name : string) : option Z :=
  snd <$> ModMap Sto !! Name.

(** Modelled from the spec: [StoreManager::pushModule] and
    [importModule]: append to the module arena and return the new
    address; the instance learns its own address and the
    entry point's bucket publishes its name. *)
Definition placeModule (bucket : InstantiateMode) (Sto : StoreManager)
    (Inst : ModuleInstance) : Z * StoreManager :=
  let NewAddr := Z.of_nat (length (ModInsts Sto)) in
  let Inst' :=
    mkModuleInstance (Runtime.ModName Inst) NewAddr (FuncTypes Inst)
      (FuncAddrs Inst) (TableAddrs Inst) (MemAddrs Inst) (GlobalAddrs Inst)
      (ExportMap Inst) (StartIdx Inst) in
  (NewAddr,
   mkStoreManager (ModInsts Sto ++ [Inst']) (FuncInsts Sto) (TabInsts Sto)
     (MemInsts Sto) (GlobInsts Sto)
     (<[Runtime.ModName Inst := (bucket, NewAddr)]> (ModMap Sto))).

(** Modelled from the spec: [StoreManager::getModule] and
    [getFunction]: the slot, or [BadAddress] when the index is out of
    range. *)
Definition getModule (Sto : StoreManager) (ModAddr : Z)
  : Expect ModuleInstancePtr :=
  if at_addr (ModInsts Sto) ModAddr is Some _ then Value ModAddr
  else Unexpect BadAddress.
Definition getFunction (Sto : StoreManager) (FuncAddr : Z)
  : Expect FunctionInstancePtr :=
  if at_addr (FuncInsts Sto) FuncAddr is Some _ then Value FuncAddr
  else Unexpect BadAddress.

(** Modelled from the spec: a write to the module instance behind a
    pointer, which is a write to its slot in the module arena. *)
Definition update_module (Sto : StoreManager) (ModInst : ModuleInstancePtr)
    (f : ModuleInstance -> ModuleInstance) : option StoreManager :=
  if at_addr (ModInsts Sto) ModInst is Some _ then
    Some (mkStoreManager (alter f (Z.to_nat ModInst) (ModInsts Sto))
            (FuncInsts Sto) (TabInsts Sto) (MemInsts Sto) (GlobInsts Sto)
            (ModMap Sto))
  else None.

Definition addFuncType (Params Returns : list ValType) (M : ModuleInstance)
  : ModuleInstance :=
  mkModuleInstance (Runtime.ModName M) (Addr M)
    (FuncTypes M ++ [(Params, Returns)])
    (FuncAddrs M) (TableAddrs M) (MemAddrs M) (GlobalAddrs M) (ExportMap M)
    (StartIdx M).

Definition setStartIdx (Idx : Z) (M : ModuleInstance) : ModuleInstance :=
  mkModuleInstance (Runtime.ModName M) (Addr M) (FuncTypes M) (FuncAddrs M)
    (TableAddrs M) (MemAddrs M) (GlobalAddrs M) (ExportMap M) (Some Idx).

(** Modelled from the spec: [ModuleInstance::getStartAddr], the start
    index resolved to a Store address through the instance's function
    address space. *)
Definition getStartAddr (M : ModuleInstance) : Expect Z :=
  match StartIdx M with
  | Some Idx =>
      if at_addr (FuncAddrs M) Idx is Some a then Value a
      else Unexpect BadAddress
  | None => Unexpect BadAddress
  end.

Definition addTableAddr (a : Z) (M : ModuleInstance) : ModuleInstance :=
  mkModuleInstance (Runtime.ModName M) (Addr M) (FuncTypes M) (FuncAddrs M)
    (TableAddrs M ++ [a]) (MemAddrs M) (GlobalAddrs M) (ExportMap M)
    (StartIdx M).

Definition addMemAddr (a : Z) (M : ModuleInstance) : ModuleInstance :=
  mkModuleInstance (Runtime.ModName M) (Addr M) (FuncTypes M) (FuncAddrs M)
    (TableAddrs M) (MemAddrs M ++ [a]) (GlobalAddrs M) (ExportMap M)
    (StartIdx M).

(** Modelled from the spec: [allocate_table(type)], a table with
    capacity [min], all holes. *)
Definition allocateTable (Sto : StoreManager) (T : TableType)
  : option (Z * StoreManager) :=
  L ← TableType_getLimit T;
  let NewAddr := Z.of_nat (length (TabInsts Sto)) in
  Some (NewAddr,
        mkStoreManager (ModInsts Sto) (FuncInsts Sto)
          (TabInsts Sto ++ [mkTableInstance (getElementType T) L
                            (replicate (Z.to_nat (getMin L)) None)])
          (MemInsts Sto) (GlobInsts Sto) (ModMap Sto)).

(** Modelled from the spec: [allocate_memory(type)], a memory of [min]
    pages. *)
Definition allocateMemory (Sto : StoreManager) (T : MemoryType)
  : option (Z * StoreManager) :=
  L ← MemoryType_getLimit T;
  let NewAddr := Z.of_nat (length (MemInsts Sto)) in
  Some (NewAddr,
        mkStoreManager (ModInsts Sto) (FuncInsts Sto) (TabInsts Sto)
          (MemInsts Sto ++ [mkMemoryInstance L (getMin L) ∅])
          (GlobInsts Sto) (ModMap Sto)).

(** Modelled from the spec: steps 8 and 9 of the pipeline (the overloads
    of [instantiate] for the Table and Memory sections): allocate each
    table (memory) of the section and append its address to the
    instance's address space. *)
Fixpoint instantiateTables (Sto : StoreManager) (ModInst : ModuleInstancePtr)
    (TabSec : TableSection) : option StoreManager :=
  match TabSec with
  | [] => Some Sto
  | T :: rest =>
      '(a, Sto1) ← allocateTable Sto T;
      Sto2 ← update_module Sto1 ModInst (addTableAddr a);
      instantiateTables Sto2 ModInst rest
  end.

Fixpoint instantiateMemories (Sto : StoreManager) (ModInst : ModuleInstancePtr)
    (MemSec : MemorySection) : option StoreManager :=
  match MemSec with
  | [] => Some Sto
  | T :: rest =>
      '(a, Sto1) ← allocateMemory Sto T;
      Sto2 ← update_module Sto1 ModInst (addMemAddr a);
      instantiateMemories Sto2 ModInst rest
  end.

(** *** Stack operations *)

Definition pushFrame (K : StackManager) (ModAddr Arity Coarity : Z)
  : StackManager :=
  SFrame ModAddr Arity Coarity :: K.

(** Modelled from the spec: [StackManager::pushFrame] above, and
    [popFrame]: truncate the values above the topmost frame, then
    discard the frame.  Without a frame there is nothing to pop; what
    arity and co-arity other than 0 keep is not modelled. *)
Fixpoint popFrame (K : StackManager) : option StackManager :=
  match K with
  | [] => None
  | SValue _ :: K' => popFrame K'
  | SFrame _ 0 0 :: K' => Some K'
  | SFrame _ _ _ :: _ => None
  end.

(** *** The constant expression evaluator *)

(** Modelled from the spec: the constant expression evaluator.  The
    value of an initializer: one of the four constants.  Any other
    opcode fails with [InvalidInitializer].  The Store is not changed and
    the Stack is left as it was found.  [global.get] (which reads an
    imported global) and expressions of another length are not
    modelled. *)
Definition evalInitializer (E : Expression) : option (Expect ValVariant) :=
  match E with
  | [i32_const v] => Some (Value (val_i32 (u32 v)))
  | [i64_const v] => Some (Value (val_i64 (v mod 2 ^ 64)))
  | [f32_const b] => Some (Value (val_f32 b))
  | [f64_const b] => Some (Value (val_f64 b))
  | [other_op _] => Some (Unexpect InvalidInitializer)
  | _ => None
  end.

(** Modelled from the spec: an offset initializer must produce a single
    [i32]. *)
Definition evalOffset (E : Expression) : option (Expect Z) :=
  r ← evalInitializer E;
  Some match r with
       | Value (val_i32 v) => Value v
       | Value _ => Unexpect InvalidInitializer
       | Unexpect e => Unexpect e
       end.

(** Modelled from the spec: [resolveExpression], the offsets of a
    sequence of segments, in order; the first failure is the failure of
    the whole. *)
Fixpoint evalOffsets (Es : list Expression) : option (Expect (list Z)) :=
  match Es with
  | [] => Some (Value [])
  | E :: rest =>
      r ← evalOffset E;
      match r with
      | Value v =>
          rs ← evalOffsets rest;
          Some match rs with
               | Value vs => Value (v :: vs)
               | Unexpect e => Unexpect e
               end
      | Unexpect e => Some (Unexpect e)
      end
  end.

(** *** The handler *)

(** Modelled from the spec: the meaning of the calls on a [State].  The
    calls on the Store, the Stack, the instruction provider and the
    module instance follow the design document, and so do table and
    memory allocation and the offsets of constant initializers.  The
    calls left without an answer are those whose collaborator is not
    modelled: import matching, function and global allocation, the
    segment writes, export publication, compiled constructors and the
    main interpreter. *)
Definition handle : Handler State :=
  fun X c =>
    match c in Call X return State -> option (X * State) with
    | StoreMgr_reset => fun s =>
        Some (tt, with_store s (reset (StoreMgr s)))
    | StoreMgr_findModule Name => fun s =>
        Some (findModule (StoreMgr s) Name, s)
    | StoreMgr_pushModule Inst => fun s =>
        let '(a, Sto) := placeModule Instantiate (StoreMgr s) Inst in
        Some (a, with_store s Sto)
    | StoreMgr_importModule Inst => fun s =>
        let '(a, Sto) := placeModule ImportWasm (StoreMgr s) Inst in
        Some (a, with_store s Sto)
    | StoreMgr_getModule ModAddr => fun s =>
        Some (getModule (StoreMgr s) ModAddr, s)
    | StoreMgr_getFunction FuncAddr => fun s =>
        Some (getFunction (StoreMgr s) FuncAddr, s)
    | StackMgr_reset => fun s => Some (tt, with_stack s [])
    | StackMgr_pushFrame ModAddr Arity Coarity => fun s =>
        Some (tt, with_stack s (pushFrame (StackMgr s) ModAddr Arity Coarity))
    | StackMgr_popFrame => fun s =>
        K ← popFrame (StackMgr s);
        Some (tt, with_stack s K)
    | InstrPdr_reset => fun s =>
        Some (tt, mkState (StoreMgr s) (StackMgr s) [])
    | ModInst_addFuncType ModInst Params Returns => fun s =>
        Sto ← update_module (StoreMgr s) ModInst (addFuncType Params Returns);
        Some (tt, with_store s Sto)
    | ModInst_Addr ModInst => fun s =>
        M ← at_addr (ModInsts (StoreMgr s)) ModInst;
        Some (Addr M, s)
    | ModInst_setStartIdx ModInst Idx => fun s =>
        Sto ← update_module (StoreMgr s) ModInst (setStartIdx Idx);
        Some (tt, with_store s Sto)
    | ModInst_getStartAddr ModInst => fun s =>
        M ← at_addr (ModInsts (StoreMgr s)) ModInst;
        Some (getStartAddr M, s)
    | instantiate_TableSec ModInst TabSec => fun s =>
        Sto ← instantiateTables (StoreMgr s) ModInst TabSec;
        Some (Value tt, with_store s Sto)
    | instantiate_MemorySec ModInst MemSec => fun s =>
        Sto ← instantiateMemories (StoreMgr s) ModInst MemSec;
        Some (Value tt, with_store s Sto)
    | resolveExpression_ElemSec ModInst ElemSec => fun s =>
        r ← evalOffsets (ElemOffset <$> ElemSec);
        Some (r, s)
    | resolveExpression_DataSec ModInst DataSec => fun s =>
        r ← evalOffsets (DataOffset <$> DataSec);
        Some (r, s)
    | instantiate_ImportSec _ _ | instantiate_FuncSec _ _ _
    | instantiate_GlobalSec _ _ | instantiate_ElemSec _ _ _
    | instantiate_DataSec _ _ _ | instantiate_ExportSec _ _
    | CtorFunc _ | runFunction _ _ => fun _ => None
    end.

(** *** Sample modules *)

(** A module with no section at all. *)
Definition empty_module : Module :=
  mkModule None None None None None None None None None None None None.

(** A module with one table of capacity 1 and one element segment whose
    offset initializer is the opcode [unreachable] (0x00), not a
    constant. *)
Definition bad_offset_module : Module :=
  mkModule None None None
    (Some [mkTableType FuncRef (Some (Limit_2 1 1))])
    None None None None
    (Some [mkElementSegment 0 [other_op 0] []])
    None None None.


End Machine.

(* ===================================================================== *)
(** ** Scripted collaborators *)
(* ===================================================================== *)

Module Scripted.
Import AST Runtime Interpreter.

(** A handler without a state, for exhibiting runs: every call is
    answered at once; a call whose tag [fail] maps to an error answers
    with that error when its answer is an [Expect], and [findModule]
    then finds a module. *)
Definition answer (fail : CallTag -> option ErrCode) {T} (t : CallTag)
    (v : T) : Expect T :=
  match fail t with
  | Some e => Unexpect e
  | None => Value v
  end.

Definition handle (fail : CallTag -> option ErrCode) : Handler unit :=
  fun X c =>
    match c in Call X return unit -> option (X * unit) with
    | StoreMgr_reset | StackMgr_reset | InstrPdr_reset | StackMgr_popFrame
    | StackMgr_pushFrame _ _ _ | ModInst_addFuncType _ _ _
    | ModInst_setStartIdx _ _ | CtorFunc _ => fun s => Some (tt, s)
    | StoreMgr_findModule _ => fun s =>
        Some (if fail tStoreMgr_findModule is Some _ then Some 0%Z
              else None, s)
    | StoreMgr_pushModule _ | StoreMgr_importModule _ | ModInst_Addr _ =>
        fun s => Some (0%Z, s)
    | StoreMgr_getModule a => fun s =>
        Some (answer fail tStoreMgr_getModule a, s)
    | StoreMgr_getFunction a => fun s =>
        Some (answer fail tStoreMgr_getFunction a, s)
    | ModInst_getStartAddr _ => fun s =>
        Some (answer fail tModInst_getStartAddr 7%Z, s)
    | resolveExpression_ElemSec _ Sec => fun s =>
        Some (answer fail tresolveExpression_ElemSec
                ((fun _ => 0%Z) <$> Sec), s)
    | resolveExpression_DataSec _ Sec => fun s =>
        Some (answer fail tresolveExpression_DataSec
                ((fun _ => 0%Z) <$> Sec), s)
    | c' => fun s => Some (answer fail (tag c') tt, s)
    end.

Definition all_succeed : CallTag -> option ErrCode := fun _ => None.

Definition fail_at (t : CallTag) (e : ErrCode) : CallTag -> option ErrCode :=
  fun t' => if decide (t' = t) then Some e else None.

(** A module with an import, a global, an export and a start section. *)
Definition sample_imports : ImportSection :=
  [mkImportDesc ExtGlobal "env" "g"
     (Content_GlobalType (Some (mkGlobalType I32 Const)))].
Definition sample_globals : GlobalSection :=
  [mkGlobalSegment (mkGlobalType I32 Const) [global_get 0]].
Definition sample_exports : ExportSection :=
  [mkExportDesc ExtGlobal "g1" 1 None].

Definition sample_module : Module :=
  mkModule None (Some sample_imports) None None None (Some sample_globals)
    (Some sample_exports) (Some 3%Z) None None None None.

(** A module with a Function section and no Code section. *)
Definition no_code_module : Module :=
  mkModule None None (Some [0%Z]) None None None None None None None None None.

(** A module with two function types, a table, a memory, an element and
    a data segment, and a constructor. *)
Definition segment_types : TypeSection :=
  [Some (mkFunctionType [I32] [I64]); Some (mkFunctionType [] [])].
Definition segment_elements : ElementSection :=
  [mkElementSegment 0 [i32_const 1] [0%Z]].
Definition segment_data : DataSection :=
  [mkDataSegment 0 [i32_const 2] [7%Z; 8%Z]].

Definition segment_module : Module :=
  mkModule (Some segment_types) None None
    (Some [mkTableType FuncRef (Some (Limit_2 1 1))])
    (Some [mkMemoryType (Some (Limit_2 1 1)) None]) None None None
    (Some segment_elements) None (Some segment_data) (Some 5%Z).

End Scripted.

(* ===================================================================== *)
(** * Properties *)
(* ===================================================================== *)

(** ** Machine integers *)

Lemma u32_range x : is_u32 (u32 x).
Proof. unfold is_u32, u32, u32_max. apply Z.mod_pos_bound. lia. Qed.

Lemma u32_id x : is_u32 x -> u32 x = x.
Proof. unfold is_u32, u32. intros H. apply Z.mod_small. exact H. Qed.

(** ** Limit *)

Module LimitFacts.
Import AST.

Lemma hasMax_Limit_1 junk a : hasMax (Limit_1 junk a) = false.
Proof. reflexivity. Qed.

Lemma hasMax_Limit_2 a b : hasMax (Limit_2 a b) = true.
Proof. reflexivity. Qed.

Lemma getMin_Limit_2 a b : is_u32 a -> getMin (Limit_2 a b) = a.
Proof. intros Ha. unfold getMin, Limit_2. simpl. apply u32_id, Ha. Qed.

Lemma getMax_Limit_2 a b : is_u32 b -> getMax (Limit_2 a b) = b.
Proof. intros Hb. unfold getMax, Limit_2. simpl. apply u32_id, Hb. Qed.

(** C7, as stated, fails: [Limit(5, 3)] has a max, and its min exceeds
    it.  The two-argument constructor stores its arguments unchecked. *)
Lemma Limit_min_above_max :
  hasMax (Limit_2 5 3) = true /\
  ~ (getMin (Limit_2 5 3) <= getMax (Limit_2 5 3))%Z.
Proof. split; [reflexivity | vm_compute; intros H; apply H; reflexivity]. Qed.

(** C7, amended: a [Limit] built with [Limit(min)] has no max; one built
    with [Limit(min, max)] has a max and keeps both arguments as given,
    so that [getMin() <= getMax()] holds exactly when the arguments were
    in that order. *)
Theorem Limit_ordered_iff_arguments (junk a b : Z) :
  is_u32 a -> is_u32 b ->
  hasMax (Limit_1 junk a) = false /\
  hasMax (Limit_2 a b) = true /\
  ((getMin (Limit_2 a b) <= getMax (Limit_2 a b))%Z <-> (a <= b)%Z).
Proof.
  intros Ha Hb. split; [reflexivity|]. split; [reflexivity|].
  rewrite getMin_Limit_2, getMax_Limit_2 by assumption. reflexivity.
Qed.

Lemma Limit_ordered_iff_arguments_witness :
  hasMax (Limit_1 9 1) = false /\
  hasMax (Limit_2 1 4) = true /\
  ((getMin (Limit_2 1 4) <= getMax (Limit_2 1 4))%Z <-> (1 <= 4)%Z).
Proof.
  apply (Limit_ordered_iff_arguments 9 1 4); unfold is_u32, u32_max; lia.
Defined.

(** C10: what the constructors store is what the getters give back, and
    [getMax] answers (with the unset content of the field) on a [Limit]
    that has no max. *)
Theorem Limit_roundtrip (junk a b : Z) :
  is_u32 a -> is_u32 b ->
  hasMax (Limit_1 junk a) = false /\
  getMin (Limit_1 junk a) = a /\
  hasMax (Limit_2 a b) = true /\
  getMin (Limit_2 a b) = a /\
  getMax (Limit_2 a b) = b /\
  getMax (Limit_1 junk a) = u32 junk /\
  is_u32 (getMax (Limit_1 junk a)).
Proof.
  intros Ha Hb. repeat split; try reflexivity.
  - simpl. apply u32_id, Ha.
  - apply getMin_Limit_2, Ha.
  - apply getMax_Limit_2, Hb.
  - apply (u32_range junk).
  - apply (u32_range junk).
Qed.

Lemma Limit_roundtrip_witness :
  hasMax (Limit_1 77 2) = false /\
  getMin (Limit_1 77 2) = 2%Z /\
  hasMax (Limit_2 2 10) = true /\
  getMin (Limit_2 2 10) = 2%Z /\
  getMax (Limit_2 2 10) = 10%Z /\
  getMax (Limit_1 77 2) = u32 77 /\
  is_u32 (getMax (Limit_1 77 2)).
Proof.
  apply (Limit_roundtrip 77 2 10); unfold is_u32, u32_max; lia.
Defined.

End LimitFacts.

(** ** ImportDesc *)

Module ImportDescFacts.
Import AST.

Lemma alternative_hold T p : alternative (hold T p) = T.
Proof. destruct T; reflexivity. Qed.

Lemma get_if_other T V : alternative V <> T -> get_if T V = None.
Proof. destruct T, V; simpl; congruence. Qed.

(** C8: [getExternalContent<T>] gives the held pointer when the variant
    holds the alternative [unique_ptr<T>], and fails with
    [IncompatibleImportType] when it holds another one. *)
Theorem getExternalContent_alternative (T : ContentT) (D : ImportDesc) :
  (alternative (ExtContent D) = T /\
   exists p, ExtContent D = hold T p /\
             getExternalContent T D = Value (get p)) \/
  (alternative (ExtContent D) <> T /\
   getExternalContent T D = Unexpect IncompatibleImportType).
Proof.
  unfold getExternalContent.
  destruct (decide (alternative (ExtContent D) = T)) as [E|N].
  - left. split; [exact E|]. destruct D as [ty mn en V]; simpl in *.
    destruct V as [p|p|p|p], T; simpl in *; try discriminate E;
      exists p; split; reflexivity.
  - right. split; [exact N|]. rewrite get_if_other by exact N. reflexivity.
Qed.

End ImportDescFacts.

(** ** Running programs *)

Module RunFacts.
Import AST Runtime Interpreter.
Local Open Scope prog_scope.

Section Run.
Context {St : Type} (h : Handler St).

Lemma run_bind {A B} (p : Prog A) (f : A -> Prog B) (s : St) :
  run h (bind p f) s =
  match result (run h p s) with
  | Some a =>
      let r := run h (f a) (final (run h p s)) in
      mkRun (trace (run h p s) ++ trace r) (result r) (final r)
  | None => mkRun (trace (run h p s)) None (final (run h p s))
  end.
Proof.
  revert s. induction p as [a| |X c k IH]; intros s; simpl.
  - destruct (run h (f a) s); reflexivity.
  - reflexivity.
  - destruct (h X c s) as [[x s']|]; simpl; [|reflexivity].
    rewrite IH. destruct (result (run h (k x) s')); reflexivity.
Qed.

Lemma run_call {X} (c : Call X) (s : St) :
  run h (call c) s =
  match h X c s with
  | Some (x, s') => mkRun [Ev c x] (Some x) s'
  | None => mkRun [] None s
  end.
Proof. simpl. destruct (h X c s) as [[x s']|]; reflexivity. Qed.

Lemma run_call_bind {X B} (c : Call X) (f : X -> Prog B) (s : St) :
  run h (bind (call c) f) s =
  match h X c s with
  | Some (x, s') => after (Ev c x) (run h (f x) s')
  | None => mkRun [] None s
  end.
Proof. reflexivity. Qed.

(** The state a run ends in is the state its last call left: after the
    last call a program only returns. *)
Lemma run_last_event {A} (p : Prog A) (s : St) tr ev :
  trace (run h p s) = tr ++ [ev] ->
  exists s0, match ev with
             | Ev c x => h _ c s0 = Some (x, final (run h p s))
             end.
Proof.
  revert s tr. induction p as [a| |X c k IH]; intros s tr; simpl.
  - intros E. destruct tr; discriminate E.
  - intros E. destruct tr; discriminate E.
  - destruct (h X c s) as [[x s']|] eqn:Hc; simpl.
    + destruct tr as [|ev' tr]; simpl; intros E.
      * injection E as E1 E2. subst ev.
        exists s. rewrite Hc. do 2 f_equal.
        destruct (k x) as [a| |Y c' k']; simpl in *; try reflexivity.
        destruct (h Y c' s') as [[y s'']|]; [discriminate E2 | reflexivity].
      * injection E as E1 E2. apply (IH x s' tr E2).
    + intros E. destruct tr; discriminate E.
Qed.

End Run.

End RunFacts.

(** ** Following a script *)

Module ScriptFacts.
Import AST Runtime Interpreter RunFacts.
Local Open Scope prog_scope.

Lemma Follows_app s1 s2 tr1 tr2 o :
  Follows s1 tr1 Finished -> Follows s2 tr2 o ->
  Follows (s1 ++ s2) (tr1 ++ tr2) o.
Proof.
  intros H1 H2. remember Finished as o1 eqn:Eo.
  induction H1; try discriminate Eo; simpl.
  - exact H2.
  - apply Follows_step; auto.
Qed.

Lemma Follows_app_l s1 s2 tr o :
  Follows s1 tr o -> o <> Finished -> Follows (s1 ++ s2) tr o.
Proof.
  intros H1 Ho. induction H1; simpl.
  - congruence.
  - apply Follows_step; auto.
  - apply Follows_fail; auto.
  - apply Follows_undef; auto.
  - apply Follows_stuck.
Qed.

(** *** Inversion *)

Lemma Follows_nil_inv tr o :
  Follows [] tr o -> tr = [] /\ (o = Finished \/ o = Stuck).
Proof. inversion 1; subst; auto. Qed.

Lemma Follows_cons_inv t sc tr o :
  Follows (t :: sc) tr o ->
  (tr = [] /\ o = Stuck) \/
  exists ev tr', tr = ev :: tr' /\ ev_tag ev = t /\
    ((ev_proceeds ev = true /\ Follows sc tr' o) \/
     (ev_proceeds ev = false /\ tr' = [] /\
      ((exists e, ev_returned ev = Some e /\ o = Failed e) \/
       (ev_returned ev = None /\ o = Stuck)))).
Proof.
  inversion 1; subst.
  - right. eauto 10.
  - right. exists ev, []. eauto 10.
  - right. exists ev, []. eauto 10.
  - left. auto.
Qed.

Lemma Follows_app_inv s1 s2 tr o :
  Follows (s1 ++ s2) tr o ->
  (exists tr1 tr2, tr = tr1 ++ tr2 /\ Follows s1 tr1 Finished /\
                   Follows s2 tr2 o) \/
  (o <> Finished /\ Follows s1 tr o).
Proof.
  revert tr. induction s1 as [|t s1 IH]; intros tr H; simpl in H.
  - left. exists [], tr. split; [reflexivity|]. split; [constructor | exact H].
  - apply Follows_cons_inv in H as [[-> ->]|(ev & tr' & -> & <- & H)].
    { right. split; [discriminate | constructor]. }
    destruct H as [[Hp H]|(Hp & -> & H)].
    + destruct (IH _ H) as [(tr1 & tr2 & -> & H1 & H2)|[Ho H1]].
      * left. exists (ev :: tr1), tr2. split; [reflexivity|].
        split; [constructor; assumption | exact H2].
      * right. split; [exact Ho | constructor; assumption].
    + right. destruct H as [(e & He & ->)|[He ->]];
        (split; [discriminate|]); constructor; assumption.
Qed.

(** *** What a trace that follows a script looks like *)

Lemma Follows_tags sc tr o :
  Follows sc tr o -> (ev_tag <$> tr) `prefix_of` sc.
Proof.
  induction 1; simpl.
  - reflexivity.
  - apply prefix_cons. assumption.
  - apply prefix_cons, prefix_nil.
  - apply prefix_cons, prefix_nil.
  - apply prefix_nil.
Qed.

Lemma Follows_finished sc tr :
  Follows sc tr Finished ->
  ev_tag <$> tr = sc /\ Forall (fun ev => ev_proceeds ev = true) tr.
Proof.
  intros H. remember Finished as o eqn:Eo.
  induction H; try discriminate Eo.
  - split; [reflexivity | constructor].
  - destruct (IHFollows Eo) as [E F]. split.
    + rewrite fmap_cons. f_equal. exact E.
    + constructor; assumption.
Qed.

(** Every call but the last was answered so that the program went on. *)
Lemma Follows_proceeds sc tr o t1 ev t2 :
  Follows sc tr o -> tr = t1 ++ ev :: t2 -> t2 <> [] ->
  ev_proceeds ev = true.
Proof.
  intros H. revert t1. induction H; intros t1 E N.
  - destruct t1; discriminate E.
  - destruct t1 as [|ev' t1]; simpl in E; injection E as E1 E2.
    + subst. assumption.
    + eapply IHFollows; eassumption.
  - destruct t1 as [|ev' t1]; simpl in E; injection E as E1 E2.
    + subst. congruence.
    + destruct t1; discriminate E2.
  - destruct t1 as [|ev' t1]; simpl in E; injection E as E1 E2.
    + subst. congruence.
    + destruct t1; discriminate E2.
  - destruct t1; discriminate E.
Qed.

(** A run that fails ends with the call whose answer stopped it. *)
Lemma Follows_failed sc tr e :
  Follows sc tr (Failed e) ->
  exists tr0 ev, tr = tr0 ++ [ev] /\ ev_proceeds ev = false /\
                 ev_returned ev = Some e /\
                 Forall (fun ev => ev_proceeds ev = true) tr0.
Proof.
  intros H. remember (Failed e) as o eqn:Eo.
  induction H; try discriminate Eo.
  - destruct (IHFollows Eo) as (tr0 & ev' & -> & Hp & Hr & F).
    exists (ev :: tr0), ev'. repeat split; try assumption.
    constructor; assumption.
  - injection Eo as ->. exists [], ev. repeat split; try assumption.
    constructor.
Qed.

(** *** Rules *)

Lemma runsP_ret {A} (a : A) : runsP (Ret a) [].
Proof. intros St h s. simpl. constructor. Qed.

Lemma runsE_ret {A} (a : A) : runsE (Ret (Value a)) [].
Proof. intros St h s. simpl. constructor. Qed.

Lemma runsP_call {X} (c : Call X) :
  (forall x, proceeds c x = true) -> runsP (call c) [tag c].
Proof.
  intros Hp St h s. rewrite run_call.
  destruct (h X c s) as [[x s']|]; simpl.
  - apply (Follows_step (Ev c x)); [apply Hp | constructor].
  - constructor.
Qed.

Lemma runsE_call {A} (c : Call (Expect A)) :
  (forall x, proceeds c x = has_value x) ->
  (forall e, returned c (Unexpect e) = Some e) ->
  runsE (call c) [tag c].
Proof.
  intros Hp Hr St h s. rewrite run_call.
  destruct (h _ c s) as [[[v|e] s']|]; simpl.
  - apply (Follows_step (Ev c (Value v))); [simpl; rewrite Hp; reflexivity|].
    constructor.
  - apply (Follows_fail (Ev c (Unexpect e))); simpl.
    + rewrite Hp. reflexivity.
    + apply Hr.
  - constructor.
Qed.

Lemma runsP_call_deref {A} (c : Call (Expect A)) :
  (forall x, proceeds c x = has_value x) ->
  (forall e, returned c (Unexpect e) = None) ->
  runsP (bind (call c) deref) [tag c].
Proof.
  intros Hp Hr St h s. rewrite run_call_bind.
  destruct (h _ c s) as [[[v|e] s']|]; simpl.
  - apply (Follows_step (Ev c (Value v))); [simpl; rewrite Hp; reflexivity|].
    constructor.
  - apply (Follows_undef (Ev c (Unexpect e))); simpl.
    + rewrite Hp. reflexivity.
    + apply Hr.
  - constructor.
Qed.

Lemma runsP_bind {A B} (p : Prog A) (f : A -> Prog B) s1 s2 :
  runsP p s1 -> (forall a, runsP (f a) s2) -> runsP (bind p f) (s1 ++ s2).
Proof.
  intros Hp Hf St h s. rewrite run_bind. specialize (Hp St h s).
  destruct (result (run h p s)) as [a|]; simpl in *.
  - apply Follows_app; [exact Hp | apply Hf].
  - apply Follows_app_l; [exact Hp | discriminate].
Qed.

Lemma runsE_bind {A B} (p : Prog A) (f : A -> Prog (Expect B)) s1 s2 :
  runsP p s1 -> (forall a, runsE (f a) s2) -> runsE (bind p f) (s1 ++ s2).
Proof.
  intros Hp Hf St h s. rewrite run_bind. specialize (Hp St h s).
  destruct (result (run h p s)) as [a|]; simpl in *.
  - apply Follows_app; [exact Hp | apply Hf].
  - apply Follows_app_l; [exact Hp | discriminate].
Qed.

Lemma runsE_try {A B} (p : Prog (Expect A)) (f : A -> Prog (Expect B)) s1 s2 :
  runsE p s1 -> (forall a, runsE (f a) s2) -> runsE (try p f) (s1 ++ s2).
Proof.
  intros Hp Hf St h s. unfold try. rewrite run_bind. specialize (Hp St h s).
  destruct (result (run h p s)) as [[a|e]|]; simpl in *.
  - apply Follows_app; [exact Hp | apply Hf].
  - rewrite app_nil_r. apply Follows_app_l; [exact Hp | discriminate].
  - apply Follows_app_l; [exact Hp | discriminate].
Qed.

(** The guarded call of a section: no call when the section is absent. *)
Lemma runsE_when_present {S A} (Sec : option S) (c : S -> Call (Expect A))
    (t : CallTag) (a : A) :
  (forall x, tag (c x) = t) ->
  (forall x r, proceeds (c x) r = has_value r) ->
  (forall x e, returned (c x) (Unexpect e) = Some e) ->
  runsE (match Sec with
         | Some x => call (c x)
         | None => Ret (Value a)
         end) (when_present Sec t).
Proof.
  intros Ht Hp Hr. destruct Sec as [x|]; simpl.
  - rewrite <- (Ht x). apply runsE_call; [apply Hp | apply Hr].
  - apply runsE_ret.
Qed.

Lemma runsP_addFuncTypes ModInst FuncTypes :
  runsP (addFuncTypes ModInst FuncTypes) (script_types FuncTypes).
Proof.
  induction FuncTypes as [|[F|] rest IH]; simpl.
  - apply runsP_ret.
  - apply (runsP_bind
             (call (ModInst_addFuncType ModInst (getParamTypes F)
                      (getReturnTypes F)))
             (fun _ => addFuncTypes ModInst rest) [tModInst_addFuncType]).
    + apply (runsP_call (ModInst_addFuncType ModInst _ _)). reflexivity.
    + intros _. exact IH.
  - intros St h s. simpl. constructor.
Qed.

(** *** The runs of [instantiate] follow its script *)

Lemma runsE_start ModInst Mod :
  runsE (match getStartSection Mod with
         | Some StartSec =>
             call (ModInst_setStartIdx ModInst StartSec) ;;
             StartAddr <- (Res <- call (ModInst_getStartAddr ModInst) ;;
                           deref Res) ;;
             FuncInst <- (Res <- call (StoreMgr_getFunction StartAddr) ;;
                          deref Res) ;;
             call (runFunction FuncInst [])
         | None => Ret (Value tt)
         end) (script_start Mod).
Proof.
  unfold script_start. destruct (getStartSection Mod) as [Idx|].
  - apply (runsE_bind _ _ [tModInst_setStartIdx]).
    { apply (runsP_call (ModInst_setStartIdx _ _)). reflexivity. }
    intros _. apply (runsE_bind _ _ [tModInst_getStartAddr]).
    { apply (runsP_call_deref (ModInst_getStartAddr _)); reflexivity. }
    intros StartAddr. apply (runsE_bind _ _ [tStoreMgr_getFunction]).
    { apply (runsP_call_deref (StoreMgr_getFunction _)); reflexivity. }
    intros FuncInst. apply (runsE_call (runFunction _ _)); reflexivity.
  - apply runsE_ret.
Qed.

Lemma runsE_call_then {X B} (c : Call X) (f : X -> Prog (Expect B)) sc :
  (forall x, proceeds c x = true -> runsE (f x) sc) ->
  (forall x, proceeds c x = false ->
     exists e, returned c x = Some e /\ f x = Ret (Unexpect e)) ->
  runsE (bind (call c) f) (tag c :: sc).
Proof.
  intros Hgo Hstop St h s. rewrite run_call_bind.
  destruct (h X c s) as [[x s']|]; simpl; [|constructor].
  destruct (proceeds c x) eqn:Hp.
  - apply (Follows_step (Ev c x)); [exact Hp | apply (Hgo x Hp)].
  - destruct (Hstop x Hp) as (e & Hr & ->). simpl.
    apply (Follows_fail (Ev c x)); assumption.
Qed.

Ltac plain_call c :=
  apply (runsE_bind _ _ [_]); [ apply (runsP_call c); reflexivity | ].

Ltac section_call c :=
  apply runsE_try;
  [ apply (runsE_when_present _ c); reflexivity | ].

Lemma instantiate_follows_script InsMode Mod Name :
  runsE (instantiate InsMode Mod Name) (script InsMode Mod).
Proof.
  unfold instantiate, script, script_entry, script_allocate, script_offsets,
    script_initialize.
  rewrite <- ?app_assoc.
  plain_call StoreMgr_reset. intros _.
  plain_call StackMgr_reset. intros _.
  plain_call InstrPdr_reset. intros _.
  (* the name check *)
  apply (runsE_call_then (StoreMgr_findModule Name)).
  2:{ intros [M|] Hp; [|discriminate Hp]. eexists. split; reflexivity. }
  intros [M|] Hp; [discriminate Hp|]. clear Hp. cbv zeta.
  (* placement and retrieval of the fresh instance *)
  apply (runsE_bind _ _ [_]).
  { destruct InsMode;
      [ apply (runsP_call (StoreMgr_pushModule _))
      | apply (runsP_call (StoreMgr_importModule _)) ]; reflexivity. }
  intros ModInstAddr.
  apply (runsE_bind _ _ [_]).
  { apply (runsP_call_deref (StoreMgr_getModule _)); reflexivity. }
  intros ModInst.
  (* function types *)
  apply runsE_bind.
  { destruct (getTypeSection Mod);
      [apply runsP_addFuncTypes | apply runsP_ret]. }
  intros _.
  (* imports and allocation *)
  section_call (instantiate_ImportSec ModInst). intros _.
  apply runsE_try.
  { destruct (getFunctionSection Mod) as [F|], (getCodeSection Mod) as [C|];
      simpl; try apply runsE_ret.
    apply (runsE_call (instantiate_FuncSec ModInst F C)); reflexivity. }
  intros _.
  section_call (instantiate_GlobalSec ModInst). intros _.
  section_call (instantiate_TableSec ModInst). intros _.
  section_call (instantiate_MemorySec ModInst). intros _.
  (* offsets, within a frame *)
  plain_call (ModInst_Addr ModInst). intros ModAddr.
  plain_call (StackMgr_pushFrame ModAddr 0 0). intros _.
  section_call (resolveExpression_ElemSec ModInst). intros ElemOffsets.
  section_call (resolveExpression_DataSec ModInst). intros DataOffsets.
  plain_call StackMgr_popFrame. intros _.
  (* segment writes, exports, constructor *)
  section_call (fun Sec => instantiate_ElemSec ModInst Sec ElemOffsets).
  intros _.
  section_call (fun Sec => instantiate_DataSec ModInst Sec DataOffsets).
  intros _.
  section_call (instantiate_ExportSec ModInst). intros _.
  apply runsE_bind.
  { destruct (getCtor Mod) as [F|]; simpl;
      [apply (runsP_call (CtorFunc F)); reflexivity | apply runsP_ret]. }
  intros _.
  (* the start function *)
  apply runsE_start.
Qed.

End ScriptFacts.

(** ** The script and the pipeline *)

Module PipelineFacts.
Import AST Runtime Interpreter RunFacts ScriptFacts.
Local Open Scope prog_scope.

Lemma omap_when_present {S} (Sec : option S) t st :
  step_of_tag t = Some st ->
  omap step_of_tag (when_present Sec t) = when_present Sec st.
Proof. intros E. destruct Sec; simpl; [rewrite E|]; reflexivity. Qed.

Lemma omap_script_types FuncTypes :
  omap step_of_tag (script_types FuncTypes) = [].
Proof. induction FuncTypes as [|[F|] rest IH]; simpl; auto. Qed.

(** The step calls of the script are the planned steps. *)
Lemma script_steps InsMode Mod :
  omap step_of_tag (script InsMode Mod) = planned_steps Mod.
Proof.
  unfold script, script_allocate, script_offsets, script_initialize,
    script_start, planned_steps.
  rewrite !omap_app.
  repeat erewrite omap_when_present by reflexivity.
  replace (omap step_of_tag (script_entry InsMode)) with (@nil Step)
    by (destruct InsMode; reflexivity).
  replace (omap step_of_tag
             (if getTypeSection Mod is Some TypeSec
              then script_types TypeSec else [])) with (@nil Step)
    by (destruct (getTypeSection Mod);
        [rewrite omap_script_types|]; reflexivity).
  destruct (getFunctionSection Mod), (getStartSection Mod); simpl;
    repeat erewrite omap_when_present by reflexivity;
    rewrite <- ?app_assoc, ?app_nil_r; reflexivity.
Qed.

Lemma steps_tags tr : steps tr = omap step_of_tag (ev_tag <$> tr).
Proof.
  unfold steps. induction tr as [|ev tr IH]; [reflexivity|].
  cbn. unfold ev_step at 1.
  destruct (step_of_tag (ev_tag ev)); cbn; f_equal; exact IH.
Qed.

Lemma when_present_sublist {S T} (Sec : option S) (x : T) l k :
  l `sublist_of` k -> when_present Sec x ++ l `sublist_of` x :: k.
Proof.
  intros H. destruct Sec; simpl; [apply sublist_skip | apply sublist_cons];
    exact H.
Qed.

Lemma planned_steps_sublist Mod : planned_steps Mod `sublist_of` pipeline.
Proof.
  unfold planned_steps, pipeline.
  apply when_present_sublist.
  assert (F : forall l k, l `sublist_of` k ->
    (if getFunctionSection Mod is Some _
     then when_present (getCodeSection Mod) AllocateFunctions else []) ++ l
    `sublist_of` AllocateFunctions :: k).
  { intros l k H. destruct (getFunctionSection Mod);
      [apply when_present_sublist | apply sublist_cons]; exact H. }
  apply F. clear F.
  do 9 apply when_present_sublist.
  rewrite <- (app_nil_r (when_present _ _)).
  apply when_present_sublist. constructor.
Qed.

Lemma pipeline_sorted : StronglySorted before pipeline.
Proof.
  unfold pipeline, before.
  repeat (constructor; [|repeat constructor; simpl; lia]). constructor.
Qed.

Lemma Forall_sublist {A} (P : A -> Prop) l k :
  l `sublist_of` k -> Forall P k -> Forall P l.
Proof.
  induction 1 as [|x l k H IH|x l k H IH]; intros HF.
  - constructor.
  - inversion HF; subst. constructor; auto.
  - inversion HF; subst. auto.
Qed.

Lemma StronglySorted_sublist {A} (R : relation A) l k :
  l `sublist_of` k -> StronglySorted R k -> StronglySorted R l.
Proof.
  induction 1 as [|x l k H IH|x l k H IH]; intros HS.
  - constructor.
  - inversion HS as [|? ? HS' HF]; subst. constructor; [auto|].
    eapply Forall_sublist; eassumption.
  - inversion HS; subst. auto.
Qed.

Lemma planned_steps_sorted Mod : StronglySorted before (planned_steps Mod).
Proof.
  eapply StronglySorted_sublist;
    [apply planned_steps_sublist | apply pipeline_sorted].
Qed.

End PipelineFacts.

(** ** Calls and their answers *)

Module EventFacts.
Import AST Runtime Interpreter.

(** Membership of a tag in a list of tags, decided by comparison. *)
Ltac tag_in := repeat constructor.
Ltac tag_absurd H :=
  exfalso;
  repeat (apply elem_of_cons in H as [H|H]; [discriminate H|]);
  apply elem_of_nil in H; exact H.

(** The calls without a result the program checks always let it go on. *)
Lemma proceeds_unchecked ev :
  ev_tag ev ∈ [tStoreMgr_reset; tStackMgr_reset; tInstrPdr_reset;
               tStoreMgr_pushModule; tStoreMgr_importModule;
               tStackMgr_pushFrame; tStackMgr_popFrame;
               tModInst_addFuncType; tModInst_Addr; tModInst_setStartIdx;
               tCtorFunc] ->
  ev_proceeds ev = true.
Proof.
  destruct ev as [X c x]. destruct c; simpl; intros H; try reflexivity;
    tag_absurd H.
Qed.

(** A found module stops the program with [ModuleNameConflict]. *)
Lemma returned_findModule ev :
  ev_tag ev = tStoreMgr_findModule -> ev_proceeds ev = false ->
  ev_returned ev = Some ModuleNameConflict.
Proof.
  destruct ev as [X c x]. destruct c; simpl; try discriminate.
  destruct x; [reflexivity | discriminate].
Qed.

(** The three dereferenced answers stop the program without a result. *)
Lemma returned_dereferenced ev :
  ev_tag ev ∈ [tStoreMgr_getModule; tStoreMgr_getFunction;
               tModInst_getStartAddr] ->
  ev_returned ev = None.
Proof.
  destruct ev as [X c x]. destruct c; simpl; intros H; try reflexivity;
    tag_absurd H.
Qed.

(** What the program returns when another call stops it is that call's
    error. *)
Lemma returned_error ev e :
  ev_returned ev = Some e -> ev_tag ev <> tStoreMgr_findModule ->
  ev_error ev = Some e.
Proof.
  destruct ev as [X c x]. destruct c; simpl; try congruence.
Qed.

Lemma tag_StoreMgr_reset ev :
  ev_tag ev = tStoreMgr_reset -> ev = Ev StoreMgr_reset tt.
Proof.
  destruct ev as [X c x]. destruct c; simpl; try discriminate.
  destruct x. reflexivity.
Qed.

Lemma tag_StackMgr_reset ev :
  ev_tag ev = tStackMgr_reset -> ev = Ev StackMgr_reset tt.
Proof.
  destruct ev as [X c x]. destruct c; simpl; try discriminate.
  destruct x. reflexivity.
Qed.

Lemma tag_InstrPdr_reset ev :
  ev_tag ev = tInstrPdr_reset -> ev = Ev InstrPdr_reset tt.
Proof.
  destruct ev as [X c x]. destruct c; simpl; try discriminate.
  destruct x. reflexivity.
Qed.

Lemma outcome_Failed {A} (r : option (Expect A)) e :
  outcome r = Failed e -> r = Some (Unexpect e).
Proof. destruct r as [[v|e']|]; simpl; congruence. Qed.

End EventFacts.

(** ** The tags of the script *)

Module TagFacts.
Import AST Runtime Interpreter RunFacts ScriptFacts PipelineFacts EventFacts.

Lemma elem_of_when_present {S T} (Sec : option S) (t x : T) :
  x ∈ when_present Sec t -> x = t.
Proof.
  destruct Sec; simpl; intros H.
  - apply list_elem_of_singleton in H. exact H.
  - apply elem_of_nil in H. destruct H.
Qed.

Lemma elem_of_script_types FuncTypes t :
  t ∈ script_types FuncTypes -> t = tModInst_addFuncType.
Proof.
  induction FuncTypes as [|[F|] rest IH]; simpl; intros H.
  - apply elem_of_nil in H. destruct H.
  - apply elem_of_cons in H as [H|H]; auto.
  - apply elem_of_nil in H. destruct H.
Qed.

Ltac one_tag H := apply elem_of_when_present in H; subst; tag_in.

Lemma elem_of_script_allocate Mod t :
  t ∈ script_allocate Mod ->
  t ∈ [tModInst_addFuncType; tinstantiate_ImportSec; tinstantiate_FuncSec;
       tinstantiate_GlobalSec; tinstantiate_TableSec;
       tinstantiate_MemorySec].
Proof.
  unfold script_allocate. rewrite !elem_of_app.
  intros [H|[H|[H|[H|[H|H]]]]].
  - destruct (getTypeSection Mod).
    + apply elem_of_script_types in H. subst. tag_in.
    + apply elem_of_nil in H. destruct H.
  - one_tag H.
  - destruct (getFunctionSection Mod).
    + one_tag H.
    + apply elem_of_nil in H. destruct H.
  - one_tag H.
  - one_tag H.
  - one_tag H.
Qed.

Lemma elem_of_script_offsets Mod t :
  t ∈ script_offsets Mod ->
  t ∈ [tModInst_Addr; tStackMgr_pushFrame; tresolveExpression_ElemSec;
       tresolveExpression_DataSec; tStackMgr_popFrame].
Proof.
  unfold script_offsets. rewrite !elem_of_app.
  intros [H|[H|[H|H]]].
  - repeat (apply elem_of_cons in H as [->|H]; [tag_in|]).
    apply elem_of_nil in H. destruct H.
  - one_tag H.
  - one_tag H.
  - apply list_elem_of_singleton in H. subst. tag_in.
Qed.

Lemma elem_of_script_initialize Mod t :
  t ∈ script_initialize Mod ->
  t ∈ [tinstantiate_ElemSec; tinstantiate_DataSec; tinstantiate_ExportSec;
       tCtorFunc].
Proof.
  unfold script_initialize. rewrite !elem_of_app.
  intros [H|[H|[H|H]]]; one_tag H.
Qed.

Lemma elem_of_script_start Mod t :
  t ∈ script_start Mod ->
  t ∈ [tModInst_setStartIdx; tModInst_getStartAddr; tStoreMgr_getFunction;
       trunFunction].
Proof.
  unfold script_start. destruct (getStartSection Mod); intros H.
  - exact H.
  - apply elem_of_nil in H. destruct H.
Qed.

(** The tags of a trace are among those of the script it follows. *)
Lemma Follows_elem_of sc tr o ev :
  Follows sc tr o -> ev ∈ tr -> ev_tag ev ∈ sc.
Proof.
  intros H Hin. apply Follows_tags in H as [k ->].
  apply elem_of_app. left. apply list_elem_of_fmap_2. exact Hin.
Qed.

End TagFacts.

(** ** Interpreter::instantiate *)

Module InstantiateFacts.
Import AST Runtime Interpreter RunFacts ScriptFacts PipelineFacts EventFacts
  TagFacts.
Local Open Scope prog_scope.

(** *** The script, part by part *)

Lemma elem_of_script_body Mod t :
  t ∈ script_allocate Mod ++ script_offsets Mod ++ script_initialize Mod
      ++ script_start Mod ->
  t ∈ [tModInst_addFuncType; tinstantiate_ImportSec; tinstantiate_FuncSec;
       tinstantiate_GlobalSec; tinstantiate_TableSec; tinstantiate_MemorySec;
       tModInst_Addr; tStackMgr_pushFrame; tresolveExpression_ElemSec;
       tresolveExpression_DataSec; tStackMgr_popFrame;
       tinstantiate_ElemSec; tinstantiate_DataSec; tinstantiate_ExportSec;
       tCtorFunc;
       tModInst_setStartIdx; tModInst_getStartAddr; tStoreMgr_getFunction;
       trunFunction].
Proof.
  rewrite !elem_of_app. intros [H|[H|[H|H]]].
  - apply elem_of_script_allocate in H.
    repeat (apply elem_of_cons in H as [->|H]; [tag_in|]).
    apply elem_of_nil in H. destruct H.
  - apply elem_of_script_offsets in H.
    repeat (apply elem_of_cons in H as [->|H]; [tag_in|]).
    apply elem_of_nil in H. destruct H.
  - apply elem_of_script_initialize in H.
    repeat (apply elem_of_cons in H as [->|H]; [tag_in|]).
    apply elem_of_nil in H. destruct H.
  - apply elem_of_script_start in H.
    repeat (apply elem_of_cons in H as [->|H]; [tag_in|]).
    apply elem_of_nil in H. destruct H.
Qed.

(** After the name check the script has no other name check, and no
    reset. *)
Lemma elem_of_script_after_check InsMode Mod t :
  t ∈ drop 4 (script InsMode Mod) ->
  t ∉ [tStoreMgr_reset; tStackMgr_reset; tInstrPdr_reset;
       tStoreMgr_findModule].
Proof.
  unfold script, script_entry. simpl. intros H N.
  apply elem_of_cons in H as [->|H].
  { destruct InsMode; tag_absurd N. }
  apply elem_of_cons in H as [->|H]; [tag_absurd N|].
  apply elem_of_script_body in H.
  repeat (apply elem_of_cons in H as [->|H]; [tag_absurd N|]).
  apply elem_of_nil in H. exact H.
Qed.

(** How a run gets through the resets and the name check. *)
Lemma Follows_entry InsMode Mod tr o :
  Follows (script InsMode Mod) tr o ->
  (o = Stuck /\
   Forall (fun ev => ev_tag ev ∈ [tStoreMgr_reset; tStackMgr_reset;
                                  tInstrPdr_reset]) tr) \/
  (exists found,
     tr = [Ev StoreMgr_reset tt; Ev StackMgr_reset tt; Ev InstrPdr_reset tt;
           found] /\
     ev_tag found = tStoreMgr_findModule /\ ev_proceeds found = false /\
     o = Failed ModuleNameConflict) \/
  (exists checked tr',
     tr = Ev StoreMgr_reset tt :: Ev StackMgr_reset tt ::
          Ev InstrPdr_reset tt :: checked :: tr' /\
     ev_tag checked = tStoreMgr_findModule /\ ev_proceeds checked = true /\
     Follows (drop 4 (script InsMode Mod)) tr' o).
Proof.
  unfold script, script_entry. simpl. intros H.
  apply Follows_cons_inv in H as [[-> ->]|(e1 & tr1 & -> & T1 & H)].
  { left. split; [reflexivity | constructor]. }
  destruct H as [[_ H]|(Hp & _)].
  2:{ rewrite proceeds_unchecked in Hp by (rewrite T1; tag_in).
      discriminate Hp. }
  apply tag_StoreMgr_reset in T1. subst e1.
  apply Follows_cons_inv in H as [[-> ->]|(e2 & tr2 & -> & T2 & H)].
  { left. split; [reflexivity|].
    repeat (constructor; [simpl; tag_in|]). constructor. }
  destruct H as [[_ H]|(Hp & _)].
  2:{ rewrite proceeds_unchecked in Hp by (rewrite T2; tag_in).
      discriminate Hp. }
  apply tag_StackMgr_reset in T2. subst e2.
  apply Follows_cons_inv in H as [[-> ->]|(e3 & tr3 & -> & T3 & H)].
  { left. split; [reflexivity|].
    repeat (constructor; [simpl; tag_in|]). constructor. }
  destruct H as [[_ H]|(Hp & _)].
  2:{ rewrite proceeds_unchecked in Hp by (rewrite T3; tag_in).
      discriminate Hp. }
  apply tag_InstrPdr_reset in T3. subst e3.
  apply Follows_cons_inv in H as [[-> ->]|(e4 & tr4 & -> & T4 & H)].
  { left. split; [reflexivity|].
    repeat (constructor; [simpl; tag_in|]). constructor. }
  right. destruct H as [[Hp H]|(Hp & -> & H)].
  - right. exists e4, tr4. auto.
  - left. exists e4. split; [reflexivity|]. split; [exact T4|].
    split; [exact Hp|].
    rewrite (returned_findModule e4 T4 Hp) in H.
    destruct H as [(e & He & ->)|[He _]]; congruence.
Qed.

(** The steps a run carries out are the first of the planned steps. *)
Lemma Follows_steps InsMode Mod tr o :
  Follows (script InsMode Mod) tr o ->
  steps tr `prefix_of` planned_steps Mod.
Proof.
  intros H. apply Follows_tags in H as [k Hk].
  rewrite <- (script_steps InsMode Mod), Hk, omap_app, <- steps_tags.
  apply prefix_app_r. reflexivity.
Qed.

Lemma steps_app tr1 tr2 : steps (tr1 ++ tr2) = steps tr1 ++ steps tr2.
Proof. apply omap_app. Qed.

Lemma steps_cons ev tr a :
  ev_step ev = Some a -> steps (ev :: tr) = a :: steps tr.
Proof. intros E. unfold steps. cbn. rewrite E. reflexivity. Qed.

(** When [instantiate] succeeds it has carried out all planned steps. *)
Lemma instantiate_success_steps {St} (h : Handler St) s InsMode Mod Name :
  result (run h (instantiate InsMode Mod Name) s) = Some (Value tt) ->
  steps (trace (run h (instantiate InsMode Mod Name) s)) = planned_steps Mod.
Proof.
  intros E.
  pose proof (instantiate_follows_script InsMode Mod Name St h s) as H.
  rewrite E in H. cbn [outcome] in H. apply Follows_finished in H as [H _].
  rewrite steps_tags, H. apply script_steps.
Qed.

(** *** Function section without Code section *)

Lemma not_elem_of_script_allocate Mod :
  getFunctionSection Mod = None \/ getCodeSection Mod = None ->
  tinstantiate_FuncSec ∉ script_allocate Mod.
Proof.
  intros Hn. unfold script_allocate. rewrite !elem_of_app.
  intros [H|[H|[H|[H|[H|H]]]]];
    try (apply elem_of_when_present in H; discriminate H).
  - destruct (getTypeSection Mod).
    + apply elem_of_script_types in H. discriminate H.
    + apply elem_of_nil in H. exact H.
  - destruct Hn as [Hn|Hn]; rewrite Hn in H.
    + apply elem_of_nil in H. exact H.
    + destruct (getFunctionSection Mod); apply elem_of_nil in H; exact H.
Qed.

(** C9: when the Function section or the Code section is absent,
    [instantiate] is the program it is for the module without either
    of them, and no run of it makes the call that allocates the local
    functions: the step is skipped, with no error of its own. *)
Theorem instantiate_skips_functions {St} (h : Handler St) (s : St)
    InsMode Mod Name :
  getFunctionSection Mod = None \/ getCodeSection Mod = None ->
  instantiate InsMode Mod Name
    = instantiate InsMode (without_functions Mod) Name /\
  Forall (fun ev => ev_tag ev <> tinstantiate_FuncSec)
    (trace (run h (instantiate InsMode Mod Name) s)).
Proof.
  intros Hn. split.
  - unfold instantiate, without_functions. simpl.
    destruct Hn as [Hn|Hn]; rewrite Hn;
      [|destruct (getFunctionSection Mod)]; reflexivity.
  - apply Forall_forall. intros ev Hin Htag.
    pose proof (instantiate_follows_script InsMode Mod Name St h s) as H.
    apply (Follows_elem_of _ _ _ ev) in H; [|exact Hin].
    rewrite Htag in H. unfold script in H.
    rewrite elem_of_app in H. destruct H as [H|H].
    { unfold script_entry in H. destruct InsMode; tag_absurd H. }
    rewrite elem_of_app in H. destruct H as [H|H].
    { exact (not_elem_of_script_allocate Mod Hn H). }
    rewrite !elem_of_app in H. destruct H as [H|[H|H]].
    + apply elem_of_script_offsets in H. tag_absurd H.
    + apply elem_of_script_initialize in H. tag_absurd H.
    + apply elem_of_script_start in H. tag_absurd H.
Qed.

(** *** Failure *)

(** C2, amended: when [instantiate] fails after it has placed the
    instance in the Store, the call that failed is the last call it
    makes: every call before it was answered with success, the error
    returned is that call's error, and the state is left as that call
    left it.  Nothing is unpublished, reclaimed or cleared. *)
Theorem instantiate_failure_returns_at_once {St} (h : Handler St) (s : St)
    InsMode Mod Name e placed :
  result (run h (instantiate InsMode Mod Name) s) = Some (Unexpect e) ->
  placed ∈ trace (run h (instantiate InsMode Mod Name) s) ->
  ev_tag placed = tStoreMgr_pushModule \/
  ev_tag placed = tStoreMgr_importModule ->
  exists tr0 ev s0,
    trace (run h (instantiate InsMode Mod Name) s) = tr0 ++ [ev] /\
    placed ∈ tr0 /\
    Forall (fun ev' => ev_proceeds ev' = true) tr0 /\
    ev_error ev = Some e /\
    match ev with
    | Ev c x =>
        h _ c s0 = Some (x, final (run h (instantiate InsMode Mod Name) s))
    end.
Proof.
  intros E Hin Hplaced.
  pose proof (instantiate_follows_script InsMode Mod Name St h s) as H.
  rewrite E in H. cbn [outcome] in H.
  assert (Pp : ev_proceeds placed = true).
  { apply proceeds_unchecked. destruct Hplaced as [-> | ->]; tag_in. }
  destruct (Follows_failed _ _ _ H) as (tr0 & ev & Etr & Hnp & Hret & Hall).
  exists tr0, ev.
  destruct (run_last_event h _ s tr0 ev Etr) as [s0 Hs0]. exists s0.
  split; [exact Etr|].
  assert (Hin0 : placed ∈ tr0).
  { rewrite Etr, elem_of_app, list_elem_of_singleton in Hin.
    destruct Hin as [Hin|Hin]; [exact Hin | congruence]. }
  split; [exact Hin0|]. split; [exact Hall|]. split; [|exact Hs0].
  apply returned_error; [exact Hret|]. intros Tfind.
  apply Follows_entry in H as [[Ho _]|[(found & Etr' & _)|H]].
  - discriminate Ho.
  - rewrite Etr' in Etr.
    assert (tr0 = [Ev StoreMgr_reset tt; Ev StackMgr_reset tt;
                   Ev InstrPdr_reset tt]) as ->.
    { change [Ev StoreMgr_reset (); Ev StackMgr_reset ();
              Ev InstrPdr_reset (); found]
        with ([Ev StoreMgr_reset (); Ev StackMgr_reset ();
               Ev InstrPdr_reset ()] ++ [found]) in Etr.
      apply app_inj_tail in Etr as [<- _]. reflexivity. }
    repeat (apply elem_of_cons in Hin0 as [->|Hin0];
            [destruct Hplaced as [T|T]; discriminate T|]).
    apply elem_of_nil in Hin0. exact Hin0.
  - destruct H as (checked & tr' & Etr' & Tc & Pc & H).
    assert (Hev : ev ∈ tr').
    { rewrite Etr' in Etr.
      destruct (Follows_failed _ _ _ H) as (tr0' & ev' & -> & _).
      change (Ev StoreMgr_reset () :: Ev StackMgr_reset () ::
              Ev InstrPdr_reset () :: checked :: tr0' ++ [ev'])
        with ((Ev StoreMgr_reset () :: Ev StackMgr_reset () ::
               Ev InstrPdr_reset () :: checked :: tr0') ++ [ev']) in Etr.
      apply app_inj_tail in Etr as [_ <-].
      apply elem_of_app. right. tag_in. }
    apply (Follows_elem_of _ _ _ _ H) in Hev.
    apply elem_of_script_after_check in Hev. apply Hev.
    rewrite Tfind. tag_in.
Qed.

(** *** The name check *)

(** C3, amended: when the name check finds a module, [instantiate] fails
    with [ModuleNameConflict]; all it has done is to reset the Store,
    the Stack and the instruction provider, and to look the name up. *)
Theorem instantiate_name_conflict {St} (h : Handler St) (s : St)
    InsMode Mod Name M :
  Ev (StoreMgr_findModule Name) (Some M)
    ∈ trace (run h (instantiate InsMode Mod Name) s) ->
  result (run h (instantiate InsMode Mod Name) s)
    = Some (Unexpect ModuleNameConflict) /\
  trace (run h (instantiate InsMode Mod Name) s)
    = [Ev StoreMgr_reset tt; Ev StackMgr_reset tt; Ev InstrPdr_reset tt;
       Ev (StoreMgr_findModule Name) (Some M)].
Proof.
  intros Hin.
  pose proof (instantiate_follows_script InsMode Mod Name St h s) as H.
  apply Follows_entry in H as [[_ Hall]|[(found & Etr & Tf & Pf & Ho)|H]].
  - rewrite Forall_forall in Hall. apply Hall in Hin. simpl in Hin.
    tag_absurd Hin.
  - rewrite Etr in Hin |- *. split; [apply outcome_Failed, Ho|].
    repeat (apply elem_of_cons in Hin as [Hin|Hin];
            [try (apply (f_equal ev_tag) in Hin; discriminate Hin)|]).
    + rewrite Hin. reflexivity.
    + apply elem_of_nil in Hin. destruct Hin.
  - destruct H as (checked & tr' & Etr & Tc & Pc & H). exfalso.
    rewrite Etr in Hin.
    repeat (apply elem_of_cons in Hin as [Hin|Hin];
            [try (apply (f_equal ev_tag) in Hin; discriminate Hin)|]).
    + rewrite <- Hin in Pc. discriminate Pc.
    + apply (Follows_elem_of _ _ _ _ H) in Hin.
      apply elem_of_script_after_check in Hin. apply Hin. simpl. tag_in.
Qed.

End InstantiateFacts.

(** ** The frame of the offset initializers *)

Module FrameFacts.
Import AST Runtime Interpreter RunFacts ScriptFacts PipelineFacts EventFacts
  TagFacts InstantiateFacts.
Local Open Scope prog_scope.

(** An element that is the only one of its kind splits a list in one
    way. *)
Lemma split_unique {A} (P : A -> Prop) l1 x l2 k1 y k2 :
  l1 ++ x :: l2 = k1 ++ y :: k2 ->
  P x -> P y ->
  Forall (fun z => ~ P z) k1 -> Forall (fun z => ~ P z) k2 ->
  l1 = k1 /\ x = y /\ l2 = k2.
Proof.
  revert k1. induction l1 as [|a l1 IH]; intros [|z k1] E Px Py F1 F2;
    simpl in E; injection E as E1 E2.
  - subst. auto.
  - subst. inversion F1; subst. contradiction.
  - subst. exfalso. rewrite Forall_forall in F2. apply (F2 x); [|exact Px].
    apply elem_of_app. right. constructor.
  - subst. inversion F1; subst.
    destruct (IH k1 E2 Px Py) as (-> & -> & ->); auto.
Qed.

Ltac all_resolved :=
  repeat (apply List.Forall_cons; [assumption|]); apply List.Forall_nil.

(** From the push of the frame on, a run that returns either resolves
    the offsets and pops the frame, or ends with the resolution that
    failed. *)
Lemma Follows_offsets {S1 S2} (ElemSec : option S1) (DataSec : option S2)
    rest tr o :
  Follows (when_present ElemSec tresolveExpression_ElemSec
           ++ when_present DataSec tresolveExpression_DataSec
           ++ tStackMgr_popFrame :: rest) tr o ->
  o <> Stuck ->
  (exists offs popped t3,
     tr = offs ++ popped :: t3 /\ ev_tag popped = tStackMgr_popFrame /\
     Forall resolved offs) \/
  (exists offs failed e,
     tr = offs ++ [failed] /\
     ev_tag failed
       ∈ [tresolveExpression_ElemSec; tresolveExpression_DataSec] /\
     ev_error failed = Some e /\ o = Failed e /\ Forall resolved offs).
Proof.
  intros H Ho.
  assert (Pop : forall tr', Follows (tStackMgr_popFrame :: rest) tr' o ->
                exists popped t3, tr' = popped :: t3 /\
                                  ev_tag popped = tStackMgr_popFrame).
  { intros tr' H'.
    apply Follows_cons_inv in H' as [[_ ->]|(popped & t3 & -> & T & _)];
      [congruence | eauto]. }
  assert (Step : forall t sc tr', 
            t ∈ [tresolveExpression_ElemSec; tresolveExpression_DataSec] ->
            Follows (t :: sc) tr' o ->
            (exists ev tr'', tr' = ev :: tr'' /\ resolved ev /\
                             Follows sc tr'' o) \/
            (exists failed e, tr' = [failed] /\ ev_tag failed = t /\
                              ev_error failed = Some e /\ o = Failed e)).
  { intros t sc tr' Ht H'.
    apply Follows_cons_inv in H' as [[_ ->]|(ev & tr'' & -> & T & H')];
      [congruence|].
    destruct H' as [[Hp H']|(Hp & -> & [(e & Hr & ->)|[_ ->]])];
      [| |congruence].
    - left. exists ev, tr''. split; [reflexivity|]. split; [|exact H'].
      split; [rewrite T; exact Ht | exact Hp].
    - right. exists ev, e. split; [reflexivity|]. split; [exact T|].
      split; [|reflexivity].
      apply returned_error; [exact Hr|]. rewrite T. intros ->.
      tag_absurd Ht. }
  destruct ElemSec as [E|], DataSec as [D|]; simpl in H.
  - apply Step in H as [(ev1 & tr1 & -> & R1 & H)|(f & e & -> & T & He & ->)];
      [|right; exists [], f, e|tag_in].
    + apply Step in H as [(ev2 & tr2 & -> & R2 & H)|(f & e & -> & T & He & ->)];
        [|right; exists [ev1], f, e|tag_in].
      * destruct (Pop _ H) as (popped & t3 & -> & Tp). left.
        exists [ev1; ev2], popped, t3.
        split; [reflexivity|]. split; [exact Tp | all_resolved].
      * split; [reflexivity|]. split; [rewrite T; tag_in|].
        split; [exact He|]. split; [reflexivity | all_resolved].
    + split; [reflexivity|]. split; [rewrite T; tag_in|].
      split; [exact He|]. split; [reflexivity | all_resolved].
  - apply Step in H as [(ev1 & tr1 & -> & R1 & H)|(f & e & -> & T & He & ->)];
      [|right; exists [], f, e|tag_in].
    + destruct (Pop _ H) as (popped & t3 & -> & Tp). left.
      exists [ev1], popped, t3.
      split; [reflexivity|]. split; [exact Tp | all_resolved].
    + split; [reflexivity|]. split; [rewrite T; tag_in|].
      split; [exact He|]. split; [reflexivity | all_resolved].
  - apply Step in H as [(ev1 & tr1 & -> & R1 & H)|(f & e & -> & T & He & ->)];
      [|right; exists [], f, e|tag_in].
    + destruct (Pop _ H) as (popped & t3 & -> & Tp). left.
      exists [ev1], popped, t3.
      split; [reflexivity|]. split; [exact Tp | all_resolved].
    + split; [reflexivity|]. split; [rewrite T; tag_in|].
      split; [exact He|]. split; [reflexivity | all_resolved].
  - destruct (Pop _ H) as (popped & t3 & -> & Tp). left.
    exists [], popped, t3.
    split; [reflexivity|]. split; [exact Tp | all_resolved].
Qed.

(** C4, amended: in a run that returns, the frame pushed for the offset
    initializers is popped when every offset list is resolved; when a
    resolution fails, that call is the last of the run: [instantiate]
    returns its error and the frame has not been popped. *)
Theorem frame_popped_unless_offsets_fail {St} (h : Handler St) (s : St)
    InsMode Mod Name r t1 pushed t2 :
  result (run h (instantiate InsMode Mod Name) s) = Some r ->
  trace (run h (instantiate InsMode Mod Name) s) = t1 ++ pushed :: t2 ->
  ev_tag pushed = tStackMgr_pushFrame ->
  (exists offs popped t3,
     t2 = offs ++ popped :: t3 /\ ev_tag popped = tStackMgr_popFrame /\
     Forall resolved offs) \/
  (exists offs failed e,
     t2 = offs ++ [failed] /\
     ev_tag failed
       ∈ [tresolveExpression_ElemSec; tresolveExpression_DataSec] /\
     ev_error failed = Some e /\ r = Unexpect e /\ Forall resolved offs).
Proof.
  intros Er Etr Tp.
  pose proof (instantiate_follows_script InsMode Mod Name St h s) as H.
  rewrite Er, Etr in H.
  assert (Ho : outcome (Some r) <> Stuck) by (destruct r; discriminate).
  unfold script in H. rewrite app_assoc in H.
  apply Follows_app_inv in H as [(tr1 & tr2 & E & H1 & H2)|[_ H1]].
  2:{ exfalso. apply (Follows_elem_of _ _ _ pushed) in H1.
      - rewrite Tp, elem_of_app in H1. destruct H1 as [H1|H1].
        + unfold script_entry in H1. destruct InsMode; tag_absurd H1.
        + apply elem_of_script_allocate in H1. tag_absurd H1.
      - apply elem_of_app. right. constructor. }
  unfold script_offsets in H2. rewrite <- !app_assoc in H2. simpl in H2.
  apply Follows_cons_inv in H2 as [[_ Hs]|(evA & tr3 & -> & TA & H2)];
    [destruct (Ho Hs)|].
  destruct H2 as [[_ H2]|(Hp & _)].
  2:{ rewrite proceeds_unchecked in Hp by (rewrite TA; tag_in).
      discriminate Hp. }
  apply Follows_cons_inv in H2 as [[_ Hs]|(evP & tr4 & -> & TP & H2)];
    [destruct (Ho Hs)|].
  destruct H2 as [[_ H2]|(Hp & _)].
  2:{ rewrite proceeds_unchecked in Hp by (rewrite TP; tag_in).
      discriminate Hp. }
  assert (t1 = tr1 ++ [evA] /\ pushed = evP /\ t2 = tr4) as (-> & -> & ->).
  { apply (split_unique (fun ev => ev_tag ev = tStackMgr_pushFrame));
      [rewrite <- app_assoc; exact E | exact Tp | exact TP | |].
    - apply Forall_app. split.
      + apply Forall_forall. intros ev Hin T.
        apply (Follows_elem_of _ _ _ ev) in H1; [|exact Hin].
        rewrite T, elem_of_app in H1. destruct H1 as [H1|H1].
        * unfold script_entry in H1. destruct InsMode; tag_absurd H1.
        * apply elem_of_script_allocate in H1. tag_absurd H1.
      + repeat constructor. rewrite TA. discriminate.
    - apply Forall_forall. intros ev Hin T.
      apply (Follows_elem_of _ _ _ ev) in H2; [|exact Hin].
      rewrite T, !elem_of_app in H2. destruct H2 as [H2|[H2|H2]].
      + apply elem_of_when_present in H2. discriminate H2.
      + apply elem_of_when_present in H2. discriminate H2.
      + apply elem_of_cons in H2 as [H2|H2]; [discriminate H2|].
        rewrite elem_of_app in H2. destruct H2 as [H2|H2].
        * apply elem_of_script_initialize in H2. tag_absurd H2.
        * apply elem_of_script_start in H2. tag_absurd H2. }
  apply Follows_offsets in H2; [|exact Ho].
  destruct H2 as [H2|(offs & failed & e & -> & Tf & He & Eo & Hall)].
  - left. exact H2.
  - right. exists offs, failed, e.
    split; [reflexivity|]. split; [exact Tf|]. split; [exact He|].
    split; [|exact Hall].
    destruct r as [v|e']; [discriminate Eo | injection Eo as ->; reflexivity].
Qed.

End FrameFacts.

(** ** The start function *)

Module StartFacts.
Import AST Runtime Interpreter RunFacts ScriptFacts PipelineFacts EventFacts
  TagFacts InstantiateFacts FrameFacts.
Local Open Scope prog_scope.

Lemma not_run_split tr pre ev post :
  Forall not_run tr -> tr = pre ++ ev :: post -> ev_tag ev = trunFunction ->
  False.
Proof.
  intros F -> T. rewrite Forall_app in F. destruct F as [_ F].
  inversion F; subst. contradiction.
Qed.

Section Start.
Variables (ModInst : ModuleInstancePtr) (Idx : Z).

Lemma start_preceded_not_run tr :
  Forall not_run tr -> start_preceded ModInst Idx tr.
Proof. intros F pre ev post E T. destruct (not_run_split _ _ _ _ F E T). Qed.

Lemma start_preceded_app tr1 tr2 :
  start_preceded ModInst Idx tr1 -> start_preceded ModInst Idx tr2 ->
  start_preceded ModInst Idx (tr1 ++ tr2).
Proof.
  intros L1 L2 pre ev post E T. symmetry in E.
  apply app_eq_inv in E as [(k & -> & E)|(k & E1 & E2)].
  - destruct (L2 _ _ _ E T) as (pre' & a & F & x & -> & ->).
    exists (tr1 ++ pre'), a, F, x. rewrite app_assoc. auto.
  - destruct k as [|ev' k]; simpl in E2.
    + destruct (L2 [] ev post (eq_sym E2) T) as (pre' & a & F & x & E' & _).
      destruct pre'; discriminate E'.
    + injection E2 as -> E2. exact (L1 _ _ _ E1 T).
Qed.

Lemma always_ret {A} (a : A) : always (start_preceded ModInst Idx) (Ret a).
Proof. intros St h s. apply start_preceded_not_run. constructor. Qed.

Lemma always_call {X} (c : Call X) :
  tag c <> trunFunction -> always (start_preceded ModInst Idx) (call c).
Proof.
  intros T St h s. rewrite run_call. apply start_preceded_not_run.
  destruct (h X c s) as [[x s']|]; simpl; repeat constructor. exact T.
Qed.

Lemma always_bind {A B} (p : Prog A) (f : A -> Prog B) :
  always (start_preceded ModInst Idx) p ->
  (forall a, always (start_preceded ModInst Idx) (f a)) ->
  always (start_preceded ModInst Idx) (bind p f).
Proof.
  intros Hp Hf St h s. rewrite run_bind. specialize (Hp St h s).
  destruct (result (run h p s)) as [a|]; simpl; [|exact Hp].
  apply start_preceded_app; [exact Hp | apply Hf].
Qed.

Lemma always_try {A B} (p : Prog (Expect A)) (f : A -> Prog (Expect B)) :
  always (start_preceded ModInst Idx) p ->
  (forall a, always (start_preceded ModInst Idx) (f a)) ->
  always (start_preceded ModInst Idx) (try p f).
Proof.
  intros Hp Hf. apply always_bind; [exact Hp|].
  intros [a|e]; [apply Hf | apply always_ret].
Qed.

Lemma always_when_present {S A} (Sec : option S) (c : S -> Call (Expect A))
    (a : A) :
  (forall x, tag (c x) <> trunFunction) ->
  always (start_preceded ModInst Idx)
    (match Sec with
     | Some x => call (c x)
     | None => Ret (Value a)
     end).
Proof.
  intros T. destruct Sec as [x|]; [apply always_call, T | apply always_ret].
Qed.

Lemma always_addFuncTypes FuncTypes :
  always (start_preceded ModInst Idx) (addFuncTypes ModInst FuncTypes).
Proof.
  induction FuncTypes as [|[F|] rest IH]; simpl.
  - apply always_ret.
  - apply (always_bind
             (call (ModInst_addFuncType ModInst (getParamTypes F)
                      (getReturnTypes F)))
             (fun _ => addFuncTypes ModInst rest)).
    + apply always_call. discriminate.
    + intros _. exact IH.
  - intros St h s. simpl. apply start_preceded_not_run. constructor.
Qed.

(** The start block itself. *)
Lemma always_start :
  always (start_preceded ModInst Idx)
    (call (ModInst_setStartIdx ModInst Idx) ;;
     StartAddr <- (Res <- call (ModInst_getStartAddr ModInst) ;;
                   deref Res) ;;
     FuncInst <- (Res <- call (StoreMgr_getFunction StartAddr) ;;
                  deref Res) ;;
     call (runFunction FuncInst [])).
Proof.
  intros St h s. rewrite run_call_bind.
  destruct (h _ (ModInst_setStartIdx ModInst Idx) s) as [[[] s1]|];
    [|apply start_preceded_not_run; constructor].
  cbn beta. rewrite run_bind, run_call_bind.
  destruct (h _ (ModInst_getStartAddr ModInst) s1) as [[[a|e] s2]|];
    [| apply start_preceded_not_run; repeat constructor; discriminate
     | apply start_preceded_not_run; repeat constructor; discriminate ].
  cbn [run deref after trace result final app]. rewrite run_bind, run_call_bind.
  destruct (h _ (StoreMgr_getFunction a) s2) as [[[F|e] s3]|];
    [| apply start_preceded_not_run; repeat constructor; discriminate
     | apply start_preceded_not_run; repeat constructor; discriminate ].
  cbn [run deref after trace result final app]. rewrite run_call.
  destruct (h _ (runFunction F []) s3) as [[x s4]|];
    [| apply start_preceded_not_run; repeat constructor; discriminate ].
  cbn. intros pre ev post E T.
  change [Ev (ModInst_setStartIdx ModInst Idx) ();
          Ev (ModInst_getStartAddr ModInst) (Value a);
          Ev (StoreMgr_getFunction a) (Value F); Ev (runFunction F []) x]
    with (start_lookup ModInst Idx a F ++ Ev (runFunction F []) x :: []) in E.
  symmetry in E.
  apply (split_unique (fun ev => ev_tag ev = trunFunction)) in E
    as (-> & -> & ->); [| exact T | reflexivity | | constructor].
  - exists [], a, F, x. auto.
  - repeat constructor; discriminate.
Qed.

End Start.

Lemma split_after tr k pre ev post :
  Forall not_run tr -> tr ++ k = pre ++ ev :: post ->
  ev_tag ev = trunFunction ->
  exists pre2, pre = tr ++ pre2 /\ k = pre2 ++ ev :: post.
Proof.
  revert pre. induction tr as [|a tr IH]; intros pre F E T; simpl in E.
  - exists pre. auto.
  - inversion F as [|? ? Na F']; subst.
    destruct pre as [|b pre]; simpl in E; injection E as -> E.
    + contradiction.
    + destruct (IH pre F' E T) as (pre2 & -> & ->). exists pre2. auto.
Qed.

Lemma not_run_placement InsMode Name a :
  not_run (Ev (placement InsMode Name) a).
Proof. destruct InsMode; discriminate. Qed.

Ltac all_not_run :=
  repeat (apply List.Forall_cons;
          [first [discriminate | apply not_run_placement]|]);
  apply List.Forall_nil.

Ltac short_run :=
  let E := fresh "E" in
  let T := fresh "T" in
  intros E T; exfalso;
  cbn [run deref after trace result final app] in E;
  eapply not_run_split; [|exact E|exact T]; all_not_run.

Ltac section_always ModInst Idx c :=
  apply always_try;
  [ apply (always_when_present ModInst Idx _ c); discriminate | ].

(** From the retrieval of the instance on, the start function is only
    run after the lookup through that instance. *)
Lemma instantiate_start_lookup {St} (h : Handler St) (s : St)
    InsMode Mod Name Idx pre ev post :
  getStartSection Mod = Some Idx ->
  trace (run h (instantiate InsMode Mod Name) s) = pre ++ ev :: post ->
  ev_tag ev = trunFunction ->
  exists pre' ModInstAddr ModInst StartAddr FuncInst x,
    pre = pre' ++ start_lookup ModInst Idx StartAddr FuncInst /\
    ev = Ev (runFunction FuncInst []) x /\
    Ev (placement InsMode Name) ModInstAddr ∈ pre' /\
    Ev (StoreMgr_getModule ModInstAddr) (Value ModInst) ∈ pre'.
Proof.
  intros Hs. unfold instantiate. rewrite Hs.
  rewrite run_call_bind.
  destruct (h _ StoreMgr_reset s) as [[[] s1]|]; [|short_run].
  cbn beta. rewrite run_call_bind.
  destruct (h _ StackMgr_reset s1) as [[[] s2]|]; [|short_run].
  cbn beta. rewrite run_call_bind.
  destruct (h _ InstrPdr_reset s2) as [[[] s3]|]; [|short_run].
  cbn beta. rewrite run_call_bind.
  destruct (h _ (StoreMgr_findModule Name) s3) as [[[M|] s4]|];
    [short_run| |short_run].
  cbn beta iota zeta. rewrite run_bind.
  assert (P : run h match InsMode with
                    | Instantiate =>
                        call (StoreMgr_pushModule (ModuleInstance_new Name))
                    | ImportWasm =>
                        call (StoreMgr_importModule (ModuleInstance_new Name))
                    end s4
              = run h (call (placement InsMode Name)) s4)
    by (destruct InsMode; reflexivity).
  rewrite P, run_call. clear P.
  destruct (h _ (placement InsMode Name) s4) as [[a s5]|]; [|short_run].
  cbn [trace result final]. cbn zeta. rewrite run_bind, run_call_bind.
  destruct (h _ (StoreMgr_getModule a) s5) as [[[ModInst|e] s6]|];
    [|short_run|short_run].
  cbn [run deref after trace result final app].
  match goal with
  | |- context [run h ?p s6] =>
      assert (HL : always (start_preceded ModInst Idx) p)
  end.
  { apply always_bind.
    { destruct (getTypeSection Mod);
        [apply always_addFuncTypes | apply always_ret]. }
    intros _.
    section_always ModInst Idx (instantiate_ImportSec ModInst). intros _.
    apply always_try.
    { destruct (getFunctionSection Mod), (getCodeSection Mod);
        try apply always_ret. apply always_call. discriminate. }
    intros _.
    section_always ModInst Idx (instantiate_GlobalSec ModInst). intros _.
    section_always ModInst Idx (instantiate_TableSec ModInst). intros _.
    section_always ModInst Idx (instantiate_MemorySec ModInst). intros _.
    apply always_bind; [apply always_call; discriminate|]. intros ModAddr.
    apply always_bind; [apply always_call; discriminate|]. intros _.
    section_always ModInst Idx (resolveExpression_ElemSec ModInst).
    intros ElemOffsets.
    section_always ModInst Idx (resolveExpression_DataSec ModInst).
    intros DataOffsets.
    apply always_bind; [apply always_call; discriminate|]. intros _.
    section_always ModInst Idx
      (fun Sec => instantiate_ElemSec ModInst Sec ElemOffsets). intros _.
    section_always ModInst Idx
      (fun Sec => instantiate_DataSec ModInst Sec DataOffsets). intros _.
    section_always ModInst Idx (instantiate_ExportSec ModInst). intros _.
    apply always_bind.
    { destruct (getCtor Mod);
        [apply always_call; discriminate | apply always_ret]. }
    intros _. apply always_start. }
  specialize (HL St h s6).
  match goal with
  | |- context [run h ?p s6] => generalize dependent (run h p s6)
  end.
  intros r HL E T.
  cbn [run deref after trace result final app] in E.
  apply (split_after
           [Ev StoreMgr_reset (); Ev StackMgr_reset (); Ev InstrPdr_reset ();
            Ev (StoreMgr_findModule Name) None;
            Ev (placement InsMode Name) a;
            Ev (StoreMgr_getModule a) (Value ModInst)])
    in E as (pre2 & -> & E); [|all_not_run|exact T].
  destruct (HL _ _ _ E T) as (pre' & StartAddr & FuncInst & x & -> & ->).
  eexists _, a, ModInst, StartAddr, FuncInst, x.
  split; [rewrite app_assoc; reflexivity|]. split; [reflexivity|].
  split; apply elem_of_app; left; tag_in.
Qed.

(** Before the start function the script has no call of
    [runFunction]. *)
Lemma not_run_before_start InsMode Mod t :
  t ∈ ((script_entry InsMode ++ script_allocate Mod) ++ script_offsets Mod)
      ++ script_initialize Mod ->
  t <> trunFunction.
Proof.
  rewrite !elem_of_app. intros [[[H|H]|H]|H] ->.
  - unfold script_entry in H. destruct InsMode; tag_absurd H.
  - apply elem_of_script_allocate in H. tag_absurd H.
  - apply elem_of_script_offsets in H. tag_absurd H.
  - apply elem_of_script_initialize in H. tag_absurd H.
Qed.

Lemma Follows_not_run InsMode Mod tr o :
  Follows (((script_entry InsMode ++ script_allocate Mod)
            ++ script_offsets Mod) ++ script_initialize Mod) tr o ->
  Forall not_run tr.
Proof.
  intros H. apply Forall_forall. intros ev Hin.
  apply (not_run_before_start InsMode Mod).
  exact (Follows_elem_of _ _ _ _ H Hin).
Qed.

(** The four calls of the start block, in a run that returns. *)
Lemma Follows_start tr o :
  Follows [tModInst_setStartIdx; tModInst_getStartAddr;
           tStoreMgr_getFunction; trunFunction] tr o ->
  o <> Stuck ->
  exists e1 e2 e3 e4,
    tr = [e1; e2; e3; e4] /\ ev_tag e4 = trunFunction /\
    ((ev_proceeds e4 = true /\ o = Finished) \/
     (exists e, ev_returned e4 = Some e /\ o = Failed e)).
Proof.
  intros H Ho.
  apply Follows_cons_inv in H as [[_ Hs]|(e1 & tr1 & -> & T1 & H)];
    [destruct (Ho Hs)|].
  destruct H as [[_ H]|(Hp & _)].
  2:{ rewrite proceeds_unchecked in Hp by (rewrite T1; tag_in).
      discriminate Hp. }
  apply Follows_cons_inv in H as [[_ Hs]|(e2 & tr2 & -> & T2 & H)];
    [destruct (Ho Hs)|].
  destruct H as [[_ H]|(_ & _ & [(e & Hr & _)|[_ Hs]])];
    [| rewrite returned_dereferenced in Hr by (rewrite T2; tag_in);
       discriminate Hr
     | destruct (Ho Hs)].
  apply Follows_cons_inv in H as [[_ Hs]|(e3 & tr3 & -> & T3 & H)];
    [destruct (Ho Hs)|].
  destruct H as [[_ H]|(_ & _ & [(e & Hr & _)|[_ Hs]])];
    [| rewrite returned_dereferenced in Hr by (rewrite T3; tag_in);
       discriminate Hr
     | destruct (Ho Hs)].
  apply Follows_cons_inv in H as [[_ Hs]|(e4 & tr4 & -> & T4 & H)];
    [destruct (Ho Hs)|].
  destruct H as [[Hp H]|(_ & -> & [(e & Hr & ->)|[_ Hs]])];
    [| | destruct (Ho Hs)].
  - apply Follows_nil_inv in H as [-> [->|Hs]]; [|destruct (Ho Hs)].
    exists e1, e2, e3, e4. auto.
  - exists e1, e2, e3, e4. eauto 6.
Qed.

(** The answer of the start function is what [instantiate] returns. *)
Lemma runFunction_returned FuncInst Params (x v : Expect unit) :
  (ev_proceeds (Ev (runFunction FuncInst Params) x) = true /\
   outcome (Some v) = Finished) \/
  (exists e, ev_returned (Ev (runFunction FuncInst Params) x) = Some e /\
             outcome (Some v) = Failed e) ->
  x = v.
Proof.
  simpl. intros [[Hp Ho]|(e & Hr & Ho)].
  - destruct x as [[]|]; [|discriminate Hp].
    destruct v as [[]|]; [reflexivity | discriminate Ho].
  - destruct x as [|e']; [discriminate Hr|]. injection Hr as ->.
    destruct v as [|e']; [discriminate Ho|]. injection Ho as ->. reflexivity.
Qed.

End StartFacts.

(** ** Instantiation on the Store of the design document *)

Module MachineFacts.
Import AST Runtime Interpreter RunFacts ScriptFacts PipelineFacts EventFacts
  TagFacts InstantiateFacts FrameFacts StartFacts.
Import Machine.
Local Open Scope prog_scope.


(** C2, as stated, fails: the offset initializer of
    [bad_offset_module] is not a constant; [instantiate] fails with
    [InvalidInitializer] and returns with the instance still published
    under its name, its table still allocated, the frame still on the
    Stack, and a Store that is not the one it was given. *)
Lemma failed_instantiation_not_rolled_back :
  result (run handle (instantiate Instantiate bad_offset_module "m") initial)
    = Some (Unexpect InvalidInitializer) /\
  findModule
    (StoreMgr (final (run handle (instantiate Instantiate bad_offset_module "m")
                        initial))) "m" = Some 0%Z /\
  length (TabInsts
    (StoreMgr (final (run handle (instantiate Instantiate bad_offset_module "m")
                        initial)))) = 1 /\
  StackMgr (final (run handle (instantiate Instantiate bad_offset_module "m")
                     initial)) <> [] /\
  StoreMgr (final (run handle (instantiate Instantiate bad_offset_module "m")
                     initial)) <> StoreMgr initial.
Proof.
  split; [vm_compute; reflexivity|]. split; [vm_compute; reflexivity|].
  split; [vm_compute; reflexivity|]. split.
  - vm_compute. discriminate.
  - intros E. apply (f_equal ModInsts) in E. vm_compute in E. discriminate E.
Qed.

(** C3, as stated, fails: after a successful [instantiate] under the
    name ["N"], a second one under the same name on the same Store
    succeeds as well, since it begins by purging the Store. *)
Lemma second_instantiate_succeeds :
  result (run handle (instantiate Instantiate empty_module "N") initial)
    = Some (Value tt) /\
  findModule
    (StoreMgr (final (run handle (instantiate Instantiate empty_module "N")
                        initial))) "N" = Some 0%Z /\
  result (run handle (instantiate Instantiate empty_module "N")
            (final (run handle (instantiate Instantiate empty_module "N")
                      initial)))
    = Some (Value tt).
Proof. repeat split; vm_compute; reflexivity. Qed.

(** C4, as stated, fails: when the offset initializer cannot be
    evaluated, [instantiate] returns without a call of [popFrame], and
    the frame it pushed is on the Stack. *)
Lemma frame_left_on_stack :
  result (run handle (instantiate Instantiate bad_offset_module "m") initial)
    = Some (Unexpect InvalidInitializer) /\
  Ev (StackMgr_pushFrame 0 0 0) tt
    ∈ trace (run handle (instantiate Instantiate bad_offset_module "m")
               initial) /\
  Forall (fun ev => ev_tag ev <> tStackMgr_popFrame)
    (trace (run handle (instantiate Instantiate bad_offset_module "m")
              initial)) /\
  StackMgr (final (run handle (instantiate Instantiate bad_offset_module "m")
                     initial)) = [SFrame 0 0 0].
Proof.
  split; [vm_compute; reflexivity|]. split; [vm_compute; tag_in|].
  split; [|vm_compute; reflexivity].
  vm_compute. repeat (apply List.Forall_cons; [discriminate|]).
  apply List.Forall_nil.
Qed.

End MachineFacts.

(** ** Instantiation succeeds when no collaborator fails *)

Module ProgressFacts.
Import AST Runtime Interpreter RunFacts ScriptFacts.
Local Open Scope prog_scope.

Lemma returns_ret {A} (a : A) : returns (Ret a).
Proof. intros St h Hh s. exists a. reflexivity. Qed.

Lemma succeeds_ret {A} (a : A) : succeeds (Ret (Value a)).
Proof. intros St h Hh s. exists a. reflexivity. Qed.

Lemma returns_call {X} (c : Call X) : returns (call c).
Proof.
  intros St h Hh s. rewrite run_call.
  destruct (Hh X c s) as (x & s' & -> & _). exists x. reflexivity.
Qed.

Lemma succeeds_call {A} (c : Call (Expect A)) :
  (forall x, proceeds c x = has_value x) -> succeeds (call c).
Proof.
  intros Hp St h Hh s. rewrite run_call.
  destruct (Hh _ c s) as (x & s' & -> & Px). rewrite Hp in Px.
  destruct x as [v|e]; [|discriminate Px]. exists v. reflexivity.
Qed.

Lemma returns_call_deref {A} (c : Call (Expect A)) :
  (forall x, proceeds c x = has_value x) -> returns (bind (call c) deref).
Proof.
  intros Hp St h Hh s. rewrite run_call_bind.
  destruct (Hh _ c s) as (x & s' & -> & Px). rewrite Hp in Px.
  destruct x as [v|e]; [|discriminate Px]. exists v. reflexivity.
Qed.

Lemma returns_bind {A B} (p : Prog A) (f : A -> Prog B) :
  returns p -> (forall a, returns (f a)) -> returns (bind p f).
Proof.
  intros Hp Hf St h Hh s. rewrite run_bind.
  destruct (Hp St h Hh s) as [a ->].
  destruct (Hf a St h Hh (final (run h p s))) as [b Hb].
  exists b. exact Hb.
Qed.

Lemma succeeds_bind {A B} (p : Prog A) (f : A -> Prog (Expect B)) :
  returns p -> (forall a, succeeds (f a)) -> succeeds (bind p f).
Proof.
  intros Hp Hf St h Hh s. rewrite run_bind.
  destruct (Hp St h Hh s) as [a ->].
  destruct (Hf a St h Hh (final (run h p s))) as [b Hb].
  exists b. exact Hb.
Qed.

Lemma succeeds_try {A B} (p : Prog (Expect A)) (f : A -> Prog (Expect B)) :
  succeeds p -> (forall a, succeeds (f a)) -> succeeds (try p f).
Proof.
  intros Hp Hf St h Hh s. unfold try. rewrite run_bind.
  destruct (Hp St h Hh s) as [a ->].
  destruct (Hf a St h Hh (final (run h p s))) as [b Hb].
  exists b. exact Hb.
Qed.

Lemma succeeds_call_then {X B} (c : Call X) (f : X -> Prog (Expect B)) :
  (forall x, proceeds c x = true -> succeeds (f x)) ->
  succeeds (bind (call c) f).
Proof.
  intros Hf St h Hh s. rewrite run_call_bind.
  destruct (Hh _ c s) as (x & s' & -> & Px).
  destruct (Hf x Px St h Hh s') as [b Hb]. exists b. exact Hb.
Qed.

Lemma succeeds_when_present {S A} (Sec : option S)
    (c : S -> Call (Expect A)) (a : A) :
  (forall x r, proceeds (c x) r = has_value r) ->
  succeeds (match Sec with
            | Some x => call (c x)
            | None => Ret (Value a)
            end).
Proof.
  intros Hp. destruct Sec as [x|];
    [apply succeeds_call, Hp | apply succeeds_ret].
Qed.

Lemma returns_addFuncTypes ModInst FuncTypes :
  Forall is_Some FuncTypes -> returns (addFuncTypes ModInst FuncTypes).
Proof.
  induction 1 as [|Ptr rest [F ->] _ IH]; simpl.
  - apply returns_ret.
  - apply (returns_bind
             (call (ModInst_addFuncType ModInst (getParamTypes F)
                      (getReturnTypes F)))
             (fun _ => addFuncTypes ModInst rest)).
    + apply returns_call.
    + intros _. exact IH.
Qed.

Ltac section_succeeds c :=
  apply succeeds_try; [ apply (succeeds_when_present _ c); reflexivity | ].

(** When every collaborator answers, and answers with success, and the
    type section holds no null pointer, [instantiate] returns success. *)
Lemma instantiate_succeeds {St} (h : Handler St) (s : St) InsMode Mod Name :
  answers_all h ->
  (forall TypeSec, getTypeSection Mod = Some TypeSec ->
                   Forall is_Some TypeSec) ->
  result (run h (instantiate InsMode Mod Name) s) = Some (Value tt).
Proof.
  intros Hh Hty.
  enough (S : succeeds (instantiate InsMode Mod Name)).
  { destruct (S St h Hh s) as [[] ->]. reflexivity. }
  clear St h s Hh. unfold instantiate.
  apply succeeds_bind; [apply returns_call|]. intros _.
  apply succeeds_bind; [apply returns_call|]. intros _.
  apply succeeds_bind; [apply returns_call|]. intros _.
  apply (succeeds_call_then (StoreMgr_findModule Name)).
  intros [M|] Hp; [discriminate Hp|]. clear Hp. cbv zeta.
  apply succeeds_bind; [destruct InsMode; apply returns_call|].
  intros ModInstAddr.
  apply succeeds_bind.
  { apply (returns_call_deref (StoreMgr_getModule _)). reflexivity. }
  intros ModInst.
  apply succeeds_bind.
  { destruct (getTypeSection Mod) as [TypeSec|];
      [apply returns_addFuncTypes, Hty; reflexivity | apply returns_ret]. }
  intros _.
  section_succeeds (instantiate_ImportSec ModInst). intros _.
  apply succeeds_try.
  { destruct (getFunctionSection Mod) as [F|], (getCodeSection Mod) as [C|];
      try apply succeeds_ret.
    apply (succeeds_call (instantiate_FuncSec ModInst F C)). reflexivity. }
  intros _.
  section_succeeds (instantiate_GlobalSec ModInst). intros _.
  section_succeeds (instantiate_TableSec ModInst). intros _.
  section_succeeds (instantiate_MemorySec ModInst). intros _.
  apply succeeds_bind; [apply returns_call|]. intros ModAddr.
  apply succeeds_bind; [apply returns_call|]. intros _.
  section_succeeds (resolveExpression_ElemSec ModInst). intros ElemOffsets.
  section_succeeds (resolveExpression_DataSec ModInst). intros DataOffsets.
  apply succeeds_bind; [apply returns_call|]. intros _.
  section_succeeds (fun Sec => instantiate_ElemSec ModInst Sec ElemOffsets).
  intros _.
  section_succeeds (fun Sec => instantiate_DataSec ModInst Sec DataOffsets).
  intros _.
  section_succeeds (instantiate_ExportSec ModInst). intros _.
  apply succeeds_bind.
  { destruct (getCtor Mod); [apply returns_call | apply returns_ret]. }
  intros _.
  destruct (getStartSection Mod) as [Idx|]; [|apply succeeds_ret].
  apply succeeds_bind; [apply returns_call|]. intros _.
  apply succeeds_bind.
  { apply (returns_call_deref (ModInst_getStartAddr _)). reflexivity. }
  intros StartAddr.
  apply succeeds_bind.
  { apply (returns_call_deref (StoreMgr_getFunction _)). reflexivity. }
  intros FuncInst.
  apply (succeeds_call (runFunction _ _)). reflexivity.
Qed.

(** The scripted collaborators that all succeed are such a handler. *)
Lemma scripted_answers_all :
  answers_all (Scripted.handle Scripted.all_succeed).
Proof.
  intros X c s. destruct c; simpl; eexists _, s; split; reflexivity.
Qed.

End ProgressFacts.

(** ** The reset of the Store *)

Module ResetFacts.
Import AST Runtime Interpreter RunFacts ScriptFacts EventFacts TagFacts
  InstantiateFacts.
Local Open Scope prog_scope.



End ResetFacts.

(** ** The order of the pipeline *)

Module OrderFacts.
Import AST Runtime Interpreter RunFacts ScriptFacts PipelineFacts EventFacts
  TagFacts InstantiateFacts ProgressFacts.
Local Open Scope prog_scope.

(** In a sorted list of steps, what comes before a step in the pipeline
    comes before it in the list. *)
Lemma sorted_steps_before l1 b l2 a :
  StronglySorted before (l1 ++ b :: l2) ->
  a ∈ l1 ++ b :: l2 -> before a b -> a ∈ l1.
Proof.
  intros S Hin Hab. apply elem_of_app in Hin as [Hin|Hin]; [exact Hin|].
  exfalso. apply StronglySorted_app_1_r in S.
  apply StronglySorted_cons in S as [F _].
  apply elem_of_cons in Hin as [->|Hin].
  - unfold before in Hab. lia.
  - rewrite Forall_forall in F. specialize (F a Hin).
    unfold before in *. lia.
Qed.

(** C5: the order of the pipeline, in every run of [instantiate].  The
    steps carried out are, in order, the first of the steps planned for
    the module, which are in the order of the pipeline.  So of two step
    calls the one made first comes first in the pipeline; when a step is
    carried out, every planned step that comes before it in the pipeline
    has been carried out before; and every call that is followed by
    another was answered with success.  A run that returns success has
    carried out all planned steps, and the run does return success when
    no collaborator fails. *)
Theorem instantiate_pipeline_order {St} (h : Handler St) (s : St)
    InsMode Mod Name :
  steps (trace (run h (instantiate InsMode Mod Name) s))
    `prefix_of` planned_steps Mod /\
  planned_steps Mod `sublist_of` pipeline /\
  (forall t1 e1 t2 e2 t3 a b,
     trace (run h (instantiate InsMode Mod Name) s)
       = t1 ++ e1 :: t2 ++ e2 :: t3 ->
     ev_step e1 = Some a -> ev_step e2 = Some b -> before a b) /\
  (forall t1 e2 t2 a b,
     trace (run h (instantiate InsMode Mod Name) s) = t1 ++ e2 :: t2 ->
     ev_step e2 = Some b -> a ∈ planned_steps Mod -> before a b ->
     a ∈ steps t1) /\
  (forall t1 e1 t2,
     trace (run h (instantiate InsMode Mod Name) s) = t1 ++ e1 :: t2 ->
     t2 <> [] -> ev_proceeds e1 = true) /\
  (result (run h (instantiate InsMode Mod Name) s) = Some (Value tt) ->
   steps (trace (run h (instantiate InsMode Mod Name) s))
     = planned_steps Mod) /\
  (answers_all h -> Forall is_Some (type_entries Mod) ->
   result (run h (instantiate InsMode Mod Name) s) = Some (Value tt)).
Proof.
  pose proof (instantiate_follows_script InsMode Mod Name St h s) as H.
  pose proof (Follows_steps _ _ _ _ H) as P.
  pose proof (planned_steps_sorted Mod) as S.
  split; [exact P|]. split; [apply planned_steps_sublist|].
  split; [|split; [|split; [|split]]].
  - intros t1 e1 t2 e2 t3 a b E Ha Hb.
    destruct P as [k Hk]. rewrite E in Hk.
    rewrite steps_app, (steps_cons _ _ _ Ha), steps_app,
      (steps_cons _ _ _ Hb) in Hk.
    rewrite Hk in S.
    change (steps t1 ++ a :: steps t2 ++ b :: steps t3)
      with (steps t1 ++ [a] ++ steps t2 ++ [b] ++ steps t3) in S.
    rewrite <- !app_assoc in S.
    apply StronglySorted_app_1_r in S.
    eapply (StronglySorted_app_1_elem_of _ [a]); [exact S | tag_in |].
    rewrite !elem_of_app. right. left. tag_in.
  - intros t1 e2 t2 a b E Hb Hin Hab.
    destruct P as [k Hk]. rewrite E in Hk.
    rewrite steps_app, (steps_cons _ _ _ Hb), <- app_assoc in Hk.
    rewrite Hk in S, Hin.
    exact (sorted_steps_before _ _ _ _ S Hin Hab).
  - intros t1 e1 t2 E N. exact (Follows_proceeds _ _ _ _ _ _ H E N).
  - apply instantiate_success_steps.
  - intros Hh Hty. apply instantiate_succeeds; [exact Hh|].
    intros TypeSec ET. unfold type_entries in Hty. rewrite ET in Hty.
    exact Hty.
Qed.

End OrderFacts.

(** ** The start function is reached and run *)

Module StartRunFacts.
Import AST Runtime Interpreter RunFacts ScriptFacts PipelineFacts EventFacts
  TagFacts InstantiateFacts StartFacts.
Local Open Scope prog_scope.

(** *** Reaching the start function *)

Lemma ends_ret {A} (Q : list Event -> A -> Prop) (a : A) :
  Q [] a -> ends Q (Ret a).
Proof. intros H St h Hh s. exists a. split; [reflexivity | exact H]. Qed.

Lemma ends_weaken {A} (Q Q' : list Event -> A -> Prop) (p : Prog A) :
  (forall tr a, Q tr a -> Q' tr a) -> ends Q p -> ends Q' p.
Proof.
  intros HQ Hp St h Hh s. destruct (Hp St h Hh s) as (a & E & H).
  exists a. auto.
Qed.

(** A call other than that of the start function is answered so that
    the program goes on. *)
Lemma ends_call {X} (c : Call X) :
  tag c <> trunFunction ->
  ends (fun _ x => proceeds c x = true) (call c).
Proof.
  intros Ht St h Hh s. rewrite run_call.
  destruct (Hh X c s) as (x & s' & -> & Px). exists x.
  split; [reflexivity | exact (Px Ht)].
Qed.

Lemma ends_plain_call {X} (c : Call X) :
  tag c <> trunFunction -> ends (fun _ _ => True) (call c).
Proof.
  intros Ht. apply (ends_weaken (fun _ x => proceeds c x = true)); [auto|].
  apply ends_call, Ht.
Qed.

Lemma ends_call_deref {A} (c : Call (Expect A)) :
  tag c <> trunFunction ->
  (forall x, proceeds c x = has_value x) ->
  ends (fun _ _ => True) (bind (call c) deref).
Proof.
  intros Ht Hp St h Hh s. rewrite run_call_bind.
  destruct (Hh _ c s) as (x & s' & -> & Px). specialize (Px Ht).
  rewrite Hp in Px. destruct x as [v|e]; [|discriminate Px].
  exists v. split; [reflexivity | exact I].
Qed.

(** The call of the start function: its answer is what is returned. *)
Lemma ends_runFunction FuncInst :
  ends (fun tr v => tr = [Ev (runFunction FuncInst []) v])
    (call (runFunction FuncInst [])).
Proof.
  intros St h Hh s. rewrite run_call.
  destruct (Hh _ (runFunction FuncInst []) s) as (x & s' & -> & _).
  exists x. split; reflexivity.
Qed.

(** Sequencing, for a property of the end of the trace. *)
Lemma ends_bind {A B} (Q1 : list Event -> A -> Prop)
    (Q : list Event -> B -> Prop) (p : Prog A) (f : A -> Prog B) :
  (forall tr1 tr2 b, Q tr2 b -> Q (tr1 ++ tr2) b) ->
  ends Q1 p ->
  (forall tr a, Q1 tr a -> ends Q (f a)) ->
  ends Q (bind p f).
Proof.
  intros HQ Hp Hf St h Hh s. rewrite run_bind.
  destruct (Hp St h Hh s) as (a & -> & H1).
  destruct (Hf _ a H1 St h Hh (final (run h p s))) as (b & Eb & H2).
  exists b. split; [exact Eb | apply HQ, H2].
Qed.

Lemma ends_try {A B} (Q : list Event -> Expect B -> Prop)
    (p : Prog (Expect A)) (f : A -> Prog (Expect B)) :
  (forall tr1 tr2 b, Q tr2 b -> Q (tr1 ++ tr2) b) ->
  ends (fun _ r => has_value r = true) p ->
  (forall a, ends Q (f a)) ->
  ends Q (try p f).
Proof.
  intros HQ Hp Hf. unfold try.
  apply (ends_bind (fun _ r => has_value r = true)); [exact HQ | exact Hp|].
  intros _ [a|e] Hv; [apply Hf | discriminate Hv].
Qed.

Lemma ends_when_present {S A} (Sec : option S) (c : S -> Call (Expect A))
    (a : A) :
  (forall x, tag (c x) <> trunFunction) ->
  (forall x r, proceeds (c x) r = has_value r) ->
  ends (fun _ r => has_value r = true)
    (match Sec with
     | Some x => call (c x)
     | None => Ret (Value a)
     end).
Proof.
  intros Ht Hp. destruct Sec as [x|].
  - apply (ends_weaken (fun _ r => proceeds (c x) r = true)).
    + intros _ r. rewrite Hp. auto.
    + apply ends_call, Ht.
  - apply ends_ret. reflexivity.
Qed.

Lemma ends_addFuncTypes ModInst FuncTypes :
  Forall is_Some FuncTypes ->
  ends (fun _ _ => True) (addFuncTypes ModInst FuncTypes).
Proof.
  induction 1 as [|Ptr rest [F ->] _ IH]; simpl.
  - apply ends_ret. exact I.
  - apply (ends_bind (fun _ _ => True) (fun _ _ => True)
             (call (ModInst_addFuncType ModInst (getParamTypes F)
                      (getReturnTypes F)))
             (fun _ => addFuncTypes ModInst rest)).
    + auto.
    + apply ends_plain_call. discriminate.
    + intros _ _ _. exact IH.
Qed.

Lemma start_run_app Mod tr1 tr2 v :
  start_run Mod tr2 v -> start_run Mod (tr1 ++ tr2) v.
Proof.
  unfold start_run. destruct (getStartSection Mod); [|auto].
  intros (tr0 & F & ->). exists (tr1 ++ tr0), F. apply app_assoc.
Qed.

Ltac plain_ends :=
  apply (ends_bind (fun _ _ => True));
  [ apply start_run_app
  | apply ends_plain_call; discriminate
  | intros _ ].

Ltac section_ends c :=
  apply ends_try;
  [ apply start_run_app
  | apply (ends_when_present _ c); [discriminate | reflexivity]
  | ].

(** When nothing fails before it, the start function is reached. *)
Lemma instantiate_ends InsMode Mod Name :
  Forall is_Some (type_entries Mod) ->
  ends (start_run Mod) (instantiate InsMode Mod Name).
Proof.
  intros Hty. unfold instantiate.
  plain_ends. intros _ _.
  plain_ends. intros _ _.
  plain_ends. intros _ _.
  apply (ends_bind (fun _ x => proceeds (StoreMgr_findModule Name) x = true));
    [apply start_run_app | apply ends_call; discriminate|].
  intros _ [Found|] Hp; [discriminate Hp|]. clear Hp. cbv zeta.
  apply (ends_bind (fun _ _ => True)); [apply start_run_app | |].
  { destruct InsMode;
      apply ends_plain_call; discriminate. }
  intros _ ModInstAddr _.
  apply (ends_bind (fun _ _ => True)); [apply start_run_app | |].
  { apply (ends_call_deref (StoreMgr_getModule _)); [discriminate|].
    reflexivity. }
  intros _ ModInst _.
  apply (ends_bind (fun _ _ => True)); [apply start_run_app | |].
  { unfold type_entries in Hty.
    destruct (getTypeSection Mod) as [TypeSec|];
      [apply ends_addFuncTypes, Hty | apply ends_ret; exact I]. }
  intros _ _ _.
  section_ends (instantiate_ImportSec ModInst). intros _.
  apply ends_try; [apply start_run_app | |].
  { destruct (getFunctionSection Mod) as [F|], (getCodeSection Mod) as [C|];
      try (apply ends_ret; reflexivity).
    apply (ends_when_present (Some C) (instantiate_FuncSec ModInst F) tt);
      [discriminate | reflexivity]. }
  intros _.
  section_ends (instantiate_GlobalSec ModInst). intros _.
  section_ends (instantiate_TableSec ModInst). intros _.
  section_ends (instantiate_MemorySec ModInst). intros _.
  plain_ends. intros ModAddr _.
  plain_ends. intros _ _.
  section_ends (resolveExpression_ElemSec ModInst). intros ElemOffsets.
  section_ends (resolveExpression_DataSec ModInst). intros DataOffsets.
  plain_ends. intros _ _.
  section_ends (fun Sec => instantiate_ElemSec ModInst Sec ElemOffsets).
  intros _.
  section_ends (fun Sec => instantiate_DataSec ModInst Sec DataOffsets).
  intros _.
  section_ends (instantiate_ExportSec ModInst). intros _.
  apply (ends_bind (fun _ _ => True)); [apply start_run_app | |].
  { destruct (getCtor Mod);
      [ apply ends_plain_call; discriminate
      | apply ends_ret; exact I ]. }
  intros _ _ _.
  unfold start_run. destruct (getStartSection Mod) as [Idx|];
    [|apply ends_ret; reflexivity].
  assert (HQ : forall tr1 tr2 (b : Expect unit),
             (exists tr0 FuncInst,
                tr2 = tr0 ++ [Ev (runFunction FuncInst []) b]) ->
             exists tr0 FuncInst,
               tr1 ++ tr2 = tr0 ++ [Ev (runFunction FuncInst []) b]).
  { intros tr1 tr2 b (tr0 & F & ->). exists (tr1 ++ tr0), F.
    apply app_assoc. }
  apply (ends_bind (fun _ _ => True)); [exact HQ | |].
  { apply ends_plain_call; discriminate. }
  intros _ _ _.
  apply (ends_bind (fun _ _ => True)); [exact HQ | |].
  { apply (ends_call_deref (ModInst_getStartAddr _)); [discriminate|].
    reflexivity. }
  intros _ StartAddr _.
  apply (ends_bind (fun _ _ => True)); [exact HQ | |].
  { apply (ends_call_deref (StoreMgr_getFunction _)); [discriminate|].
    reflexivity. }
  intros _ FuncInst _.
  apply (ends_weaken (fun tr v => tr = [Ev (runFunction FuncInst []) v])).
  - intros tr v ->. exists [], FuncInst. reflexivity.
  - apply ends_runFunction.
Qed.

(** *** The start function *)

(** What a run that returns has done. *)
Lemma instantiate_start_returned {St} (h : Handler St) (s : St)
    InsMode Mod Name v :
  result (run h (instantiate InsMode Mod Name) s) = Some v ->
  match getStartSection Mod with
  | Some Idx =>
      (exists tr0 ModInstAddr ModInst StartAddr FuncInst,
         trace (run h (instantiate InsMode Mod Name) s)
           = tr0 ++ start_lookup ModInst Idx StartAddr FuncInst
                 ++ [Ev (runFunction FuncInst []) v] /\
         Ev (placement InsMode Name) ModInstAddr ∈ tr0 /\
         Ev (StoreMgr_getModule ModInstAddr) (Value ModInst) ∈ tr0 /\
         Forall not_run tr0 /\
         Forall (fun ev => ev_proceeds ev = true) tr0) \/
      (exists e tr0 ev,
         v = Unexpect e /\
         trace (run h (instantiate InsMode Mod Name) s) = tr0 ++ [ev] /\
         ev_proceeds ev = false /\
         ev_returned ev = Some e /\
         Forall not_run (trace (run h (instantiate InsMode Mod Name) s)) /\
         Forall (fun ev => ev_proceeds ev = true) tr0)
  | None =>
      Forall not_run (trace (run h (instantiate InsMode Mod Name) s)) /\
      ((v = Value tt /\
        steps (trace (run h (instantiate InsMode Mod Name) s))
          = planned_steps Mod) \/
       (exists e tr0 ev,
          v = Unexpect e /\
          trace (run h (instantiate InsMode Mod Name) s) = tr0 ++ [ev] /\
          ev_proceeds ev = false /\
          ev_returned ev = Some e /\
          Forall (fun ev => ev_proceeds ev = true) tr0))
  end.
Proof.
  intros Er.
  pose proof (instantiate_follows_script InsMode Mod Name St h s) as H.
  rewrite Er in H.
  assert (Ho : outcome (Some v) <> Stuck) by (destruct v; discriminate).
  unfold script in H. rewrite !app_assoc in H.
  destruct (getStartSection Mod) as [Idx|] eqn:Hs.
  - apply Follows_app_inv in H as [(tr1 & tr2 & E & H1 & H2)|[Hnf H1]].
    + unfold script_start in H2. rewrite Hs in H2.
      apply Follows_start in H2 as (e1 & e2 & e3 & e4 & -> & T4 & Hend);
        [|exact Ho].
      left.
      assert (E' : trace (run h (instantiate InsMode Mod Name) s)
                   = (tr1 ++ [e1; e2; e3]) ++ e4 :: [])
        by (rewrite E, <- app_assoc; reflexivity).
      destruct (instantiate_start_lookup h s _ _ _ _ _ _ _ Hs E' T4)
        as (pre' & a & ModInst & StartAddr & FuncInst & x & Epre & -> &
            Pl & Gm).
      apply app_inj_2 in Epre as [<- E123]; [|reflexivity].
      apply runFunction_returned in Hend. subst x.
      exists tr1, a, ModInst, StartAddr, FuncInst.
      split; [rewrite E, <- E123; reflexivity|].
      split; [exact Pl|]. split; [exact Gm|].
      split; [exact (Follows_not_run _ _ _ _ H1)|].
      apply (Follows_finished _ _ H1).
    + right. destruct v as [u|e]; [destruct Hnf; reflexivity|].
      cbn [outcome] in H1.
      destruct (Follows_failed _ _ _ H1) as (tr0 & ev & E & Hp & Hr & Hall).
      exists e, tr0, ev. split; [reflexivity|]. split; [exact E|].
      split; [exact Hp|]. split; [exact Hr|].
      split; [exact (Follows_not_run _ _ _ _ H1) | exact Hall].
  - unfold script_start in H. rewrite Hs, app_nil_r in H.
    split; [exact (Follows_not_run _ _ _ _ H)|].
    destruct v as [[]|e].
    + left. split; [reflexivity|].
      apply instantiate_success_steps. exact Er.
    + right. cbn [outcome] in H.
      destruct (Follows_failed _ _ _ H) as (tr0 & ev & E & Hp & Hr & Hall).
      exists e, tr0, ev. auto 6.
Qed.

(** C6: the start function.  In a run of [instantiate] that returns, on
    a module with a Start section, either the last four calls set the
    start index in the new instance, resolve it through that instance
    to a Store address, fetch the function at that address and run it
    on an empty argument vector, and what [instantiate] returns is the
    answer of that run, a trap included; or the last call made is an
    earlier one, which failed, and [instantiate] returns its error.
    When no call before that of the start function fails, the run does
    return and it is of the first kind: the start function is looked
    up and run.  Without a Start section no function is run; a run that
    returns has carried out all planned steps and returns success, or
    its last call failed; when no call fails it returns success. *)
Theorem instantiate_start_function {St} (h : Handler St) (s : St)
    InsMode Mod Name :
  (forall v,
     result (run h (instantiate InsMode Mod Name) s) = Some v ->
     match getStartSection Mod with
     | Some Idx =>
         (exists tr0 ModInstAddr ModInst StartAddr FuncInst,
            trace (run h (instantiate InsMode Mod Name) s)
              = tr0 ++ start_lookup ModInst Idx StartAddr FuncInst
                    ++ [Ev (runFunction FuncInst []) v] /\
            Ev (placement InsMode Name) ModInstAddr ∈ tr0 /\
            Ev (StoreMgr_getModule ModInstAddr) (Value ModInst) ∈ tr0 /\
            Forall not_run tr0 /\
            Forall (fun ev => ev_proceeds ev = true) tr0) \/
         (exists e tr0 ev,
            v = Unexpect e /\
            trace (run h (instantiate InsMode Mod Name) s) = tr0 ++ [ev] /\
            ev_proceeds ev = false /\
            ev_returned ev = Some e /\
            Forall not_run (trace (run h (instantiate InsMode Mod Name) s)) /\
            Forall (fun ev => ev_proceeds ev = true) tr0)
     | None =>
         Forall not_run (trace (run h (instantiate InsMode Mod Name) s)) /\
         ((v = Value tt /\
           steps (trace (run h (instantiate InsMode Mod Name) s))
             = planned_steps Mod) \/
          (exists e tr0 ev,
             v = Unexpect e /\
             trace (run h (instantiate InsMode Mod Name) s) = tr0 ++ [ev] /\
             ev_proceeds ev = false /\
             ev_returned ev = Some e /\
             Forall (fun ev => ev_proceeds ev = true) tr0))
     end) /\
  (answers_until_start h -> Forall is_Some (type_entries Mod) ->
   match getStartSection Mod with
   | Some Idx =>
       exists tr0 ModInstAddr ModInst StartAddr FuncInst v,
         trace (run h (instantiate InsMode Mod Name) s)
           = tr0 ++ start_lookup ModInst Idx StartAddr FuncInst
                 ++ [Ev (runFunction FuncInst []) v] /\
         result (run h (instantiate InsMode Mod Name) s) = Some v /\
         Ev (placement InsMode Name) ModInstAddr ∈ tr0 /\
         Ev (StoreMgr_getModule ModInstAddr) (Value ModInst) ∈ tr0 /\
         Forall not_run tr0 /\
         Forall (fun ev => ev_proceeds ev = true) tr0
   | None =>
       result (run h (instantiate InsMode Mod Name) s) = Some (Value tt) /\
       steps (trace (run h (instantiate InsMode Mod Name) s))
         = planned_steps Mod
   end).
Proof.
  split; [intros v; apply instantiate_start_returned|].
  intros Hh Hty.
  destruct (instantiate_ends InsMode Mod Name Hty St h Hh s) as (v & Er & Hv).
  pose proof (instantiate_start_returned h s InsMode Mod Name v Er) as H.
  unfold start_run in Hv.
  destruct (getStartSection Mod) as [Idx|].
  - destruct Hv as (tr1 & F & E1).
    destruct H as [(tr0 & a & M & SA & FI & E & Pl & Gm & Nr & Pr)
                  |(e & tr0 & ev & _ & _ & _ & _ & Nr & _)].
    + exists tr0, a, M, SA, FI, v. auto 10.
    + exfalso. rewrite E1, Forall_app, Forall_singleton in Nr.
      destruct Nr as [_ Nr]. apply Nr. reflexivity.
  - subst v. split; [exact Er|].
    apply instantiate_success_steps, Er.
Qed.

End StartRunFacts.

(** ** Runs that exhibit the properties *)

Module Examples.
Import AST Runtime Interpreter RunFacts ScriptFacts PipelineFacts EventFacts
  TagFacts InstantiateFacts FrameFacts StartFacts MachineFacts ProgressFacts
  ResetFacts OrderFacts StartRunFacts.
Local Open Scope prog_scope.


(** On [Scripted.sample_module] with every call answered with success
    all planned steps are carried out; import resolution comes before
    global allocation, and has been carried out when the globals are
    allocated. *)
Lemma instantiate_pipeline_order_witness :
  result (run (Scripted.handle Scripted.all_succeed)
            (instantiate Instantiate Scripted.sample_module "m") tt)
    = Some (Value tt) /\
  steps (trace (run (Scripted.handle Scripted.all_succeed)
                  (instantiate Instantiate Scripted.sample_module "m") tt))
    = planned_steps Scripted.sample_module /\
  before ResolveImports AllocateGlobals /\
  ResolveImports
    ∈ steps (take 7 (trace (run (Scripted.handle Scripted.all_succeed)
                              (instantiate Instantiate Scripted.sample_module
                                 "m") tt))).
Proof.
  destruct (instantiate_pipeline_order
              (Scripted.handle Scripted.all_succeed) tt Instantiate
              Scripted.sample_module "m")
    as (_ & _ & Hpair & Hskip & _ & Hsucc & Hprog).
  assert (R : result (run (Scripted.handle Scripted.all_succeed)
                        (instantiate Instantiate Scripted.sample_module "m")
                        tt) = Some (Value tt)).
  { apply Hprog; [apply scripted_answers_all | constructor]. }
  split; [exact R|]. split; [exact (Hsucc R)|]. split.
  - apply (Hpair
             (take 6 (trace (run (Scripted.handle Scripted.all_succeed)
                               (instantiate Instantiate Scripted.sample_module
                                  "m") tt)))
             (Ev (instantiate_ImportSec 0%Z Scripted.sample_imports)
                (Value tt))
             []
             (Ev (instantiate_GlobalSec 0%Z Scripted.sample_globals)
                (Value tt))
             (drop 8 (trace (run (Scripted.handle Scripted.all_succeed)
                               (instantiate Instantiate Scripted.sample_module
                                  "m") tt))));
      reflexivity.
  - apply (Hskip
             (take 7 (trace (run (Scripted.handle Scripted.all_succeed)
                               (instantiate Instantiate Scripted.sample_module
                                  "m") tt)))
             (Ev (instantiate_GlobalSec 0%Z Scripted.sample_globals)
                (Value tt))
             (drop 8 (trace (run (Scripted.handle Scripted.all_succeed)
                               (instantiate Instantiate Scripted.sample_module
                                  "m") tt)))
             ResolveImports AllocateGlobals).
    + reflexivity.
    + reflexivity.
    + vm_compute. tag_in.
    + unfold before. simpl. lia.
Defined.

(** A start function that traps: every call before it succeeds, the
    start function is looked up and run, and its trap is returned. *)
Lemma instantiate_start_function_witness :
  exists tr0 ModInstAddr ModInst StartAddr FuncInst,
    trace (run (Scripted.handle (Scripted.fail_at trunFunction StartTrap))
             (instantiate Instantiate Scripted.sample_module "m") tt)
      = tr0 ++ start_lookup ModInst 3 StartAddr FuncInst
            ++ [Ev (runFunction FuncInst []) (Unexpect StartTrap)] /\
    result (run (Scripted.handle (Scripted.fail_at trunFunction StartTrap))
              (instantiate Instantiate Scripted.sample_module "m") tt)
      = Some (Unexpect StartTrap) /\
    Ev (placement Instantiate "m") ModInstAddr ∈ tr0 /\
    Ev (StoreMgr_getModule ModInstAddr) (Value ModInst) ∈ tr0 /\
    Forall not_run tr0 /\
    Forall (fun ev => ev_proceeds ev = true) tr0.
Proof.
  destruct (instantiate_start_function
              (Scripted.handle (Scripted.fail_at trunFunction StartTrap)) tt
              Instantiate Scripted.sample_module "m") as [_ H].
  destruct H as (tr0 & a & M & SA & F & v & E & R & Rest).
  - intros X c st. destruct c; eexists _, st; (split; [reflexivity|]);
      intros N; try reflexivity.
    destruct N. reflexivity.
  - constructor.
  - assert (Ev' : v = Unexpect StartTrap).
    { vm_compute in R. injection R as <-. reflexivity. }
    subst v. exists tr0, a, M, SA, F. auto.
Defined.

(** A module with a Function section and no Code section. *)
Lemma instantiate_skips_functions_witness :
  instantiate Instantiate Scripted.no_code_module "m"
    = instantiate Instantiate (without_functions Scripted.no_code_module) "m" /\
  Forall (fun ev => ev_tag ev <> tinstantiate_FuncSec)
    (trace (run (Scripted.handle Scripted.all_succeed)
              (instantiate Instantiate Scripted.no_code_module "m") tt)).
Proof.
  apply (instantiate_skips_functions
           (Scripted.handle Scripted.all_succeed) tt Instantiate
           Scripted.no_code_module "m").
  right. reflexivity.
Defined.

(** The failure of [Machine.bad_offset_module] on the initial state. *)
Lemma instantiate_failure_returns_at_once_witness :
  exists tr0 ev s0,
    trace (run Machine.handle
             (instantiate Instantiate Machine.bad_offset_module "m")
             Machine.initial) = tr0 ++ [ev] /\
    Ev (StoreMgr_pushModule (ModuleInstance_new "m")) 0%Z ∈ tr0 /\
    Forall (fun ev' => ev_proceeds ev' = true) tr0 /\
    ev_error ev = Some InvalidInitializer /\
    match ev with
    | Ev c x =>
        Machine.handle _ c s0
        = Some (x, final (run Machine.handle
                            (instantiate Instantiate Machine.bad_offset_module
                               "m") Machine.initial))
    end.
Proof.
  apply (instantiate_failure_returns_at_once Machine.handle Machine.initial
           Instantiate Machine.bad_offset_module "m" InvalidInitializer
           (Ev (StoreMgr_pushModule (ModuleInstance_new "m")) 0%Z)).
  - vm_compute. reflexivity.
  - vm_compute. tag_in.
  - left. reflexivity.
Defined.

(** A run in which the name check finds a module. *)
Lemma instantiate_name_conflict_witness :
  result (run (Scripted.handle
                 (Scripted.fail_at tStoreMgr_findModule ModuleNameConflict))
            (instantiate Instantiate Scripted.sample_module "m") tt)
    = Some (Unexpect ModuleNameConflict) /\
  trace (run (Scripted.handle
                (Scripted.fail_at tStoreMgr_findModule ModuleNameConflict))
           (instantiate Instantiate Scripted.sample_module "m") tt)
    = [Ev StoreMgr_reset tt; Ev StackMgr_reset tt; Ev InstrPdr_reset tt;
       Ev (StoreMgr_findModule "m") (Some 0%Z)].
Proof.
  apply (instantiate_name_conflict
           (Scripted.handle
              (Scripted.fail_at tStoreMgr_findModule ModuleNameConflict))
           tt Instantiate Scripted.sample_module "m" 0%Z).
  vm_compute. tag_in.
Defined.

(** The frame of [Machine.bad_offset_module], whose offset cannot be
    resolved. *)
Lemma frame_popped_unless_offsets_fail_witness :
  (exists offs popped t3,
     drop 9 (trace (run Machine.handle
                      (instantiate Instantiate Machine.bad_offset_module "m")
                      Machine.initial))
       = offs ++ popped :: t3 /\
     ev_tag popped = tStackMgr_popFrame /\ Forall resolved offs) \/
  (exists offs failed e,
     drop 9 (trace (run Machine.handle
                      (instantiate Instantiate Machine.bad_offset_module "m")
                      Machine.initial))
       = offs ++ [failed] /\
     ev_tag failed
       ∈ [tresolveExpression_ElemSec; tresolveExpression_DataSec] /\
     ev_error failed = Some e /\
     @Unexpect unit InvalidInitializer = Unexpect e /\
     Forall resolved offs).
Proof.
  apply (frame_popped_unless_offsets_fail Machine.handle Machine.initial
           Instantiate Machine.bad_offset_module "m"
           (Unexpect InvalidInitializer)
           (take 8 (trace (run Machine.handle
                             (instantiate Instantiate
                                Machine.bad_offset_module "m")
                             Machine.initial)))
           (Ev (StackMgr_pushFrame 0 0 0) tt)).
  - vm_compute. reflexivity.
  - vm_compute. reflexivity.
  - reflexivity.
Defined.

(** [Scripted.sample_module] is instantiated with success when no
    collaborator fails. *)
Example sample_module_instantiated :
  result (run (Scripted.handle Scripted.all_succeed)
            (instantiate Instantiate Scripted.sample_module "m") tt)
    = Some (Value tt).
Proof.
  apply instantiate_succeeds; [apply scripted_answers_all|].
  intros TypeSec E. discriminate E.
Qed.

End Examples.

(** ** Every call of a program *)

Module TraceLogic.
Import AST Runtime Interpreter RunFacts.
Local Open Scope prog_scope.

Lemma each_call_sound {A} (P : Event -> Prop) (p : Prog A) :
  each_call P p -> always (Forall P) p.
Proof.
  intros H St h. induction p as [a| |X c k IH]; intros s; simpl.
  - constructor.
  - constructor.
  - destruct (h X c s) as [[x s']|]; simpl; [|constructor].
    destruct (H x) as [Hx Hk]. constructor; [exact Hx | apply IH, Hk].
Qed.

Lemma each_call_bind {A B} (P : Event -> Prop) (p : Prog A)
    (f : A -> Prog B) :
  each_call P p -> (forall a, each_call P (f a)) -> each_call P (bind p f).
Proof.
  intros Hp Hf. induction p as [a| |X c k IH]; simpl.
  - apply Hf.
  - exact I.
  - intros x. destruct (Hp x) as [Hx Hk]. split; [exact Hx | apply IH, Hk].
Qed.

Lemma each_call_try {A B} (P : Event -> Prop) (p : Prog (Expect A))
    (f : A -> Prog (Expect B)) :
  each_call P p -> (forall a, each_call P (f a)) -> each_call P (try p f).
Proof.
  intros Hp Hf. apply each_call_bind; [exact Hp|].
  intros [a|e]; [apply Hf | exact I].
Qed.

Lemma each_call_call {X} (P : Event -> Prop) (c : Call X) :
  (forall x, P (Ev c x)) -> each_call P (call c).
Proof. intros H x. split; [apply H | exact I]. Qed.

End TraceLogic.

(** ** The calls of [instantiate], one by one *)

Module CallFacts.
Import AST Runtime Interpreter RunFacts TraceLogic.
Local Open Scope prog_scope.

Lemma each_call_addFuncTypes (P : Event -> Prop) ModInst FuncTypes :
  (forall F x, Some F ∈ FuncTypes ->
     P (Ev (ModInst_addFuncType ModInst (getParamTypes F) (getReturnTypes F))
          x)) ->
  each_call P (addFuncTypes ModInst FuncTypes).
Proof.
  induction FuncTypes as [|[F|] rest IH]; intros H; simpl; try exact I.
  intros x. split.
  - apply H. left.
  - apply IH. intros F' x' Hin. apply H. right. exact Hin.
Qed.

(** The calls of [instantiate], one by one: a property of events holds
    of every call when it holds of each call of the source, whatever
    its answer. *)
Lemma each_call_instantiate (P : Event -> Prop) InsMode Mod Name :
  (forall x, P (Ev StoreMgr_reset x)) ->
  (forall x, P (Ev StackMgr_reset x)) ->
  (forall x, P (Ev InstrPdr_reset x)) ->
  (forall x, P (Ev (StoreMgr_findModule Name) x)) ->
  (forall x, P (Ev (placement InsMode Name) x)) ->
  (forall a x, P (Ev (StoreMgr_getModule a) x)) ->
  (forall M TypeSec F x,
     getTypeSection Mod = Some TypeSec -> Some F ∈ TypeSec ->
     P (Ev (ModInst_addFuncType M (getParamTypes F) (getReturnTypes F)) x)) ->
  (forall M Sec x, getImportSection Mod = Some Sec ->
     P (Ev (instantiate_ImportSec M Sec) x)) ->
  (forall M FuncSec CodeSec x,
     getFunctionSection Mod = Some FuncSec ->
     getCodeSection Mod = Some CodeSec ->
     P (Ev (instantiate_FuncSec M FuncSec CodeSec) x)) ->
  (forall M Sec x, getGlobalSection Mod = Some Sec ->
     P (Ev (instantiate_GlobalSec M Sec) x)) ->
  (forall M Sec x, getTableSection Mod = Some Sec ->
     P (Ev (instantiate_TableSec M Sec) x)) ->
  (forall M Sec x, getMemorySection Mod = Some Sec ->
     P (Ev (instantiate_MemorySec M Sec) x)) ->
  (forall M x, P (Ev (ModInst_Addr M) x)) ->
  (forall A x, P (Ev (StackMgr_pushFrame A 0 0) x)) ->
  (forall M Sec x, getElementSection Mod = Some Sec ->
     P (Ev (resolveExpression_ElemSec M Sec) x)) ->
  (forall M Sec x, getDataSection Mod = Some Sec ->
     P (Ev (resolveExpression_DataSec M Sec) x)) ->
  (forall x, P (Ev StackMgr_popFrame x)) ->
  (forall M Sec Offsets x, getElementSection Mod = Some Sec ->
     P (Ev (instantiate_ElemSec M Sec Offsets) x)) ->
  (forall M Sec Offsets x, getDataSection Mod = Some Sec ->
     P (Ev (instantiate_DataSec M Sec Offsets) x)) ->
  (forall M Sec x, getExportSection Mod = Some Sec ->
     P (Ev (instantiate_ExportSec M Sec) x)) ->
  (forall F x, getCtor Mod = Some F -> P (Ev (CtorFunc F) x)) ->
  (forall M Idx x, getStartSection Mod = Some Idx ->
     P (Ev (ModInst_setStartIdx M Idx) x)) ->
  (forall M x, P (Ev (ModInst_getStartAddr M) x)) ->
  (forall a x, P (Ev (StoreMgr_getFunction a) x)) ->
  (forall F x, P (Ev (runFunction F []) x)) ->
  each_call P (instantiate InsMode Mod Name).
Proof.
  intros Hreset Hsreset Hireset Hfind Hplace Hget Htype Himp Hfunc Hglob Htab
    Hmem Haddr Hpush Hrelem Hrdata Hpop Helem Hdata Hexp Hctor Hset Hsaddr
    Hgetf Hrun.
  unfold instantiate.
  apply each_call_bind; [apply each_call_call, Hreset|]. intros _.
  apply each_call_bind; [apply each_call_call, Hsreset|]. intros _.
  apply each_call_bind; [apply each_call_call, Hireset|]. intros _.
  apply each_call_bind; [apply each_call_call, Hfind|].
  intros [Found|]; [exact I|]. cbv zeta.
  apply each_call_bind.
  { destruct InsMode; apply each_call_call, Hplace. }
  intros ModInstAddr.
  apply each_call_bind.
  { apply each_call_bind; [apply each_call_call, Hget|].
    intros [M|e]; exact I. }
  intros ModInst.
  apply each_call_bind.
  { destruct (getTypeSection Mod) as [TypeSec|] eqn:E; [|exact I].
    apply each_call_addFuncTypes. intros F x Hin.
    apply (Htype ModInst TypeSec F x eq_refl Hin). }
  intros _.
  apply each_call_try.
  { destruct (getImportSection Mod) as [Sec|] eqn:E; [|exact I].
    apply each_call_call. intros x. apply Himp. reflexivity. }
  intros _.
  apply each_call_try.
  { destruct (getFunctionSection Mod) as [FuncSec|] eqn:E1,
      (getCodeSection Mod) as [CodeSec|] eqn:E2; try exact I.
    apply each_call_call. intros x. apply Hfunc; reflexivity. }
  intros _.
  apply each_call_try.
  { destruct (getGlobalSection Mod) as [Sec|] eqn:E; [|exact I].
    apply each_call_call. intros x. apply Hglob. reflexivity. }
  intros _.
  apply each_call_try.
  { destruct (getTableSection Mod) as [Sec|] eqn:E; [|exact I].
    apply each_call_call. intros x. apply Htab. reflexivity. }
  intros _.
  apply each_call_try.
  { destruct (getMemorySection Mod) as [Sec|] eqn:E; [|exact I].
    apply each_call_call. intros x. apply Hmem. reflexivity. }
  intros _.
  apply each_call_bind; [apply each_call_call, Haddr|]. intros ModAddr.
  apply each_call_bind; [apply each_call_call, Hpush|]. intros _.
  destruct (getElementSection Mod) as [ElemSec|] eqn:EE;
    destruct (getDataSection Mod) as [DataSec|] eqn:ED.
  all: apply each_call_try;
    [first [exact I | apply each_call_call; intros x;
                      apply Hrelem; reflexivity] |];
    intros ElemOffsets;
    apply each_call_try;
    [first [exact I | apply each_call_call; intros x;
                      apply Hrdata; reflexivity] |];
    intros DataOffsets;
    (apply each_call_bind; [apply each_call_call, Hpop|]); intros _;
    apply each_call_try;
    [first [exact I | apply each_call_call; intros x;
                      apply Helem; reflexivity] |];
    intros _;
    apply each_call_try;
    [first [exact I | apply each_call_call; intros x;
                      apply Hdata; reflexivity] |];
    intros _;
    (apply each_call_try;
     [destruct (getExportSection Mod) as [Sec|] eqn:E; [|exact I];
      apply each_call_call; intros x; apply Hexp; reflexivity |]);
    intros _;
    (apply each_call_bind;
     [destruct (getCtor Mod) as [F|] eqn:E; [|exact I];
      apply each_call_call; intros x; apply Hctor; reflexivity |]);
    intros _;
    (destruct (getStartSection Mod) as [Idx|] eqn:E; [|exact I]);
    (apply each_call_bind;
     [apply each_call_call; intros x; apply Hset; reflexivity |]);
    intros _;
    (apply each_call_bind;
     [apply each_call_bind; [apply each_call_call, Hsaddr|];
      intros [v|e]; exact I |]);
    intros StartAddr;
    (apply each_call_bind;
     [apply each_call_bind; [apply each_call_call, Hgetf|];
      intros [v|e]; exact I |]);
    intros FuncInst; apply each_call_call, Hrun.
Qed.

End CallFacts.

(** ** Histories and invariants *)

Module OutlineFacts.
Import AST Runtime Interpreter RunFacts TraceLogic CallFacts.
Local Open Scope prog_scope.

(** *** Traces whose events are justified by what came before *)

Lemma justified_nil R : justified R [].
Proof. intros pre ev post E. destruct pre; discriminate E. Qed.

Lemma justified_snoc R tr ev :
  justified R tr -> R tr ev -> justified R (tr ++ [ev]).
Proof.
  intros J H pre ev' post E.
  destruct post as [|ev'' post _] using rev_ind.
  - apply app_inj_tail in E as [-> ->]. exact H.
  - change (pre ++ ev' :: post ++ [ev''])
      with (pre ++ (ev' :: post) ++ [ev'']) in E.
    rewrite app_assoc in E. apply app_inj_tail in E as [-> _].
    apply (J pre ev' post). reflexivity.
Qed.

(** *** Rules *)

Section Safe.
Context (T : list Event -> Prop).

Lemma safe_ret {A} (Inv : list Event -> Prop) (a : A) :
  (forall hist, Inv hist -> T hist) -> safe T Inv (Ret a).
Proof. intros HT St h s hist H. simpl. rewrite app_nil_r. auto. Qed.

Lemma safe_pre {A} (Inv Inv' : list Event -> Prop) (p : Prog A) :
  (forall hist, Inv hist -> Inv' hist) -> safe T Inv' p -> safe T Inv p.
Proof. intros HI Hp St h s hist H. apply Hp, HI, H. Qed.

(** The general rule of sequencing. *)
Lemma safe_bind {A B} (Inv : list Event -> Prop)
    (Inv' : A -> list Event -> Prop) (p : Prog A) (f : A -> Prog B) :
  (forall St (h : Handler St) s hist, Inv hist ->
     match result (run h p s) with
     | Some a => Inv' a (hist ++ trace (run h p s))
     | None => T (hist ++ trace (run h p s))
     end) ->
  (forall a, safe T (Inv' a) (f a)) ->
  safe T Inv (bind p f).
Proof.
  intros Hp Hf St h s hist H. rewrite run_bind.
  specialize (Hp St h s hist H).
  destruct (result (run h p s)) as [a|]; simpl.
  - rewrite app_assoc. apply Hf, Hp.
  - exact Hp.
Qed.

(** A part of the program all of whose calls keep the invariant. *)
Lemma keeps_trace {A} (Inv : list Event -> Prop) (p : Prog A)
    {St} (h : Handler St) s hist :
  each_call (fun ev => forall hist, Inv hist -> Inv (hist ++ [ev])) p ->
  Inv hist -> Inv (hist ++ trace (run h p s)).
Proof.
  intros Hp. apply each_call_sound in Hp. specialize (Hp St h s).
  revert hist. induction Hp as [|ev tr Hev _ IH]; intros hist H.
  - rewrite app_nil_r. exact H.
  - change (ev :: tr) with ([ev] ++ tr). rewrite app_assoc.
    apply IH, Hev, H.
Qed.

Lemma safe_keep {A} (Inv : list Event -> Prop) (p : Prog A) :
  (forall hist, Inv hist -> T hist) ->
  each_call (fun ev => forall hist, Inv hist -> Inv (hist ++ [ev])) p ->
  safe T Inv p.
Proof. intros HT Hp St h s hist H. apply HT, keeps_trace; assumption. Qed.

Lemma safe_bind_keep {A B} (Inv : list Event -> Prop) (p : Prog A)
    (f : A -> Prog B) :
  (forall hist, Inv hist -> T hist) ->
  each_call (fun ev => forall hist, Inv hist -> Inv (hist ++ [ev])) p ->
  (forall a, safe T Inv (f a)) ->
  safe T Inv (bind p f).
Proof.
  intros HT Hp Hf. apply (safe_bind Inv (fun _ => Inv)); [|exact Hf].
  intros St h s hist H.
  pose proof (keeps_trace Inv p h s hist Hp H) as K.
  destruct (result (run h p s)); auto.
Qed.

Lemma safe_try_keep {A B} (Inv : list Event -> Prop) (p : Prog (Expect A))
    (f : A -> Prog (Expect B)) :
  (forall hist, Inv hist -> T hist) ->
  each_call (fun ev => forall hist, Inv hist -> Inv (hist ++ [ev])) p ->
  (forall a, safe T Inv (f a)) ->
  safe T Inv (try p f).
Proof.
  intros HT Hp Hf. apply safe_bind_keep; [exact HT | exact Hp |].
  intros [a|e]; [apply Hf | apply safe_ret, HT].
Qed.

(** A call whose answer the rest of the program depends on. *)
Lemma safe_call_bind {X B} (Inv : list Event -> Prop)
    (Inv' : X -> list Event -> Prop) (c : Call X) (f : X -> Prog B) :
  (forall hist, Inv hist -> T hist) ->
  (forall hist x, Inv hist -> Inv' x (hist ++ [Ev c x])) ->
  (forall x, safe T (Inv' x) (f x)) ->
  safe T Inv (bind (call c) f).
Proof.
  intros HT Hc Hf. apply (safe_bind Inv Inv'); [|exact Hf].
  intros St h s hist H. rewrite run_call.
  destruct (h X c s) as [[x s']|]; simpl.
  - apply Hc, H.
  - rewrite app_nil_r. apply HT, H.
Qed.

(** A call whose answer is dereferenced without a check. *)
Lemma safe_deref_bind {X B} (Inv : list Event -> Prop)
    (Inv' : X -> list Event -> Prop) (c : Call (Expect X))
    (f : X -> Prog B) :
  (forall hist, Inv hist -> T hist) ->
  (forall hist e, Inv hist -> T (hist ++ [Ev c (Unexpect e)])) ->
  (forall hist v, Inv hist -> Inv' v (hist ++ [Ev c (Value v)])) ->
  (forall v, safe T (Inv' v) (f v)) ->
  safe T Inv (bind (bind (call c) deref) f).
Proof.
  intros HT He Hv Hf. apply (safe_bind Inv Inv'); [|exact Hf].
  intros St h s hist H. rewrite run_call_bind.
  destruct (h _ c s) as [[[v|e] s']|]; simpl.
  - apply Hv, H.
  - apply He, H.
  - rewrite app_nil_r. apply HT, H.
Qed.

(** The guarded call of a section whose value the rest depends on. *)
Lemma safe_section_try {S X B} (Inv : list Event -> Prop)
    (Inv' : X -> list Event -> Prop) (Sec : option S)
    (c : S -> Call (Expect X)) (d : X) (f : X -> Prog (Expect B)) :
  (forall hist, Inv hist -> T hist) ->
  (forall x hist e, Sec = Some x -> Inv hist ->
     T (hist ++ [Ev (c x) (Unexpect e)])) ->
  (Sec = None -> forall hist, Inv hist -> Inv' d hist) ->
  (forall x hist v, Sec = Some x -> Inv hist ->
     Inv' v (hist ++ [Ev (c x) (Value v)])) ->
  (forall v, safe T (Inv' v) (f v)) ->
  safe T Inv (try (match Sec with
                   | Some x => call (c x)
                   | None => Ret (Value d)
                   end) f).
Proof.
  intros HT He Hnone Hv Hf. unfold try.
  apply (safe_bind Inv
           (fun Res hist => match Res with
                            | Value v => Inv' v hist
                            | Unexpect _ => T hist
                            end)).
  - intros St h s hist H. destruct Sec as [x|]; simpl.
    + destruct (h _ (c x) s) as [[[v|e] s']|]; simpl.
      * apply (Hv x); [reflexivity | exact H].
      * apply (He x); [reflexivity | exact H].
      * rewrite app_nil_r. apply HT, H.
    + rewrite app_nil_r. apply Hnone; [reflexivity | exact H].
  - intros [v|e]; [apply Hf | apply safe_ret; auto].
Qed.

End Safe.

End OutlineFacts.

(** ** What the calls rely on *)

Module DataFlowFacts.
Import AST Runtime Interpreter RunFacts TraceLogic CallFacts OutlineFacts.
Local Open Scope prog_scope.

Lemma safe_whole {A} T (p : Prog A) {St} (h : Handler St) s :
  safe T (fun hist => hist = []) p -> T (trace (run h p s)).
Proof. intros H. apply (H St h s [] eq_refl). Qed.

(** An invariant made of a justified history and a fact about it that
    more events do not undo. *)
Lemma keep_justified R (F : list Event -> Prop) ev :
  (forall hist, F hist -> F (hist ++ [ev])) ->
  (forall hist, F hist -> R hist ev) ->
  forall hist, justified R hist /\ F hist ->
               justified R (hist ++ [ev]) /\ F (hist ++ [ev]).
Proof.
  intros HF HR hist [J H]. split; [|apply HF, H].
  apply justified_snoc; [exact J | apply HR, H].
Qed.

Lemma elem_of_snoc_l {A} (x y : A) l : x ∈ l -> x ∈ l ++ [y].
Proof. intros H. apply elem_of_app. left. exact H. Qed.

Lemma elem_of_snoc_r {A} (x : A) l : x ∈ l ++ [x].
Proof. apply elem_of_app. right. left. Qed.

(** *** What each call of [instantiate] relies on *)

(** A call that writes no segment, works on no instance and pushes no
    frame relies on nothing. *)
Lemma plain_call_justified InsMode Name hist ev :
  segment_source ev = None -> ev_instance ev = None ->
  ev_tag ev <> tStackMgr_pushFrame ->
  call_justified InsMode Name hist ev.
Proof.
  intros Hs Hi Ht. split; [|split].
  - intros src E. congruence.
  - intros M E. congruence.
  - intros E. congruence.
Qed.

(** A call on the retrieved instance that writes no segment. *)
Lemma instance_call_justified InsMode Name a M hist ev :
  Ev (placement InsMode Name) a ∈ hist ->
  Ev (StoreMgr_getModule a) (Value M) ∈ hist ->
  segment_source ev = None -> ev_instance ev = Some M ->
  ev_tag ev <> tStackMgr_pushFrame ->
  call_justified InsMode Name hist ev.
Proof.
  intros Hp Hg Hs Hi Ht. split; [|split].
  - intros src E. congruence.
  - intros M' E. exists a. rewrite Hi in E. injection E as <-. auto.
  - intros E. congruence.
Qed.

Lemma call_placement InsMode Name :
  match InsMode with
  | Instantiate => call (StoreMgr_pushModule (ModuleInstance_new Name))
  | ImportWasm => call (StoreMgr_importModule (ModuleInstance_new Name))
  end = call (placement InsMode Name).
Proof. destruct InsMode; reflexivity. Qed.

Ltac plain_event :=
  intros ? ?; apply plain_call_justified; [reflexivity | reflexivity |];
  discriminate.

Ltac instance_event :=
  let Hp := fresh "Hp" in
  let Hg := fresh "Hg" in
  intros ? [[Hp Hg] _];
  apply (instance_call_justified _ _ _ _ _ _ Hp Hg);
  [reflexivity | reflexivity | discriminate].

Ltac to_T := intros ? [? _]; assumption.

Ltac kept_step G ev_tac tac :=
  first [ apply safe_try_keep | apply safe_bind_keep ];
  [ to_T
  | tac; try exact I; apply each_call_call; intros ?;
    apply keep_justified; [apply G | ev_tac]
  | ].

Ltac deref_step G ev_tac :=
  apply safe_bind_keep;
  [ to_T
  | apply each_call_bind;
    [ apply each_call_call; intros ?;
      apply keep_justified; [apply G | ev_tac]
    | intros [?|?]; exact I ]
  | ].

(** Every call of a run is justified by the calls before it. *)
Lemma instantiate_calls_justified {St} (h : Handler St) (s : St)
    InsMode Mod Name :
  justified (call_justified InsMode Name)
    (trace (run h (instantiate InsMode Mod Name) s)).
Proof.
  apply safe_whole.
  set (R := call_justified InsMode Name).
  pose (F0 := fun _ : list Event => True).
  assert (G0 : forall ev hist, F0 hist -> F0 (hist ++ [ev]))
    by (intros; exact I).
  apply (safe_pre _ _ (fun hist => justified R hist /\ F0 hist)).
  { intros hist ->. split; [apply justified_nil | exact I]. }
  unfold instantiate.
  kept_step G0 plain_event idtac. intros _.
  kept_step G0 plain_event idtac. intros _.
  kept_step G0 plain_event idtac. intros _.
  kept_step G0 plain_event idtac.
  intros [Found|]; [apply safe_ret; to_T|]. cbv zeta.
  (* placement and retrieval of the fresh instance *)
  pose (F1 := fun (a : Z) (hist : list Event) =>
          Ev (placement InsMode Name) a ∈ hist).
  rewrite (call_placement InsMode Name).
  apply (safe_call_bind _ _ (fun a hist => justified R hist /\ F1 a hist)).
  { to_T. }
  { intros hist a [J _]. split; [|apply elem_of_snoc_r].
    apply justified_snoc; [exact J|].
    apply plain_call_justified; destruct InsMode; try reflexivity;
      discriminate. }
  intros ModInstAddr.
  pose (K := fun (M : ModuleInstancePtr) (hist : list Event) =>
          Ev (placement InsMode Name) ModInstAddr ∈ hist /\
          Ev (StoreMgr_getModule ModInstAddr) (Value M) ∈ hist).
  assert (GK : forall M ev hist, K M hist -> K M (hist ++ [ev])).
  { intros M ev hist [Hp Hg]. split; apply elem_of_snoc_l; assumption. }
  apply (safe_deref_bind _ _
           (fun M hist => justified R hist /\ (K M hist /\ F0 hist))).
  { to_T. }
  { intros hist e [J _]. apply justified_snoc; [exact J|].
    revert hist J. plain_event. }
  { intros hist M [J Hp]. split; [|split; [split|exact I]].
    - apply justified_snoc; [exact J|]. clear Hp. revert hist J. plain_event.
    - apply elem_of_snoc_l, Hp.
    - apply elem_of_snoc_r. }
  intros ModInst.
  assert (G2 : forall ev hist,
             K ModInst hist /\ F0 hist ->
             K ModInst (hist ++ [ev]) /\ F0 (hist ++ [ev])).
  { intros ev hist [HK _]. split; [apply GK, HK | exact I]. }
  (* function types *)
  apply safe_bind_keep.
  { to_T. }
  { destruct (getTypeSection Mod) as [TypeSec|]; [|exact I].
    apply each_call_addFuncTypes. intros F x _.
    apply keep_justified; [apply G2 | instance_event]. }
  intros _.
  (* imports and allocation *)
  kept_step G2 instance_event ltac:(destruct (getImportSection Mod)). intros _.
  kept_step G2 instance_event
    ltac:(destruct (getFunctionSection Mod), (getCodeSection Mod)).
  intros _.
  kept_step G2 instance_event ltac:(destruct (getGlobalSection Mod)). intros _.
  kept_step G2 instance_event ltac:(destruct (getTableSection Mod)). intros _.
  kept_step G2 instance_event ltac:(destruct (getMemorySection Mod)). intros _.
  (* the frame *)
  apply (safe_call_bind _ _
           (fun A hist =>
              (justified R hist /\ (K ModInst hist /\ F0 hist)) /\
              exists pre', hist = pre' ++ [Ev (ModInst_Addr ModInst) A])).
  { to_T. }
  { intros hist A H. split; [|exists hist; reflexivity].
    revert hist H. apply keep_justified; [apply G2 | instance_event]. }
  intros ModAddr.
  apply (safe_call_bind _ _
           (fun _ hist => justified R hist /\ (K ModInst hist /\ F0 hist))).
  { intros ? [[? _] _]; assumption. }
  { intros hist [] [[J HK] [pre' Epre]]. split; [|apply G2, HK].
    apply justified_snoc; [exact J|]. split; [|split].
    - intros src E. discriminate E.
    - intros M E. discriminate E.
    - intros _. exists pre', ModInst, ModAddr.
      split; [exact Epre | reflexivity]. }
  intros _.
  (* the offsets of the element segments *)
  pose (FE := fun (EO : list Z) (hist : list Event) =>
          forall Sec, getElementSection Mod = Some Sec ->
            Ev (resolveExpression_ElemSec ModInst Sec) (Value EO) ∈ hist).
  apply (safe_section_try _ _
           (fun EO hist =>
              justified R hist /\ (K ModInst hist /\ FE EO hist))).
  { to_T. }
  { intros Sec hist e _ H. revert hist H.
    refine (fun hist H => proj1 (keep_justified R _ _ (G2 _) _ hist H)).
    instance_event. }
  { intros EN hist [J [HK _]]. split; [exact J|]. split; [exact HK|].
    intros Sec ES. rewrite EN in ES. discriminate ES. }
  { intros Sec hist EO ES [J HK]. split; [|split].
    - apply justified_snoc; [exact J|]. clear J. revert hist HK.
      instance_event.
    - apply GK, HK.
    - intros Sec' ES'. rewrite ES in ES'. injection ES' as <-.
      apply elem_of_snoc_r. }
  intros ElemOffsets.
  (* the offsets of the data segments *)
  pose (FD := fun (DO : list Z) (hist : list Event) =>
          FE ElemOffsets hist /\
          forall Sec, getDataSection Mod = Some Sec ->
            Ev (resolveExpression_DataSec ModInst Sec) (Value DO) ∈ hist).
  assert (GE : forall ev hist,
             K ModInst hist /\ FE ElemOffsets hist ->
             K ModInst (hist ++ [ev]) /\ FE ElemOffsets (hist ++ [ev])).
  { intros ev hist [HK HE]. split; [apply GK, HK|].
    intros Sec ES. apply elem_of_snoc_l, HE, ES. }
  apply (safe_section_try _ _
           (fun DO hist =>
              justified R hist /\ (K ModInst hist /\ FD DO hist))).
  { to_T. }
  { intros Sec hist e _ H. revert hist H.
    refine (fun hist H => proj1 (keep_justified R _ _ (GE _) _ hist H)).
    instance_event. }
  { intros EN hist [J [HK HE]]. split; [exact J|]. split; [exact HK|].
    split; [exact HE|]. intros Sec ES. rewrite EN in ES. discriminate ES. }
  { intros Sec hist DO ES [J HK]. split; [|split; [|split]].
    - apply justified_snoc; [exact J|]. clear J. revert hist HK.
      instance_event.
    - apply GK, HK.
    - intros Sec' ES'. apply elem_of_snoc_l. destruct HK as [_ HE].
      apply HE, ES'.
    - intros Sec' ES'. rewrite ES in ES'. injection ES' as <-.
      apply elem_of_snoc_r. }
  intros DataOffsets.
  assert (GD : forall ev hist,
             K ModInst hist /\ FD DataOffsets hist ->
             K ModInst (hist ++ [ev]) /\ FD DataOffsets (hist ++ [ev])).
  { intros ev hist [HK [HE HD]]. split; [apply GK, HK|].
    split; intros Sec ES; apply elem_of_snoc_l; auto. }
  kept_step GD plain_event idtac. intros _.
  (* the segments are written with these offsets *)
  apply safe_try_keep.
  { to_T. }
  { destruct (getElementSection Mod) as [ElemSec|] eqn:ES; [|exact I].
    apply each_call_call. intros x. apply keep_justified; [apply GD|].
    intros hist [[Hp Hg] [HE _]]. split; [|split].
    - intros src Hs. injection Hs as <-. apply HE. reflexivity.
    - intros M HM. injection HM as <-. eexists. split; eassumption.
    - intros E. discriminate E. }
  intros _.
  apply safe_try_keep.
  { to_T. }
  { destruct (getDataSection Mod) as [DataSec|] eqn:ES; [|exact I].
    apply each_call_call. intros x. apply keep_justified; [apply GD|].
    intros hist [[Hp Hg] [_ HD]]. split; [|split].
    - intros src Hs. injection Hs as <-. apply HD. reflexivity.
    - intros M HM. injection HM as <-. eexists. split; eassumption.
    - intros E. discriminate E. }
  intros _.
  (* exports, constructor *)
  kept_step GD instance_event ltac:(destruct (getExportSection Mod)). intros _.
  kept_step GD plain_event ltac:(destruct (getCtor Mod)). intros _.
  (* the start function *)
  destruct (getStartSection Mod) as [Idx|]; [|apply safe_ret; to_T].
  kept_step GD instance_event idtac. intros _.
  deref_step GD instance_event. intros StartAddr.
  deref_step GD plain_event. intros FuncInst.
  apply safe_keep; [to_T|].
  apply each_call_call. intros x. apply keep_justified; [apply GD|].
  plain_event.
Qed.

(** X2: a call that writes element or data segments is given the offsets
    that an earlier call of [resolveExpression], on the same instance
    and the same section, answered. *)
Theorem instantiate_offsets_flow {St} (h : Handler St) (s : St)
    InsMode Mod Name pre ev post src :
  trace (run h (instantiate InsMode Mod Name) s) = pre ++ ev :: post ->
  segment_source ev = Some src ->
  src ∈ pre.
Proof.
  intros E Hs.
  destruct (instantiate_calls_justified h s InsMode Mod Name pre ev post E)
    as [H _].
  apply H, Hs.
Qed.

(** X3: every call that works on a module instance works on the instance
    retrieved from the Store at the address that the placement of the
    fresh instance answered. *)
Theorem instantiate_single_instance {St} (h : Handler St) (s : St)
    InsMode Mod Name pre ev post M :
  trace (run h (instantiate InsMode Mod Name) s) = pre ++ ev :: post ->
  ev_instance ev = Some M ->
  exists ModInstAddr,
    Ev (placement InsMode Name) ModInstAddr ∈ pre /\
    Ev (StoreMgr_getModule ModInstAddr) (Value M) ∈ pre.
Proof.
  intros E HM.
  destruct (instantiate_calls_justified h s InsMode Mod Name pre ev post E)
    as (_ & H & _).
  apply H, HM.
Qed.

(** X4: a frame is pushed right after the address of the instance was
    read, for that address, with no locals and no results. *)
Theorem instantiate_frame_of_instance {St} (h : Handler St) (s : St)
    InsMode Mod Name pre ev post :
  trace (run h (instantiate InsMode Mod Name) s) = pre ++ ev :: post ->
  ev_tag ev = tStackMgr_pushFrame ->
  exists pre' M ModAddr,
    pre = pre' ++ [Ev (ModInst_Addr M) ModAddr] /\
    ev = Ev (StackMgr_pushFrame ModAddr 0 0) tt.
Proof.
  intros E Ht.
  destruct (instantiate_calls_justified h s InsMode Mod Name pre ev post E)
    as (_ & _ & H).
  apply H, Ht.
Qed.

End DataFlowFacts.

(** ** The function types *)

Module TypeFacts.
Import AST Runtime Interpreter RunFacts ScriptFacts TraceLogic CallFacts
  OutlineFacts DataFlowFacts.
Local Open Scope prog_scope.

Lemma installed_app tr1 tr2 :
  installed (tr1 ++ tr2) = installed tr1 ++ installed tr2.
Proof. apply omap_app. Qed.

Lemma FunctionType_eta F :
  mkFunctionType (getParamTypes F) (getReturnTypes F) = F.
Proof. destruct F. reflexivity. Qed.

(** The loop over the type section records the function types in order,
    all of them if it comes to its end. *)
Lemma run_addFuncTypes {St} (h : Handler St) s ModInst FuncTypes :
  Some <$> installed (trace (run h (addFuncTypes ModInst FuncTypes) s))
    `prefix_of` FuncTypes /\
  (is_Some (result (run h (addFuncTypes ModInst FuncTypes) s)) ->
   Some <$> installed (trace (run h (addFuncTypes ModInst FuncTypes) s))
     = FuncTypes).
Proof.
  revert s. induction FuncTypes as [|[F|] rest IH]; intros s; simpl.
  - split; reflexivity.
  - destruct (h _ _ s) as [[[] s']|]; simpl.
    + destruct (IH s') as [P E].
      change (installed
                (Ev (ModInst_addFuncType ModInst (getParamTypes F)
                       (getReturnTypes F)) tt
                 :: trace (run h (addFuncTypes ModInst rest) s')))
        with (mkFunctionType (getParamTypes F) (getReturnTypes F)
              :: installed (trace (run h (addFuncTypes ModInst rest) s'))).
      rewrite FunctionType_eta. split.
      * apply prefix_cons, P.
      * intros R. f_equal. apply E, R.
    + split; [apply prefix_nil | intros [? R]; discriminate R].
  - split; [apply prefix_nil | intros [? R]; discriminate R].
Qed.

(** What is known of the function types while [instantiate] runs. *)
Lemma instantiate_types_recorded {St} (h : Handler St) (s : St)
    InsMode Mod Name :
  Some <$> installed (trace (run h (instantiate InsMode Mod Name) s))
     `prefix_of` type_entries Mod /\
  (forall ev, ev ∈ trace (run h (instantiate InsMode Mod Name) s) ->
     ev_tag ev = tModInst_Addr ->
     Some <$> installed (trace (run h (instantiate InsMode Mod Name) s))
       = type_entries Mod).
Proof.
  set (T := fun hist : list Event =>
         Some <$> installed hist `prefix_of` type_entries Mod /\
         (forall ev, ev ∈ hist -> ev_tag ev = tModInst_Addr ->
                     Some <$> installed hist = type_entries Mod)).
  apply (safe_whole T).
  pose (Inv0 := fun hist : list Event =>
          installed hist = [] /\
          Forall (fun ev => ev_tag ev <> tModInst_Addr) hist).
  pose (Inv1 := fun hist : list Event =>
          Some <$> installed hist = type_entries Mod).
  assert (T0 : forall hist, Inv0 hist -> T hist).
  { intros hist [E N]. split.
    - rewrite E. apply prefix_nil.
    - intros ev Hin Ht. rewrite Forall_forall in N. destruct (N ev Hin Ht). }
  assert (T1 : forall hist, Inv1 hist -> T hist).
  { intros hist E. split; [rewrite E; reflexivity | intros; exact E]. }
  assert (K0 : forall ev, ev_tag ev <> tModInst_addFuncType ->
             ev_tag ev <> tModInst_Addr ->
             forall hist, Inv0 hist -> Inv0 (hist ++ [ev])).
  { intros [X c x] Ha Hb hist [E N]. split.
    - rewrite installed_app, E. unfold installed. simpl.
      destruct c; try reflexivity. destruct Ha. reflexivity.
    - apply Forall_app. split; [exact N|]. constructor; [exact Hb|].
      constructor. }
  assert (K1 : forall ev, ev_tag ev <> tModInst_addFuncType ->
             forall hist, Inv1 hist -> Inv1 (hist ++ [ev])).
  { intros [X c x] Ha hist E. unfold Inv1.
    rewrite installed_app, fmap_app, E. unfold installed. simpl.
    destruct c; try apply app_nil_r. destruct Ha. reflexivity. }
  apply (safe_pre _ _ Inv0).
  { intros hist ->. split; constructor. }
  unfold instantiate.
  apply safe_bind_keep;
    [exact T0 | apply each_call_call; intros x; apply K0; discriminate|].
  intros _.
  apply safe_bind_keep;
    [exact T0 | apply each_call_call; intros x; apply K0; discriminate|].
  intros _.
  apply safe_bind_keep;
    [exact T0 | apply each_call_call; intros x; apply K0; discriminate|].
  intros _.
  apply safe_bind_keep;
    [exact T0 | apply each_call_call; intros x; apply K0; discriminate|].
  intros [Found|]; [apply safe_ret, T0|]. cbv zeta.
  apply safe_bind_keep;
    [exact T0
    | destruct InsMode; apply each_call_call; intros x; apply K0;
      discriminate|].
  intros ModInstAddr.
  apply safe_bind_keep; [exact T0 | |].
  { apply each_call_bind;
      [apply each_call_call; intros x; apply K0; discriminate|].
    intros [v|e]; exact I. }
  intros ModInst.
  (* the loop over the type section *)
  apply (safe_bind _ _ (fun _ => Inv1)).
  { intros St' h' s' hist [E N]. unfold T, Inv1, type_entries.
    destruct (getTypeSection Mod) as [TypeSec|]; simpl.
    - destruct (run_addFuncTypes h' s' ModInst TypeSec) as [P F].
      rewrite installed_app, E. simpl.
      destruct (result (run h' (addFuncTypes ModInst TypeSec) s')) as [[]|].
      + apply F. eexists. reflexivity.
      + split; [exact P|]. intros ev Hin Ht. exfalso.
        apply elem_of_app in Hin as [Hin|Hin].
        * rewrite Forall_forall in N. exact (N ev Hin Ht).
        * pose proof (runsP_addFuncTypes ModInst TypeSec St' h' s') as Hf.
          apply Follows_tags in Hf as [k Hk].
          assert (Hs : ev_tag ev ∈ script_types TypeSec).
          { rewrite Hk. apply elem_of_app. left.
            apply list_elem_of_fmap_2, Hin. }
          apply TagFacts.elem_of_script_types in Hs. congruence.
    - rewrite app_nil_r, E. reflexivity. }
  intros _.
  (* no function type is recorded afterwards *)
  repeat (first [apply safe_try_keep | apply safe_bind_keep];
          [ exact T1
          | repeat match goal with
                   | |- context [match ?Sec with Some _ => _ | None => _ end] =>
                       destruct Sec
                   end;
            try exact I; apply each_call_call; intros x; apply K1;
            discriminate
          | intros ? ]).
  destruct (getStartSection Mod) as [Idx|]; [|apply safe_ret, T1].
  apply safe_bind_keep;
    [exact T1 | apply each_call_call; intros x; apply K1; discriminate|].
  intros _.
  apply safe_bind_keep; [exact T1 | |].
  { apply each_call_bind;
      [apply each_call_call; intros x; apply K1; discriminate|].
    intros [v|e]; exact I. }
  intros StartAddr.
  apply safe_bind_keep; [exact T1 | |].
  { apply each_call_bind;
      [apply each_call_call; intros x; apply K1; discriminate|].
    intros [v|e]; exact I. }
  intros FuncInst.
  apply safe_keep; [exact T1|].
  apply each_call_call; intros x; apply K1; discriminate.
Qed.

(** X1: the calls of [addFuncType] record function types of the type
    section, in its order; when [instantiate] returns success they have
    recorded all of them. *)
Theorem instantiate_installs_types {St} (h : Handler St) (s : St)
    InsMode Mod Name :
  Some <$> installed (trace (run h (instantiate InsMode Mod Name) s))
    `prefix_of` type_entries Mod /\
  (result (run h (instantiate InsMode Mod Name) s) = Some (Value tt) ->
   Some <$> installed (trace (run h (instantiate InsMode Mod Name) s))
     = type_entries Mod).
Proof.
  destruct (instantiate_types_recorded h s InsMode Mod Name) as [P F].
  split; [exact P|]. intros R.
  pose proof (instantiate_follows_script InsMode Mod Name St h s) as H.
  rewrite R in H. cbn [outcome] in H. apply Follows_finished in H as [H _].
  assert (Hin : tModInst_Addr
                  ∈ ev_tag <$> trace (run h (instantiate InsMode Mod Name) s)).
  { rewrite H. unfold script, script_offsets. rewrite !elem_of_app.
    right. right. left. left. left. }
  apply list_elem_of_fmap in Hin as (ev & Ht & Hin).
  apply (F ev Hin). symmetry. exact Ht.
Qed.

End TypeFacts.

(** ** What the calls are given; runs to the end *)

Module ArgumentFacts.
Import AST Runtime Interpreter RunFacts TraceLogic CallFacts.
Local Open Scope prog_scope.

(** X5: what [instantiate] passes on of the module is the module's own:
    each section routine is called with the section the module has, and
    only when the module has it; the constructor called and the start
    index set are the module's; a function type recorded is an entry of
    the type section. *)
Theorem instantiate_passes_own_sections {St} (h : Handler St) (s : St)
    InsMode Mod Name :
  Forall (ev_from_module Mod)
    (trace (run h (instantiate InsMode Mod Name) s)).
Proof.
  apply each_call_sound, each_call_instantiate; intros; simpl; auto.
  - destruct InsMode; exact I.
  - unfold type_entries. rewrite H. simpl.
    destruct F. assumption.
Qed.

(** X6: the only call that places an instance in the Store is the one of
    the interpreter's mode ([pushModule] when instantiating,
    [importModule] when importing), and what it places is a fresh
    instance that carries the name. *)
Theorem instantiate_places_by_mode {St} (h : Handler St) (s : St)
    InsMode Mod Name ev :
  ev ∈ trace (run h (instantiate InsMode Mod Name) s) ->
  ev_tag ev = tStoreMgr_pushModule \/ ev_tag ev = tStoreMgr_importModule ->
  exists ModInstAddr, ev = Ev (placement InsMode Name) ModInstAddr.
Proof.
  intros Hin.
  assert (A : Forall (fun ev =>
                ev_tag ev = tStoreMgr_pushModule \/
                ev_tag ev = tStoreMgr_importModule ->
                exists ModInstAddr,
                  ev = Ev (placement InsMode Name) ModInstAddr)
                (trace (run h (instantiate InsMode Mod Name) s))).
  { apply each_call_sound, each_call_instantiate; intros;
      try match goal with
          | T : _ \/ _ |- _ => destruct T as [T|T]; discriminate T
          end.
    eexists. reflexivity. }
  rewrite Forall_forall in A. apply A, Hin.
Qed.

End ArgumentFacts.

Module CompletionFacts.
Import AST Runtime Interpreter RunFacts ScriptFacts PipelineFacts EventFacts
  TagFacts InstantiateFacts ProgressFacts.
Local Open Scope prog_scope.

(** *** No call twice *)

Lemma filter_script_types FuncTypes :
  filter (fun t => t <> tModInst_addFuncType) (script_types FuncTypes) = [].
Proof.
  induction FuncTypes as [|[F|] rest IH]; simpl; try reflexivity.
  rewrite filter_cons_False; [exact IH|]. intros N. apply N. reflexivity.
Qed.

Lemma filter_when_present {S} (Sec : option S) t :
  t <> tModInst_addFuncType ->
  filter (fun t => t <> tModInst_addFuncType) (when_present Sec t)
  = when_present Sec t.
Proof.
  intros N. destruct Sec; simpl; [|reflexivity].
  rewrite filter_cons_True by exact N. reflexivity.
Qed.

Lemma script_single_calls InsMode Mod :
  filter (fun t => t <> tModInst_addFuncType) (script InsMode Mod)
    `sublist_of` single_calls.
Proof.
  unfold script, script_allocate, script_offsets, script_initialize.
  rewrite !filter_app.
  rewrite !filter_when_present by discriminate.
  replace (filter (fun t => t <> tModInst_addFuncType)
             (if getTypeSection Mod is Some TypeSec
              then script_types TypeSec else [])) with (@nil CallTag)
    by (destruct (getTypeSection Mod);
        [rewrite filter_script_types|]; reflexivity).
  replace (filter (fun t => t <> tModInst_addFuncType)
             (if getFunctionSection Mod is Some _
              then when_present (getCodeSection Mod) tinstantiate_FuncSec
              else []))
    with (if getFunctionSection Mod is Some _
          then when_present (getCodeSection Mod) tinstantiate_FuncSec
          else [])
    by (destruct (getFunctionSection Mod);
        [rewrite filter_when_present by discriminate|]; reflexivity).
  replace (filter (fun t => t <> tModInst_addFuncType) (script_start Mod))
    with (script_start Mod)
    by (unfold script_start; destruct (getStartSection Mod); reflexivity).
  change (filter (fun t => t <> tModInst_addFuncType)
            [tModInst_Addr; tStackMgr_pushFrame])
    with [tModInst_Addr; tStackMgr_pushFrame].
  change (filter (fun t => t <> tModInst_addFuncType) [tStackMgr_popFrame])
    with [tStackMgr_popFrame].
  cbn [app]. rewrite <- !app_assoc.
  unfold single_calls.
  assert (E : forall l k, l `sublist_of` k ->
    filter (fun t => t <> tModInst_addFuncType) (script_entry InsMode) ++ l
    `sublist_of` tStoreMgr_reset :: tStackMgr_reset :: tInstrPdr_reset ::
                 tStoreMgr_findModule :: tStoreMgr_pushModule ::
                 tStoreMgr_importModule :: tStoreMgr_getModule :: k).
  { intros l k H. destruct InsMode; cbn; repeat apply sublist_skip.
    - apply sublist_cons, sublist_skip, H.
    - apply sublist_cons. repeat apply sublist_skip. exact H. }
  apply E.
  apply when_present_sublist.
  assert (F : forall l k, l `sublist_of` k ->
    (if getFunctionSection Mod is Some _
     then when_present (getCodeSection Mod) tinstantiate_FuncSec else []) ++ l
    `sublist_of` tinstantiate_FuncSec :: k).
  { intros l k H. destruct (getFunctionSection Mod).
    - apply when_present_sublist, H.
    - apply sublist_cons, H. }
  apply F.
  do 3 apply when_present_sublist.
  cbn. do 2 apply sublist_skip.
  do 2 apply when_present_sublist.
  cbn. apply sublist_skip.
  do 3 apply when_present_sublist.
  assert (C : forall l k, l `sublist_of` k ->
    when_present (getCtor Mod) tCtorFunc ++ l `sublist_of` tCtorFunc :: k).
  { intros l k. apply when_present_sublist. }
  apply C.
  unfold script_start. destruct (getStartSection Mod); cbn.
  - reflexivity.
  - apply sublist_nil_l.
Qed.

Lemma single_calls_NoDup : NoDup single_calls.
Proof. apply (bool_decide_unpack _). vm_compute. exact I. Qed.

(** X7: apart from [addFuncType], which is called once per function
    type, a run makes no call of the same kind twice. *)
Theorem instantiate_calls_once {St} (h : Handler St) (s : St)
    InsMode Mod Name :
  NoDup (filter (fun t => t <> tModInst_addFuncType)
           (ev_tag <$> trace (run h (instantiate InsMode Mod Name) s))).
Proof.
  pose proof (instantiate_follows_script InsMode Mod Name St h s) as H.
  apply Follows_tags in H as [k Hk].
  apply (sublist_NoDup _ single_calls); [apply single_calls_NoDup|].
  etransitivity; [|apply (script_single_calls InsMode Mod)].
  rewrite Hk, filter_app. apply sublist_inserts_r. reflexivity.
Qed.

(** *** Success *)

(** X8: when [instantiate] returns success it has made every call of the
    script of the module, in order, each answered so that it went on:
    the name was free, every step planned for the module was carried
    out. *)
Theorem instantiate_success_complete {St} (h : Handler St) (s : St)
    InsMode Mod Name :
  result (run h (instantiate InsMode Mod Name) s) = Some (Value tt) ->
  ev_tag <$> trace (run h (instantiate InsMode Mod Name) s)
    = script InsMode Mod /\
  Forall (fun ev => ev_proceeds ev = true)
    (trace (run h (instantiate InsMode Mod Name) s)) /\
  steps (trace (run h (instantiate InsMode Mod Name) s)) = planned_steps Mod.
Proof.
  intros E.
  pose proof (instantiate_follows_script InsMode Mod Name St h s) as H.
  rewrite E in H. cbn [outcome] in H. apply Follows_finished in H as [H F].
  split; [exact H|]. split; [exact F|].
  rewrite steps_tags, H. apply script_steps.
Qed.

(** X9: when every collaborator answers, and answers with success, and
    the type section holds no null pointer, [instantiate] returns
    success, and it has made every call of the script. *)
Theorem instantiate_completes {St} (h : Handler St) (s : St)
    InsMode Mod Name :
  answers_all h ->
  Forall is_Some (type_entries Mod) ->
  result (run h (instantiate InsMode Mod Name) s) = Some (Value tt) /\
  ev_tag <$> trace (run h (instantiate InsMode Mod Name) s)
    = script InsMode Mod.
Proof.
  intros Hh Hty.
  assert (E : result (run h (instantiate InsMode Mod Name) s)
              = Some (Value tt)).
  { apply instantiate_succeeds; [exact Hh|].
    intros TypeSec ET. unfold type_entries in Hty. rewrite ET in Hty.
    exact Hty. }
  split; [exact E|].
  pose proof (instantiate_follows_script InsMode Mod Name St h s) as H.
  rewrite E in H. cbn [outcome] in H. apply Follows_finished in H as [H _].
  exact H.
Qed.

(** *** Errors *)

(** An answer that stops the program is the last event of the trace,
    and decides how the run ends. *)
Lemma Follows_stops sc tr o ev :
  Follows sc tr o -> ev ∈ tr -> ev_proceeds ev = false ->
  (exists tr0, tr = tr0 ++ [ev]) /\
  o = match ev_returned ev with
      | Some e => Failed e
      | None => Stuck
      end.
Proof.
  intros H Hin Hp. induction H.
  - apply elem_of_nil in Hin. destruct Hin.
  - apply elem_of_cons in Hin as [->|Hin]; [congruence|].
    destruct (IHFollows Hin) as [[tr0 ->] Ho].
    split; [exists (ev0 :: tr0); reflexivity | exact Ho].
  - apply list_elem_of_singleton in Hin as ->.
    split; [exists []; reflexivity|]. rewrite H0. reflexivity.
  - apply list_elem_of_singleton in Hin as ->.
    split; [exists []; reflexivity|]. rewrite H0. reflexivity.
  - apply elem_of_nil in Hin. destruct Hin.
Qed.

Lemma error_stops ev e :
  ev_error ev = Some e ->
  ev_proceeds ev = false /\
  ev_returned ev
  = if bool_decide (ev_tag ev ∈ [tStoreMgr_getModule; tModInst_getStartAddr;
                                 tStoreMgr_getFunction])
    then None else Some e.
Proof.
  destruct ev as [X c x]. destruct c; simpl; try discriminate;
    destruct x as [v|e']; try discriminate;
    intros E; injection E as ->; split; reflexivity.
Qed.

Lemma outcome_Stuck {A} (r : option (Expect A)) : outcome r = Stuck -> r = None.
Proof. destruct r as [[v|e]|]; simpl; congruence. Qed.

(** X10: an error answered by a collaborator is never passed over: the
    call is the last one made, and [instantiate] returns that very
    error; unless the call is one of the three whose answer the source
    dereferences without a check ([getModule], [getStartAddr],
    [getFunction]), where the behaviour is undefined. *)
Theorem instantiate_error_stops {St} (h : Handler St) (s : St)
    InsMode Mod Name ev e :
  ev ∈ trace (run h (instantiate InsMode Mod Name) s) ->
  ev_error ev = Some e ->
  (exists tr0, trace (run h (instantiate InsMode Mod Name) s) = tr0 ++ [ev]) /\
  result (run h (instantiate InsMode Mod Name) s)
  = if bool_decide (ev_tag ev ∈ [tStoreMgr_getModule; tModInst_getStartAddr;
                                 tStoreMgr_getFunction])
    then None else Some (Unexpect e).
Proof.
  intros Hin He. apply error_stops in He as [Hp Hr].
  pose proof (instantiate_follows_script InsMode Mod Name St h s) as H.
  destruct (Follows_stops _ _ _ _ H Hin Hp) as [Hlast Ho].
  split; [exact Hlast|]. rewrite Hr in Ho.
  destruct (bool_decide _).
  - apply outcome_Stuck, Ho.
  - apply outcome_Failed, Ho.
Qed.

End CompletionFacts.

(** ** The content of an import descriptor *)

Module SymbolFacts.
Import AST.

(** X13: [getExternalContent<T>] looks at the content only: on a
    descriptor that holds the alternative [unique_ptr<T>] it succeeds
    whatever external type and names the descriptor declares, also when
    the pointer held is null (the answer is then a null pointer, not an
    error); and of the four requests only this one succeeds. *)
Theorem getExternalContent_content_only (ty : ExternalType) (mn en : string)
    (T T' : ContentT) (p : unique_ptr (content T)) :
  getExternalContent T (mkImportDesc ty mn en (hold T p)) = Value (get p) /\
  (has_value (getExternalContent T' (mkImportDesc ty mn en (hold T p))) = true
   <-> T' = T).
Proof.
  split; [destruct T; reflexivity|].
  destruct T, T'; simpl; split; intros E; try reflexivity; discriminate E.
Qed.

End SymbolFacts.

(** ** Runs on a module with segments *)

Module SegmentRuns.
Import AST Runtime Interpreter RunFacts EventFacts ProgressFacts DataFlowFacts
  TypeFacts ArgumentFacts CompletionFacts.
Local Open Scope prog_scope.

(** The function types that the run on [Scripted.segment_module]
    records. *)
Lemma instantiate_installs_types_witness :
  Some <$> installed
             (trace (run (Scripted.handle Scripted.all_succeed)
                       (instantiate Instantiate Scripted.segment_module "m")
                       tt))
    `prefix_of` type_entries Scripted.segment_module /\
  Some <$> installed
             (trace (run (Scripted.handle Scripted.all_succeed)
                       (instantiate Instantiate Scripted.segment_module "m")
                       tt))
    = type_entries Scripted.segment_module.
Proof.
  destruct (instantiate_installs_types
              (Scripted.handle Scripted.all_succeed) tt Instantiate
              Scripted.segment_module "m") as [P E].
  split; [exact P | apply E; vm_compute; reflexivity].
Defined.

(** The element segments of [Scripted.segment_module] are written at
    the offsets resolved for them. *)
Lemma instantiate_offsets_flow_witness :
  Ev (resolveExpression_ElemSec 0%Z Scripted.segment_elements) (Value [0%Z])
    ∈ take 15 (trace (run (Scripted.handle Scripted.all_succeed)
                        (instantiate Instantiate Scripted.segment_module "m")
                        tt)).
Proof.
  apply (instantiate_offsets_flow
           (Scripted.handle Scripted.all_succeed) tt Instantiate
           Scripted.segment_module "m"
           (take 15 (trace (run (Scripted.handle Scripted.all_succeed)
                              (instantiate Instantiate Scripted.segment_module
                                 "m") tt)))
           (Ev (instantiate_ElemSec 0%Z Scripted.segment_elements [0%Z])
              (Value tt))
           (drop 16 (trace (run (Scripted.handle Scripted.all_succeed)
                              (instantiate Instantiate Scripted.segment_module
                                 "m") tt))));
    reflexivity.
Defined.

(** The instance whose address is read for the frame. *)
Lemma instantiate_single_instance_witness :
  exists ModInstAddr,
    Ev (placement Instantiate "m") ModInstAddr
      ∈ take 10 (trace (run (Scripted.handle Scripted.all_succeed)
                          (instantiate Instantiate Scripted.segment_module
                             "m") tt)) /\
    Ev (StoreMgr_getModule ModInstAddr) (Value 0%Z)
      ∈ take 10 (trace (run (Scripted.handle Scripted.all_succeed)
                          (instantiate Instantiate Scripted.segment_module
                             "m") tt)).
Proof.
  apply (instantiate_single_instance
           (Scripted.handle Scripted.all_succeed) tt Instantiate
           Scripted.segment_module "m"
           (take 10 (trace (run (Scripted.handle Scripted.all_succeed)
                              (instantiate Instantiate Scripted.segment_module
                                 "m") tt)))
           (Ev (ModInst_Addr 0%Z) 0%Z)
           (drop 11 (trace (run (Scripted.handle Scripted.all_succeed)
                              (instantiate Instantiate Scripted.segment_module
                                 "m") tt))));
    reflexivity.
Defined.

(** The frame of the run on [Scripted.segment_module]. *)
Lemma instantiate_frame_of_instance_witness :
  exists pre' M ModAddr,
    take 11 (trace (run (Scripted.handle Scripted.all_succeed)
                      (instantiate Instantiate Scripted.segment_module "m")
                      tt))
      = pre' ++ [Ev (ModInst_Addr M) ModAddr] /\
    Ev (StackMgr_pushFrame 0 0 0) tt
      = Ev (StackMgr_pushFrame ModAddr 0 0) tt.
Proof.
  apply (instantiate_frame_of_instance
           (Scripted.handle Scripted.all_succeed) tt Instantiate
           Scripted.segment_module "m"
           (take 11 (trace (run (Scripted.handle Scripted.all_succeed)
                              (instantiate Instantiate Scripted.segment_module
                                 "m") tt)))
           (Ev (StackMgr_pushFrame 0 0 0) tt)
           (drop 12 (trace (run (Scripted.handle Scripted.all_succeed)
                              (instantiate Instantiate Scripted.segment_module
                                 "m") tt))));
    reflexivity.
Defined.

(** The placement of the run on [Scripted.segment_module]. *)
Lemma instantiate_places_by_mode_witness :
  exists ModInstAddr,
    Ev (StoreMgr_pushModule (ModuleInstance_new "m")) 0%Z
    = Ev (placement Instantiate "m") ModInstAddr.
Proof.
  apply (instantiate_places_by_mode
           (Scripted.handle Scripted.all_succeed) tt Instantiate
           Scripted.segment_module "m"
           (Ev (StoreMgr_pushModule (ModuleInstance_new "m")) 0%Z)).
  - vm_compute. tag_in.
  - left. reflexivity.
Defined.

(** The run on [Scripted.sample_module] succeeds. *)
Lemma instantiate_success_complete_witness :
  ev_tag <$> trace (run (Scripted.handle Scripted.all_succeed)
                      (instantiate Instantiate Scripted.sample_module "m") tt)
    = script Instantiate Scripted.sample_module /\
  Forall (fun ev => ev_proceeds ev = true)
    (trace (run (Scripted.handle Scripted.all_succeed)
              (instantiate Instantiate Scripted.sample_module "m") tt)) /\
  steps (trace (run (Scripted.handle Scripted.all_succeed)
                  (instantiate Instantiate Scripted.sample_module "m") tt))
    = planned_steps Scripted.sample_module.
Proof.
  apply (instantiate_success_complete
           (Scripted.handle Scripted.all_succeed) tt Instantiate
           Scripted.sample_module "m").
  vm_compute. reflexivity.
Defined.

(** The scripted collaborators that all succeed, on
    [Scripted.segment_module]. *)
Lemma instantiate_completes_witness :
  result (run (Scripted.handle Scripted.all_succeed)
            (instantiate ImportWasm Scripted.segment_module "m") tt)
    = Some (Value tt) /\
  ev_tag <$> trace (run (Scripted.handle Scripted.all_succeed)
                      (instantiate ImportWasm Scripted.segment_module "m") tt)
    = script ImportWasm Scripted.segment_module.
Proof.
  apply (instantiate_completes
           (Scripted.handle Scripted.all_succeed) tt ImportWasm
           Scripted.segment_module "m").
  - intros X c st. destruct c; simpl; eexists _, st; split; reflexivity.
  - vm_compute. repeat constructor; eexists; reflexivity.
Defined.

(** The offsets of the data segments cannot be resolved. *)
Lemma instantiate_error_stops_witness :
  (exists tr0,
     trace (run (Scripted.handle
                   (Scripted.fail_at tresolveExpression_DataSec
                      InvalidInitializer))
              (instantiate Instantiate Scripted.segment_module "m") tt)
     = tr0 ++ [Ev (resolveExpression_DataSec 0%Z Scripted.segment_data)
                 (Unexpect InvalidInitializer)]) /\
  result (run (Scripted.handle
                 (Scripted.fail_at tresolveExpression_DataSec
                    InvalidInitializer))
            (instantiate Instantiate Scripted.segment_module "m") tt)
  = Some (Unexpect InvalidInitializer).
Proof.
  apply (instantiate_error_stops
           (Scripted.handle
              (Scripted.fail_at tresolveExpression_DataSec
                 InvalidInitializer))
           tt Instantiate Scripted.segment_module "m"
           (Ev (resolveExpression_DataSec 0%Z Scripted.segment_data)
              (Unexpect InvalidInitializer)) InvalidInitializer).
  - vm_compute. tag_in.
  - reflexivity.
Defined.

End SegmentRuns.
